(** * ltfs-tools: a shallow embedding of the verified transfer pipeline

    The development follows the Python package [ltfs_tools] module by module:
    [hash.py], [utils.py], [mhl.py], [catalog_db.py], [transfer.py] and the
    [recover]/[finalize] commands of [cli.py].

    Conventions.
    - A Python [str] is the list of its Unicode code points ([list N]);
      [bytes] is a list of [Byte.byte].
    - A Python [int] is a [Z].
    - A function that may raise returns a [Result]; the exceptions that the
      package's handlers tell apart are the constructors of [exn].
    - Functions of third-party libraries ([xxhash], [unicodedata], [fnmatch],
      the XML text layer, [sqlite3] faults) are parameters of the sections
      that use them. *)

From Stdlib Require Import ZArith NArith QArith Lia List Ascii String.
From Stdlib Require DecimalString DecimalZ DecimalPos.
From stdpp Require Import base list gmap sorting.
From Equations Require Import Equations.
From Equations.Prop Require Import Logic.

Local Open Scope Z_scope.

(** ** Python values *)

Abbreviation str := (list N).
Abbreviation bytes := (list Byte.byte).

(** An ASCII literal as a Python [str]. *)
Definition lit (s : string) : str :=
  map (fun a => N_of_ascii a) (list_ascii_of_string s).

(** The exceptions that matter to the package's [try]/[except] blocks.
    [OSError] stands for the [OSError]s other than [FileNotFoundError],
    [MarkupError] is the one of [rich], and [KeyboardInterrupt] stands for
    the [BaseException]s that are not [Exception]s. *)
Inductive exn : Type :=
| OSError (msg : str)
| FileNotFoundError (msg : str)
| ZeroDivisionError
| ValueError
| SqliteError (msg : str)
| OverflowError
| MarkupError (msg : str)
| TransferError (msg : str)
| KeyboardInterrupt.

(** [isinstance(e, Exception)] *)
Definition is_Exception (e : exn) : bool :=
  match e with KeyboardInterrupt => false | _ => true end.

(** [isinstance(e, OSError)] *)
Definition is_OSError (e : exn) : bool :=
  match e with OSError _ | FileNotFoundError _ => true | _ => false end.

(** [isinstance(e, FileNotFoundError)] *)
Definition is_FileNotFoundError (e : exn) : bool :=
  match e with FileNotFoundError _ => true | _ => false end.

(** [isinstance(e, sqlite3.Error)] *)
Definition is_sqlite_Error (e : exn) : bool :=
  match e with SqliteError _ => true | _ => false end.

Inductive Result (A : Type) : Type :=
| Ok (a : A)
| Raise (e : exn).
Arguments Ok {A} a.
Arguments Raise {A} e.

#[export] Instance Result_ret : MRet Result := fun A a => Ok a.
#[export] Instance Result_fmap : FMap Result := fun A B f r =>
  match r with Ok a => Ok (f a) | Raise e => Raise e end.
#[export] Instance Result_bind : MBind Result := fun A B k r =>
  match r with Ok a => k a | Raise e => Raise e end.

(** ** Dates: the part of [datetime] the package uses *)

Module Datetime.

(** [tzinfo] is either absent (a naive local time, [datetime.now()]) or
    [timezone.utc]. *)
Inductive tzinfo := Naive | UTC.

Record datetime := {
  year : Z; month : Z; day : Z;
  hour : Z; minute : Z; second : Z; microsecond : Z;
  tz : tzinfo
}.

#[export] Instance tzinfo_eq_dec : EqDecision tzinfo.
Proof. solve_decision. Defined.
#[export] Instance datetime_eq_dec : EqDecision datetime.
Proof. solve_decision. Defined.

Definition is_leap (y : Z) : bool :=
  (y mod 4 =? 0) && (negb (y mod 100 =? 0) || (y mod 400 =? 0)).

Definition days_in_month (y m : Z) : Z :=
  if m =? 2 then (if is_leap y then 29 else 28)
  else if (m =? 4) || (m =? 6) || (m =? 9) || (m =? 11) then 30 else 31.

(** The range checks of the [datetime] constructor. *)
Definition valid (d : datetime) : bool :=
  (1 <=? year d) && (year d <=? 9999) &&
  (1 <=? month d) && (month d <=? 12) &&
  (1 <=? day d) && (day d <=? days_in_month (year d) (month d)) &&
  (0 <=? hour d) && (hour d <=? 23) &&
  (0 <=? minute d) && (minute d <=? 59) &&
  (0 <=? second d) && (second d <=? 59) &&
  (0 <=? microsecond d) && (microsecond d <=? 999999).

(** [n] written with exactly [k] decimal digits (zero padded). *)
Fixpoint pad (k : nat) (n : Z) : str :=
  match k with
  | O => []
  | S k' => pad k' (n / 10) ++ [Z.to_N (48 + n mod 10)]
  end.

(** The value of a run of ASCII digits read left to right from [acc]. *)
Fixpoint digits (s : str) (acc : Z) : option Z :=
  match s with
  | [] => Some acc
  | c :: s' =>
      if ((48 <=? c) && (c <=? 57))%N then digits s' (acc * 10 + (Z.of_N c - 48))
      else None
  end.

Definition set_field (c : N) (v : Z) (d : datetime) : option datetime :=
  if (c =? 89)%N then Some {| year := v; month := month d; day := day d; hour := hour d;
      minute := minute d; second := second d; microsecond := microsecond d; tz := tz d |}
  else if (c =? 109)%N then Some {| year := year d; month := v; day := day d; hour := hour d;
      minute := minute d; second := second d; microsecond := microsecond d; tz := tz d |}
  else if (c =? 100)%N then Some {| year := year d; month := month d; day := v; hour := hour d;
      minute := minute d; second := second d; microsecond := microsecond d; tz := tz d |}
  else if (c =? 72)%N then Some {| year := year d; month := month d; day := day d; hour := v;
      minute := minute d; second := second d; microsecond := microsecond d; tz := tz d |}
  else if (c =? 77)%N then Some {| year := year d; month := month d; day := day d; hour := hour d;
      minute := v; second := second d; microsecond := microsecond d; tz := tz d |}
  else if (c =? 83)%N then Some {| year := year d; month := month d; day := day d; hour := hour d;
      minute := minute d; second := v; microsecond := microsecond d; tz := tz d |}
  else None.

Definition get_field (c : N) (d : datetime) : option Z :=
  if (c =? 89)%N then Some (year d)
  else if (c =? 109)%N then Some (month d)
  else if (c =? 100)%N then Some (day d)
  else if (c =? 72)%N then Some (hour d)
  else if (c =? 77)%N then Some (minute d)
  else if (c =? 83)%N then Some (second d)
  else None.

(** The digits that [strptime] reads for a directive: four for [%Y], two
    for the others. *)
Definition width (c : N) : nat := if (c =? 89)%N then 4%nat else 2%nat.

(** The digits of a year as [%Y] writes it: the plain decimal number, as
    the C library of Linux prints it, so that a year below 1000 has fewer
    than four digits ([datetime(999, 5, 17).strftime("%Y")] is ['999']). *)
Definition year_width (y : Z) : nat :=
  if y <? 10 then 1%nat else if y <? 100 then 2%nat
  else if y <? 1000 then 3%nat else 4%nat.

(** The digits that [strftime] writes for a directive: [%m %d %H %M %S]
    are zero padded to two. *)
Definition written_width (c : N) (v : Z) : nat :=
  if (c =? 89)%N then year_width v else 2%nat.

(** [d.strftime(fmt)] for formats made of literal text and the directives
    [%Y %m %d %H %M %S]. *)
Fixpoint strftime (fmt : str) (d : datetime) : str :=
  match fmt with
  | [] => []
  | c :: fmt' =>
      if (c =? 37)%N then
        match fmt' with
        | k :: fmt'' =>
            match get_field k d with
            | Some v => pad (written_width k v) v ++ strftime fmt'' d
            | None => c :: k :: strftime fmt'' d
            end
        | [] => [c]
        end
      else c :: strftime fmt' d
  end.

(** The datetime [strptime] starts from: 1900-01-01 00:00:00, naive. *)
Definition epoch_1900 : datetime :=
  {| year := 1900; month := 1; day := 1; hour := 0; minute := 0; second := 0;
     microsecond := 0; tz := Naive |}.

(** Matching of [s] against [fmt], filling the fields of [d]. *)
Fixpoint strptime_fields (fmt : str) (s : str) (d : datetime) : option datetime :=
  match fmt with
  | [] => match s with [] => Some d | _ => None end
  | c :: fmt' =>
      if (c =? 37)%N then
        match fmt' with
        | k :: fmt'' =>
            if (length s <? width k)%nat then None else
            match digits (take (width k) s) 0 with
            | Some v =>
                match set_field k v d with
                | Some d' => strptime_fields fmt'' (drop (width k) s) d'
                | None => None
                end
            | None => None
            end
        | [] => None
        end
      else
        match s with
        | x :: s' => if (x =? c)%N then strptime_fields fmt' s' d else None
        | [] => None
        end
  end.

(** [datetime.strptime(s, fmt)] on text in the fixed-width form that
    [strftime] writes: a mismatch or an out-of-range field is a
    [ValueError].  (Python also accepts unpadded fields and letters in
    either case; [strftime] never writes them.) *)
Definition strptime (s : str) (fmt : str) : Result datetime :=
  match strptime_fields fmt s epoch_1900 with
  | Some d => if valid d then Ok d else Raise ValueError
  | None => Raise ValueError
  end.

(** [d.replace(tzinfo=timezone.utc)] *)
Definition replace_tzinfo_utc (d : datetime) : datetime :=
  {| year := year d; month := month d; day := day d; hour := hour d;
     minute := minute d; second := second d; microsecond := microsecond d; tz := UTC |}.

(** [d.isoformat()]: the year always has four digits here. *)
Definition isoformat (d : datetime) : str :=
  pad 4 (year d) ++ lit "-" ++ pad 2 (month d) ++ lit "-" ++ pad 2 (day d) ++ lit "T"
  ++ pad 2 (hour d) ++ lit ":" ++ pad 2 (minute d) ++ lit ":" ++ pad 2 (second d)
  ++ (if microsecond d =? 0 then [] else 46%N :: pad 6 (microsecond d))
  ++ (match tz d with UTC => lit "+00:00" | Naive => [] end).

(** The two formats of the package. *)
Definition MHL_FORMAT : str := lit "%Y-%m-%dT%H:%M:%SZ".
Definition STAMP_FORMAT : str := lit "%Y%m%d_%H%M%S".

(** What survives a trip through [MHL_FORMAT]: whole seconds, read back as
    UTC. *)
Definition to_seconds_utc (d : datetime) : datetime :=
  {| year := year d; month := month d; day := day d; hour := hour d;
     minute := minute d; second := second d; microsecond := 0; tz := UTC |}.

(** [d.replace(tzinfo=None)] *)
Definition replace_tzinfo_none (d : datetime) : datetime :=
  {| year := year d; month := month d; day := day d; hour := hour d;
     minute := minute d; second := second d; microsecond := microsecond d; tz := Naive |}.

(** The days before the first of January of year [y], and before the first
    of month [m] of year [y]. *)
Definition days_before_year (y : Z) : Z :=
  (y - 1) * 365 + (y - 1) / 4 - (y - 1) / 100 + (y - 1) / 400.

Definition days_before_month (y m : Z) : Z :=
  foldr Z.add 0 (days_in_month y <$> seqZ 1 (m - 1)).

(** [d.toordinal()] *)
Definition toordinal (d : datetime) : Z :=
  days_before_year (year d) + days_before_month (year d) (month d) + day d.

(** The microseconds from the start of day 0 to [d]. *)
Definition to_microseconds (d : datetime) : Z :=
  (((toordinal d * 24 + hour d) * 60 + minute d) * 60 + second d) * 1000000
  + microsecond d.

(** [(e - s).total_seconds()] for two datetimes of the same time zone; the
    float is taken to be the exact quotient. *)
Definition total_seconds (e s : datetime) : Q :=
  (to_microseconds e - to_microseconds s) # 1000000.

Lemma length_pad k n : length (pad k n) = k.
Proof. revert n. induction k; intros; simpl; [done|]. rewrite length_app, IHk. simpl. lia. Qed.

Lemma digits_app s1 s2 acc :
  digits (s1 ++ s2) acc = v ← digits s1 acc; digits s2 v.
Proof.
  revert acc. induction s1 as [|c s1 IH]; intros; simpl; [done|].
  destruct (_ && _)%N; [apply IH | done].
Qed.

Lemma digits_pad k n acc :
  0 <= n < 10 ^ Z.of_nat k -> digits (pad k n) acc = Some (acc * 10 ^ Z.of_nat k + n).
Proof.
  revert n acc. induction k as [|k IH]; intros n acc Hn.
  - simpl in *. f_equal. lia.
  - simpl pad. rewrite digits_app.
    assert (0 <= n / 10 < 10 ^ Z.of_nat k).
    { rewrite Nat2Z.inj_succ, Z.pow_succ_r in Hn by lia.
      split; [apply Z.div_pos; lia | apply Z.div_lt_upper_bound; lia]. }
    rewrite IH by done. simpl.
    pose proof (Z.mod_pos_bound n 10 ltac:(lia)).
    replace ((48 <=? Z.to_N (48 + n mod 10)) && (Z.to_N (48 + n mod 10) <=? 57))%N
      with true.
    2:{ symmetry. apply andb_true_iff. split; apply N.leb_le; lia. }
    f_equal. rewrite Nat2Z.inj_succ, Z.pow_succ_r by lia.
    rewrite Z2N.id by lia.
    pose proof (Z.div_mod n 10 ltac:(lia)). lia.
Qed.

Lemma strptime_fields_directive k fmt v rest d :
  0 <= v < 10 ^ Z.of_nat (width k) ->
  strptime_fields (37%N :: k :: fmt) (pad (width k) v ++ rest) d =
  d' ← set_field k v d; strptime_fields fmt rest d'.
Proof.
  intros Hv. cbn [strptime_fields]. rewrite N.eqb_refl.
  rewrite length_app, length_pad.
  destruct (Nat.ltb_spec (width k + length rest) (width k)) as [?|_]; [lia|].
  rewrite take_app_length' by (by rewrite length_pad).
  rewrite drop_app_length' by (by rewrite length_pad).
  rewrite digits_pad by done. rewrite Z.mul_0_l, Z.add_0_l.
  by destruct (set_field k v d).
Qed.

Lemma strptime_fields_literal c fmt rest d :
  c <> 37%N ->
  strptime_fields (c :: fmt) (c :: rest) d = strptime_fields fmt rest d.
Proof.
  intros Hc. cbn [strptime_fields].
  destruct (N.eqb_spec c 37) as [?|_]; [done|]. by rewrite N.eqb_refl.
Qed.

Lemma strptime_fields_end d : strptime_fields [] [] d = Some d.
Proof. done. Qed.

Lemma valid_bounds d :
  valid d = true ->
  1 <= year d <= 9999 /\ 1 <= month d <= 12 /\ 1 <= day d <= 31 /\
  0 <= hour d <= 23 /\ 0 <= minute d <= 59 /\ 0 <= second d <= 59 /\
  0 <= microsecond d <= 999999.
Proof.
  unfold valid. rewrite !andb_true_iff, !Z.leb_le.
  intros. assert (days_in_month (year d) (month d) <= 31).
  { unfold days_in_month. repeat case_match; lia. }
  lia.
Qed.

Lemma year_width_4 y : 1000 <= y -> year_width y = 4%nat.
Proof.
  intros Hy. unfold year_width.
  destruct (Z.ltb_spec y 10); [lia|]. destruct (Z.ltb_spec y 100); [lia|].
  destruct (Z.ltb_spec y 1000); [lia|done].
Qed.

Lemma year_width_early y : y < 1000 -> (1 <= year_width y <= 3)%nat.
Proof.
  intros Hy. unfold year_width.
  destruct (Z.ltb_spec y 10); [lia|]. destruct (Z.ltb_spec y 100); [lia|].
  destruct (Z.ltb_spec y 1000); lia.
Qed.

(** What [strftime] writes in [MHL_FORMAT]. *)
Lemma strftime_mhl d :
  strftime (lit "%Y-%m-%dT%H:%M:%SZ") d
  = pad (year_width (year d)) (year d) ++ 45%N :: pad 2 (month d) ++ 45%N ::
    pad 2 (day d) ++ 84%N :: pad 2 (hour d) ++ 58%N :: pad 2 (minute d) ++ 58%N ::
    pad 2 (second d) ++ [90%N].
Proof. reflexivity. Qed.

(** Reading back what [strftime] wrote in [MHL_FORMAT]: from the year
    1000 the fields come back, in whole seconds. *)
Lemma strptime_strftime_mhl d :
  valid d = true -> 1000 <= year d ->
  replace_tzinfo_utc <$> strptime (strftime MHL_FORMAT d) MHL_FORMAT
  = Ok (to_seconds_utc d).
Proof.
  intros Hv Hy. pose proof (valid_bounds d Hv) as Hb.
  assert (strptime_fields MHL_FORMAT (strftime MHL_FORMAT d) epoch_1900
          = Some {| year := year d; month := month d; day := day d; hour := hour d;
                    minute := minute d; second := second d; microsecond := 0;
                    tz := Naive |}) as E.
  { change (strftime MHL_FORMAT d) with (strftime (lit "%Y-%m-%dT%H:%M:%SZ") d).
    rewrite strftime_mhl, (year_width_4 _ Hy).
    let f := eval vm_compute in MHL_FORMAT in change MHL_FORMAT with f.
    change 4%nat with (width 89). change 2%nat with (width 109) at 1.
    change 2%nat with (width 100) at 1. change 2%nat with (width 72) at 1.
    change 2%nat with (width 77) at 1. change 2%nat with (width 83) at 1.
    repeat first
      [ rewrite strptime_fields_directive by (cbn; lia);
        cbn [set_field N.eqb Pos.eqb mbind option_bind
             year month day hour minute second microsecond tz]
      | rewrite strptime_fields_literal by done ].
    done. }
  unfold strptime. rewrite E.
  replace (valid _) with true; [done|].
  symmetry. revert Hv. unfold valid; simpl.
  rewrite !andb_true_iff, !Z.leb_le. lia.
Qed.

Lemma digits_pad_Some k n acc : exists v, digits (pad k n) acc = Some v.
Proof.
  revert n acc. induction k as [|k IH]; intros n acc; [by eexists|].
  simpl pad. rewrite digits_app. destruct (IH (n / 10) acc) as [v ->]. simpl.
  pose proof (Z.mod_pos_bound n 10 ltac:(lia)).
  replace ((48 <=? Z.to_N (48 + n mod 10)) && (Z.to_N (48 + n mod 10) <=? 57))%N
    with true; [by eexists|].
  symmetry. apply andb_true_iff. split; apply N.leb_le; lia.
Qed.

(** A year below 1000 is written with fewer than four digits, and
    [strptime] does not take the text back. *)
Lemma strptime_strftime_mhl_early d :
  year d < 1000 -> strptime (strftime MHL_FORMAT d) MHL_FORMAT = Raise ValueError.
Proof.
  intros Hy. pose proof (year_width_early _ Hy) as Hw.
  change (strftime MHL_FORMAT d) with (strftime (lit "%Y-%m-%dT%H:%M:%SZ") d).
  rewrite strftime_mhl. unfold strptime.
  set (rest := pad 2 (month d) ++ _).
  set (w := year_width (year d)) in *.
  let f := eval vm_compute in MHL_FORMAT in change MHL_FORMAT with f.
  cbn [strptime_fields N.eqb Pos.eqb].
  change (width 89) with 4%nat.
  destruct (_ <? _)%nat; [done|].
  replace (take 4 (pad w (year d) ++ 45%N :: rest))
    with (pad w (year d) ++ 45%N :: take (3 - w) rest).
  2: { rewrite take_app, length_pad, (take_ge (pad _ _)) by (rewrite length_pad; lia).
       f_equal. replace (4 - w)%nat with (S (3 - w)) by lia. done. }
  rewrite digits_app. destruct (digits_pad_Some w (year d) 0) as [v ->]. done.
Qed.

(** [STAMP_FORMAT] writes fifteen characters from the year 1000, and
    different seconds give different text. *)
Lemma strftime_stamp_length d :
  1000 <= year d -> length (strftime STAMP_FORMAT d) = 15%nat.
Proof.
  intros Hy.
  let f := eval vm_compute in STAMP_FORMAT in change STAMP_FORMAT with f.
  cbn [strftime N.eqb Pos.eqb get_field written_width]. rewrite (year_width_4 _ Hy).
  repeat (rewrite ?length_app, ?length_pad; cbn [length]). done.
Qed.

Lemma pad_inj k n m :
  0 <= n < 10 ^ Z.of_nat k -> 0 <= m < 10 ^ Z.of_nat k -> pad k n = pad k m -> n = m.
Proof.
  intros Hn Hm E. pose proof (digits_pad k n 0 Hn) as E1.
  pose proof (digits_pad k m 0 Hm) as E2. rewrite E in E1. rewrite E1 in E2.
  injection E2. lia.
Qed.

Lemma pad_app_inj k n m s1 s2 :
  pad k n ++ s1 = pad k m ++ s2 -> pad k n = pad k m /\ s1 = s2.
Proof. intros E. apply app_inj_1 in E; [done|]. by rewrite !length_pad. Qed.

Lemma strftime_stamp_inj d1 d2 :
  valid d1 = true -> valid d2 = true -> 1000 <= year d1 -> 1000 <= year d2 ->
  strftime STAMP_FORMAT d1 = strftime STAMP_FORMAT d2 ->
  to_seconds_utc d1 = to_seconds_utc d2.
Proof.
  intros Hv1 Hv2 Hy1 Hy2.
  pose proof (valid_bounds d1 Hv1). pose proof (valid_bounds d2 Hv2).
  let f := eval vm_compute in STAMP_FORMAT in change STAMP_FORMAT with f.
  cbn [strftime N.eqb Pos.eqb get_field written_width].
  rewrite (year_width_4 _ Hy1), (year_width_4 _ Hy2). intros E.
  repeat match goal with
  | E : pad _ _ ++ _ = pad _ _ ++ _ |- _ =>
      apply pad_app_inj in E; destruct E as [?%pad_inj ?]; [|cbn; lia..]
  | E : ?c :: _ = ?c :: _ |- _ => apply (inj (cons c)) in E
  end.
  unfold to_seconds_utc. congruence.
Qed.

End Datetime.

(** ** hash.py *)

Module Hash.

(** The interface of [xxhash.xxh64]: a fresh hasher, [update], and
    [hexdigest].  The two laws are the streaming contract of the library:
    feeding data in pieces is feeding their concatenation. *)
Class XXH64 := {
  hasher : Type;
  xxh64 : hasher;
  update : hasher -> bytes -> hasher;
  hexdigest : hasher -> str;
  update_nil : forall h, update h [] = h;
  update_app : forall h a b, update (update h a) b = update h (a ++ b)
}.

(** [DEFAULT_CHUNK_SIZE = 1024 * 1024] *)
Definition DEFAULT_CHUNK_SIZE : Z := 1024 * 1024.

(** The two kinds of binary stream that the package reads: a file opened
    with [open(path, "rb")], and an [io.BytesIO]. *)
Inductive stream_kind := FileObject | BytesIO.

(** Whether [n] fits the C [ssize_t] to which [read] converts its
    argument. *)
Definition fits_ssize_t (n : Z) : bool := (- 2 ^ 63 <=? n) && (n <? 2 ^ 63).

Section Reading.

(** What getting the buffer for a read of [n >= 1] bytes from a file
    object raises ([MemoryError] when memory is short, [OverflowError] for
    a byte string that is too large); [None] when the buffer is there. *)
Variable alloc_fault : Z -> option exn.

(** [stream.read(n)] on a stream whose unread content is [s]: the chunk
    returned and what is left, or the exception.  An [n] outside
    [ssize_t] raises [OverflowError]; [-1] reads to the end; a file object
    refuses any other negative [n] with [ValueError], while a [BytesIO]
    reads to the end. *)
Definition read (k : stream_kind) (n : Z) (s : bytes) : Result (bytes * bytes) :=
  if negb (fits_ssize_t n) then Raise OverflowError
  else if n <? 0 then
    match k with
    | FileObject => if n =? -1 then Ok (s, []) else Raise ValueError
    | BytesIO => Ok (s, [])
    end
  else
    match k, (if 0 <? n then alloc_fault n else None) with
    | FileObject, Some e => Raise e
    | _, _ => Ok (take (Z.to_nat n) s, drop (Z.to_nat n) s)
    end.

Lemma read_app k n s chunk rest : read k n s = Ok (chunk, rest) -> s = chunk ++ rest.
Proof.
  unfold read. destruct (negb _); [done|]. destruct (n <? 0).
  - destruct k; [destruct (n =? -1)|]; intros [= <- <-]; by rewrite app_nil_r.
  - destruct k, (if 0 <? n then alloc_fault n else None); intros [= <- <-];
      by rewrite take_drop.
Qed.

Lemma read_nil k n s rest : n <> 0 -> read k n s = Ok ([], rest) -> s = [].
Proof.
  unfold read. intros Hn. destruct (negb _); [done|]. destruct (n <? 0) eqn:E.
  - destruct k; [destruct (n =? -1)|]; by intros [= -> _].
  - apply Z.ltb_ge in E.
    assert (forall s0 : bytes, take (Z.to_nat n) s0 = [] -> s0 = []) as Ht.
    { intros s0. destruct (Z.to_nat n) eqn:En; [lia|]. by destruct s0. }
    destruct k, (if 0 <? n then alloc_fault n else None); intros [= Hs _]; by apply Ht.
Qed.

(** A read of a size from 1 that fits and whose buffer is there takes
    that many bytes. *)
Lemma read_ok k n s :
  1 <= n < 2 ^ 63 -> alloc_fault n = None ->
  read k n s = Ok (take (Z.to_nat n) s, drop (Z.to_nat n) s).
Proof.
  intros Hn Ha. unfold read, fits_ssize_t.
  rewrite (proj2 (Z.leb_le _ _)), (proj2 (Z.ltb_lt _ _)) by lia. simpl.
  rewrite (proj2 (Z.ltb_ge _ _)), (proj2 (Z.ltb_lt 0 n)), Ha by lia. by destruct k.
Qed.

Lemma read_0 k s : read k 0 s = Ok ([], s).
Proof. by destruct k. Qed.

Lemma read_to_end k n s :
  - 2 ^ 63 <= n < 0 -> (k = FileObject -> n = -1) -> read k n s = Ok (s, []).
Proof.
  intros Hn Hk. unfold read, fits_ssize_t.
  rewrite (proj2 (Z.leb_le _ _)), (proj2 (Z.ltb_lt _ _)) by lia. simpl.
  rewrite (proj2 (Z.ltb_lt n 0)) by lia. destruct k; [|done].
  by rewrite Hk.
Qed.

Lemma read_refused n s :
  - 2 ^ 63 <= n < -1 -> read FileObject n s = Raise ValueError.
Proof.
  intros Hn. unfold read, fits_ssize_t.
  rewrite (proj2 (Z.leb_le _ _)), (proj2 (Z.ltb_lt _ _)) by lia. simpl.
  rewrite (proj2 (Z.ltb_lt n 0)), (proj2 (Z.eqb_neq n (-1))) by lia. done.
Qed.

Lemma read_overflow k n s :
  n < - 2 ^ 63 \/ 2 ^ 63 <= n -> read k n s = Raise OverflowError.
Proof.
  intros Hn. unfold read, fits_ssize_t.
  destruct Hn; [rewrite (proj2 (Z.leb_gt _ _)) by lia; done|].
  rewrite (proj2 (Z.ltb_ge _ _)) by lia. by rewrite andb_false_r.
Qed.

Section Hashing.
Context `{XXH64}.

(** The loop [while chunk := stream.read(chunk_size): hasher.update(chunk)]. *)
Equations? hash_loop (k : stream_kind) (chunk_size : Z) (h : hasher) (s : bytes)
  : Result hasher
  by wf (length s) lt :=
hash_loop k chunk_size h s with inspect (read k chunk_size s) := {
  | exist _ (Raise e) _ => Raise e
  | exist _ (Ok ([], _)) _ => Ok h
  | exist _ (Ok (c :: cs, rest)) e => hash_loop k chunk_size (update h (c :: cs)) rest }.
Proof.
  apply read_app in e. subst s. rewrite length_app. simpl. lia.
Qed.

(** [hash_stream(stream, chunk_size)] on a stream of kind [k]. *)
Definition hash_stream (k : stream_kind) (stream : bytes) (chunk_size : Z) : Result str :=
  hexdigest <$> hash_loop k chunk_size xxh64 stream.

(** [hash_bytes(data)]: [xxhash.xxh64(data).hexdigest()]. *)
Definition hash_bytes (data : bytes) : str :=
  hexdigest (update xxh64 data).

(** The loop of [hash_file], which also counts [bytes_read] and reports
    [(bytes_read, file_size)] to the progress callback after each chunk. *)
Equations? hash_file_loop (chunk_size : Z) (file_size : Z)
    (h : hasher) (bytes_read : Z) (calls : list (Z * Z)) (s : bytes)
  : Result (hasher * list (Z * Z))
  by wf (length s) lt :=
hash_file_loop chunk_size file_size h bytes_read calls s
  with inspect (read FileObject chunk_size s) := {
  | exist _ (Raise e) _ => Raise e
  | exist _ (Ok ([], _)) _ => Ok (h, calls)
  | exist _ (Ok (c :: cs, rest)) e =>
      hash_file_loop chunk_size file_size
        (update h (c :: cs))
        (bytes_read + Z.of_nat (length (c :: cs)))
        (calls ++ [(bytes_read + Z.of_nat (length (c :: cs)), file_size)])
        rest }.
Proof.
  apply read_app in e. subst s. rewrite length_app. simpl. lia.
Qed.

(** [hash_file(filepath, chunk_size, progress_callback)] on a file whose
    [stat] gives [file_size] and whose content is [data]: the digest and
    the list of calls made to the callback, or the exception of a read. *)
Definition hash_file (file_size : Z) (data : bytes) (chunk_size : Z)
  : Result (str * list (Z * Z)) :=
  '(h, calls) ← hash_file_loop chunk_size file_size xxh64 0 [] data;
  mret (hexdigest h, calls).

(** A loop whose reads never raise and are not of size 0 feeds the hasher
    the whole content. *)
Lemma hash_loop_update k chunk_size h s :
  chunk_size <> 0 ->
  (forall s0, exists c r, read k chunk_size s0 = Ok (c, r)) ->
  hash_loop k chunk_size h s = Ok (update h s).
Proof.
  intros Hn Hr. funelim (hash_loop k chunk_size h s).
  - rewrite (read_nil _ _ _ _ Hn e). by rewrite update_nil.
  - match goal with IH : _ -> _ -> hash_loop _ _ _ _ = _ |- _ => rewrite IH by done end.
    rewrite update_app. do 2 f_equal. symmetry. by apply (read_app k chunk_size).
  - destruct (Hr s) as (c & r & E). congruence.
Qed.

Lemma hash_file_loop_update chunk_size file_size h n calls s :
  chunk_size <> 0 ->
  (forall s0, exists c r, read FileObject chunk_size s0 = Ok (c, r)) ->
  exists calls', hash_file_loop chunk_size file_size h n calls s = Ok (update h s, calls').
Proof.
  intros Hn Hr. funelim (hash_file_loop chunk_size file_size h n calls s).
  - rewrite (read_nil _ _ _ _ Hn e). rewrite update_nil. by eexists.
  - match goal with IH : _ -> _ -> exists _, hash_file_loop _ _ _ _ _ _ = _ |- _ =>
      destruct (IH Hn Hr) as [calls' ->] end.
    rewrite update_app. exists calls'. do 3 f_equal. symmetry.
    by apply (read_app FileObject chunk_size).
  - destruct (Hr s) as (c & r & E). congruence.
Qed.

(** A loop whose first read raises ends with that exception. *)
Lemma hash_loop_raise k chunk_size h s e :
  read k chunk_size s = Raise e -> hash_loop k chunk_size h s = Raise e.
Proof.
  intros E. funelim (hash_loop k chunk_size h s); congruence.
Qed.

Lemma hash_file_loop_raise chunk_size file_size h n calls s e :
  read FileObject chunk_size s = Raise e ->
  hash_file_loop chunk_size file_size h n calls s = Raise e.
Proof.
  intros E. funelim (hash_file_loop chunk_size file_size h n calls s); congruence.
Qed.

(** With a chunk size from 1 that fits an [ssize_t] and whose buffer can
    be had, [hash_file] returns the one-shot digest. *)
Lemma digest_of_file_content (data : bytes) (chunk_size : Z) :
  1 <= chunk_size < 2 ^ 63 ->
  alloc_fault chunk_size = None ->
  forall file_size, exists calls,
    hash_file file_size data chunk_size = Ok (hash_bytes data, calls).
Proof.
  intros Hn Ha file_size. unfold hash_file, hash_bytes.
  destruct (hash_file_loop_update chunk_size file_size xxh64 0 [] data) as [calls ->];
    [lia| |by eexists].
  intros s0. rewrite read_ok by done. by eexists _, _.
Qed.

(** C10 (amended).  The digest does not depend on the read chunk size
    where the reads can be made: for every byte sequence and every chunk
    size from 1 that fits an [ssize_t] (below [2 ^ 63]) and whose buffer
    can be had, [hash_stream] (on a stream of either kind) and [hash_file]
    (whatever size [stat] reported for the progress callback) return the
    digest that [hash_bytes] computes in one shot. *)
Theorem digest_chunk_size_independent (k : stream_kind) (data : bytes) (chunk_size : Z) :
  1 <= chunk_size < 2 ^ 63 ->
  alloc_fault chunk_size = None ->
  hash_stream k data chunk_size = Ok (hash_bytes data) /\
  forall file_size, fst <$> hash_file file_size data chunk_size = Ok (hash_bytes data).
Proof.
  intros Hn Ha. split.
  - unfold hash_stream, hash_bytes. rewrite hash_loop_update; [done|lia|].
    intros s0. rewrite read_ok by done. by eexists _, _.
  - intros file_size.
    by destruct (digest_of_file_content data chunk_size Hn Ha file_size) as [calls ->].
Qed.

End Hashing.

End Reading.

(** A hasher that keeps what it was fed, with a positional checksum as its
    digest: an instance of the interface used to run the definitions. *)
Definition sum_digest (data : bytes) : str :=
  let n := fold_left (fun acc b => (acc * 31 + Z.of_N (Byte.to_N b)) mod 2 ^ 64) data 0 in
  [Z.to_N n].

#[export] Instance list_hasher : XXH64 := {|
  hasher := bytes;
  xxh64 := [];
  update := fun h b => h ++ b;
  hexdigest := sum_digest;
  update_nil := fun h => app_nil_r h;
  update_app := fun h a b => eq_sym (app_assoc h a b)
|}.

(** Every buffer is there. *)
Definition roomy (n : Z) : option exn := None.

(** A chunk size of [2 ^ 63] is at least 1, and the first read raises
    [OverflowError]: no digest is returned. *)
Lemma chunk_size_overflows :
  1 <= 2 ^ 63
  /\ hash_stream roomy BytesIO [Byte.x61; Byte.x62] (2 ^ 63) = Raise OverflowError
  /\ hash_stream roomy BytesIO [Byte.x61; Byte.x62] (2 ^ 63)
     <> Ok (hash_bytes [Byte.x61; Byte.x62])
  /\ hash_file roomy 2 [Byte.x61; Byte.x62] (2 ^ 63) = Raise OverflowError.
Proof.
  assert (forall k s, read roomy k (2 ^ 63) s = Raise OverflowError) as Hr
    by (intros; apply read_overflow; lia).
  split; [lia|]. unfold hash_stream, hash_file.
  rewrite (hash_loop_raise roomy _ _ _ _ _ (Hr _ _)).
  rewrite (hash_file_loop_raise roomy _ _ _ _ _ _ _ (Hr _ _)). done.
Qed.

Lemma digest_chunk_size_independent_witness :
  hash_stream roomy BytesIO
    [Byte.x61; Byte.x62; Byte.x63; Byte.x64; Byte.x65; Byte.x66; Byte.x67] 3
  = Ok (hash_bytes [Byte.x61; Byte.x62; Byte.x63; Byte.x64; Byte.x65; Byte.x66; Byte.x67])
  /\ forall file_size,
       fst <$> hash_file roomy file_size
                 [Byte.x61; Byte.x62; Byte.x63; Byte.x64; Byte.x65; Byte.x66; Byte.x67] 3
       = Ok (hash_bytes
               [Byte.x61; Byte.x62; Byte.x63; Byte.x64; Byte.x65; Byte.x66; Byte.x67]).
Proof.
  apply (digest_chunk_size_independent roomy (H := list_hasher)); [lia|done].
Defined.

(** ** hash.py: the chunk size at its edges, and the progress reports *)

Section Chunks.
Variable alloc_fault : Z -> option exn.
Context `{XXH64}.

Lemma hash_loop_stops k chunk_size h s :
  chunk_size = 0 -> hash_loop alloc_fault k chunk_size h s = Ok h.
Proof.
  intros Hz. funelim (hash_loop alloc_fault k chunk_size h s); [done| |];
    match goal with E : read _ _ _ _ = _ |- _ =>
      pose proof E as E'; rewrite read_0 in E'; congruence end.
Qed.

Lemma hash_file_loop_stops chunk_size file_size h n calls s :
  chunk_size = 0 ->
  hash_file_loop alloc_fault chunk_size file_size h n calls s = Ok (h, calls).
Proof.
  intros Hz. funelim (hash_file_loop alloc_fault chunk_size file_size h n calls s);
    [done| |];
    match goal with E : read _ _ _ _ = _ |- _ =>
      pose proof E as E'; rewrite read_0 in E'; congruence end.
Qed.


(** The reports that a file of [len] bytes read in chunks of [chunk_size]
    gives rise to: after the [k]-th chunk, [min (k * chunk_size) len] bytes
    of [file_size]. *)
Definition progress_reports (chunk_size len file_size : Z) : list (Z * Z) :=
  (fun k => (Z.min (k * chunk_size) len, file_size))
    <$> seqZ 1 ((len + chunk_size - 1) / chunk_size).

Lemma seqZ_succ_shift m n : seqZ (Z.succ m) n = Z.succ <$> seqZ m n.
Proof.
  replace (Z.succ m) with (1 + m) by lia. rewrite <- fmap_add_seqZ.
  apply list_fmap_ext. intros; lia.
Qed.

Lemma hash_file_loop_calls chunk_size file_size h n calls s :
  1 <= chunk_size < 2 ^ 63 -> alloc_fault chunk_size = None ->
  snd <$> hash_file_loop alloc_fault chunk_size file_size h n calls s
  = Ok (calls ++ ((fun k => (n + Z.min (k * chunk_size) (Z.of_nat (length s)), file_size))
                  <$> seqZ 1 ((Z.of_nat (length s) + chunk_size - 1) / chunk_size))).
Proof.
  intros Hcs Ha. funelim (hash_file_loop alloc_fault chunk_size file_size h n calls s).
  - assert (s = []) as -> by (apply (read_nil alloc_fault FileObject chunk_size _ _ ltac:(lia) e)).
    simpl. rewrite Z.div_small by lia. by rewrite app_nil_r.
  - match goal with IH : forall _ _ _ _ _ _, _ |- _ =>
      rewrite (IH _ _ _ _ _ _ Hcs Ha eq_refl eq_refl) end.
    pose proof e as Hread. rewrite read_ok in Hread by done.
    injection Hread as Hc Hr.
    assert (Hlc : Z.of_nat (length (c :: cs)) = Z.min chunk_size (Z.of_nat (length s))).
    { rewrite <- Hc, length_take. lia. }
    assert (Hlr : Z.of_nat (length rest) = Z.of_nat (length s) - Z.of_nat (length (c :: cs))).
    { rewrite <- Hr, length_drop, Hlc. lia. }
    set (lc := Z.of_nat (length (c :: cs))) in *.
    set (ls := Z.of_nat (length s)) in *.
    rewrite Hlr, <- app_assoc. do 2 f_equal.
    assert (0 < lc) by (unfold lc; simpl; lia).
    replace ((ls + chunk_size - 1) / chunk_size)
      with (Z.succ ((ls - lc + chunk_size - 1) / chunk_size)).
    2: { destruct (Z.le_gt_cases ls chunk_size) as [Hle|Hgt].
         - replace lc with ls by lia. replace (ls - ls + chunk_size - 1) with (chunk_size - 1) by lia.
           rewrite Z.div_small by lia.
           replace (ls + chunk_size - 1) with (1 * chunk_size + (ls - 1)) by lia.
           rewrite Z.div_add_l by lia. rewrite Z.div_small by lia. done.
         - replace lc with chunk_size by lia.
           replace (ls + chunk_size - 1) with (1 * chunk_size + (ls - chunk_size + chunk_size - 1)) by lia.
           rewrite Z.div_add_l by lia. lia. }
    assert (0 <= (ls - lc + chunk_size - 1) / chunk_size) by (apply Z.div_pos; lia).
    rewrite (seqZ_cons 1 (Z.succ _)) by lia.
    rewrite Z.pred_succ, seqZ_succ_shift, fmap_cons, <- list_fmap_compose.
    cbn [app]. f_equal.
    + f_equal. lia.
    + apply list_fmap_ext. intros i k Hk. cbn. f_equal.
      apply lookup_seqZ in Hk as [-> Hi].
      destruct (Z.le_gt_cases ls chunk_size) as [Hle|Hgt]; [|nia].
      rewrite Z.div_small in Hi by lia. lia.
  - match goal with E : read _ _ _ _ = _ |- _ =>
      pose proof E as E'; rewrite read_ok in E' by done; congruence end.
Qed.


End Chunks.

End Hash.
(** ** catalog_db.py *)

Module CatalogDB.
Import Datetime.

(** A row of the [tapes] table (and the dataclass [TapeRecord]). *)
Record TapeRecord := {
  name : str;
  volume_uuid : option str;
  barcode : option str;
  created_at : option str;
  total_bytes : Z;
  file_count : Z
}.

(** A row of the [files] table (and the dataclass [FileRecord]). *)
Record FileRecord := {
  id : Z;
  tape_name : str;
  path : str;
  size : Z;
  mtime : option str;
  xxhash : option str;
  archived_at : option str
}.

(** The dataclass [SearchResult]. *)
Record SearchResult := {
  sr_tape_name : str;
  sr_path : str;
  sr_size : Z;
  sr_mtime : option datetime;
  sr_xxhash : option str
}.

(** The database: its two tables and the [AUTOINCREMENT] counter. *)
Record DB := {
  tapes : list TapeRecord;
  files : list FileRecord;
  next_id : Z
}.

(** The schema after [_init_db]: both tables empty. *)
Definition empty_db : DB := {| tapes := []; files := []; next_id := 1 |}.

(** An element of the [files] argument of [add_files]:
    [(path, size, mtime, xxhash)]. *)
Definition FileTuple : Type := str * Z * option datetime * option str.

(** [COALESCE(a, b)] *)
Definition coalesce {A} (a b : option A) : option A :=
  match a with Some _ => a | None => b end.

(** SQLite stores an [INTEGER] in 64 bits. *)
Definition int64 (z : Z) : bool := (- 2 ^ 63 <=? z) && (z <? 2 ^ 63).

(** [SELECT COUNT( * ) FROM files WHERE tape_name = ?] *)
Definition count_files (fs : list FileRecord) (t : str) : Z :=
  Z.of_nat (length (filter (fun f => tape_name f = t) fs)).

(** [SELECT COALESCE(SUM(size), 0) FROM files WHERE tape_name = ?] *)
Definition sum_sizes (fs : list FileRecord) (t : str) : Z :=
  foldr Z.add 0 (size <$> filter (fun f => tape_name f = t) fs).

(** [SUM] adds the sizes as its scan meets the rows (those of the tape,
    in the order of their ids, which is the order of the table here), and
    an addition that leaves the 64 bits makes the statement fail with an
    "integer overflow". *)
Fixpoint sum_overflows (acc : Z) (sizes : list Z) : bool :=
  match sizes with
  | [] => false
  | x :: sizes' => negb (int64 (acc + x)) || sum_overflows (acc + x) sizes'
  end.

Definition sum_fits (fs : list FileRecord) (t : str) : bool :=
  negb (sum_overflows 0 (size <$> filter (fun f => tape_name f = t) fs)).

Definition has_tape (ts : list TapeRecord) (n : str) : bool :=
  bool_decide (Exists (fun t => name t = n) ts).

(** [INSERT OR IGNORE INTO tapes (name) VALUES (?)]: the other columns take
    their defaults. *)
Definition insert_or_ignore_tape (ts : list TapeRecord) (n : str) : list TapeRecord :=
  if has_tape ts n then ts
  else ts ++ [{| name := n; volume_uuid := None; barcode := None; created_at := None;
                 total_bytes := 0; file_count := 0 |}].

(** [INSERT INTO tapes ... ON CONFLICT(name) DO UPDATE SET ...] of [add_tape]. *)
Definition upsert_tape (ts : list TapeRecord) (n : str)
    (uuid bc created : option str) : list TapeRecord :=
  if has_tape ts n then
    (fun t => if decide (name t = n) then
       {| name := name t;
          volume_uuid := coalesce uuid (volume_uuid t);
          barcode := coalesce bc (barcode t);
          created_at := coalesce created (created_at t);
          total_bytes := total_bytes t; file_count := file_count t |}
     else t) <$> ts
  else ts ++ [{| name := n; volume_uuid := uuid; barcode := bc; created_at := created;
                 total_bytes := 0; file_count := 0 |}].

Definition has_file (fs : list FileRecord) (t p : str) : bool :=
  bool_decide (Exists (fun f => tape_name f = t /\ path f = p) fs).

(** [INSERT INTO files ... ON CONFLICT(tape_name, path) DO UPDATE SET size,
    mtime, xxhash, archived_at]: the row to write is [r]; a conflicting row
    keeps its [id].  The statement takes an id from the [AUTOINCREMENT]
    counter before the conflict is seen, so the counter moves either way. *)
Definition upsert_file (db : DB) (r : FileRecord) : DB :=
  if has_file (files db) (tape_name r) (path r) then
    {| tapes := tapes db;
       files := (fun f => if decide (tape_name f = tape_name r /\ path f = path r) then
                   {| id := id f; tape_name := tape_name f; path := path f;
                      size := size r; mtime := mtime r; xxhash := xxhash r;
                      archived_at := archived_at r |}
                 else f) <$> files db;
       next_id := next_id db + 1 |}
  else
    {| tapes := tapes db;
       files := files db ++ [{| id := next_id db; tape_name := tape_name r;
                                path := path r; size := size r; mtime := mtime r;
                                xxhash := xxhash r; archived_at := archived_at r |}];
       next_id := next_id db + 1 |}.

(** [UPDATE tapes SET file_count = (SELECT COUNT ...), total_bytes =
    (SELECT COALESCE(SUM(size), 0) ...) WHERE name = ?] *)
Definition update_tape_stats (db : DB) (t : str) : DB :=
  {| tapes := (fun r => if decide (name r = t) then
                 {| name := name r; volume_uuid := volume_uuid r; barcode := barcode r;
                    created_at := created_at r;
                    total_bytes := sum_sizes (files db) t;
                    file_count := count_files (files db) t |}
               else r) <$> tapes db;
     files := files db;
     next_id := next_id db |}.

(** The order of [ORDER BY] on text columns: code point by code point. *)
Fixpoint str_leb (a b : str) : bool :=
  match a, b with
  | [], _ => true
  | _ :: _, [] => false
  | x :: a', y :: b' => (x <? y)%N || ((x =? y)%N && str_leb a' b')
  end.

(** [ORDER BY tape_name, path] *)
Definition row_leb (r1 r2 : FileRecord) : bool :=
  if decide (tape_name r1 = tape_name r2) then str_leb (path r1) (path r2)
  else str_leb (tape_name r1) (tape_name r2).

Section Catalog.

(** [utils.normalize_path]: Unicode NFC normalisation. *)
Variable normalize_path : str -> str.

(** What the driver answers to the [INSERT] of one file row: [None] when the
    statement runs, [Some e] when [cursor.execute] raises [e]. *)
Variable execute_fault : FileRecord -> option exn.

(** [datetime.fromisoformat] *)
Variable fromisoformat : str -> Result datetime.

(** [add_tape(name, volume_uuid, barcode, created_at)] *)
Definition add_tape (db : DB) (n : str) (uuid bc : option str)
    (created : option datetime) : Result DB :=
  let created_str := isoformat <$> created in
  Ok {| tapes := upsert_tape (tapes db) n uuid bc created_str;
        files := files db; next_id := next_id db |}.

(** Binding the parameters of one [INSERT] and running it. *)
Definition execute_insert (db : DB) (r : FileRecord) : Result DB :=
  if negb (int64 (size r)) then Raise OverflowError
  else match execute_fault r with
       | Some e => Raise e
       | None => Ok (upsert_file db r)
       end.

(** The loop of [add_files] over the tuples: a [sqlite3.Error] skips the
    row, any other exception leaves the loop (and the transaction).  The
    state is the database, [added] and the local [total_bytes]. *)
Fixpoint add_files_loop (db : DB) (t : str) (archived_str : str)
    (fs : list FileTuple) (added total : Z) : Result (DB * Z * Z) :=
  match fs with
  | [] => Ok (db, added, total)
  | (p, sz, mt, h) :: fs' =>
      let mtime_str := isoformat <$> mt in
      let normalized_path := normalize_path p in
      let r := {| id := 0; tape_name := t; path := normalized_path; size := sz;
                  mtime := mtime_str; xxhash := h; archived_at := Some archived_str |} in
      match execute_insert db r with
      | Ok db' => add_files_loop db' t archived_str fs' (added + 1) (total + sz)
      | Raise e =>
          if is_sqlite_Error e then add_files_loop db t archived_str fs' added total
          else Raise e
      end
  end.

(** [add_files(tape_name, files, archived_at)] at clock reading [now].  The
    result is the committed database and the number of rows added;
    [Raise] means the transaction was rolled back, so the database is the
    one before the call. *)
Definition add_files (db : DB) (t : str) (fs : list FileTuple)
    (archived : option datetime) (now : datetime) : Result (DB * Z) :=
  match fs with
  | [] => Ok (db, 0)
  | _ =>
      let archived_str := isoformat (default now archived) in
      let db1 := {| tapes := insert_or_ignore_tape (tapes db) t;
                    files := files db; next_id := next_id db |} in
      '(db2, added, _) ← add_files_loop db1 t archived_str fs 0 0;
      if negb (sum_fits (files db2) t)
      then Raise (SqliteError (lit "integer overflow"))
      else Ok (update_tape_stats db2 t, added)
  end.

(** [delete_tape(tape_name)]: the database after it and whether a tape row
    was deleted. *)
Definition delete_tape (db : DB) (t : str) : Result (DB * bool) :=
  let fs := filter (fun f => tape_name f <> t) (files db) in
  let ts := filter (fun r => name r <> t) (tapes db) in
  let rowcount := length (filter (fun r => name r = t) (tapes db)) in
  Ok ({| tapes := ts; files := fs; next_id := next_id db |}, bool_decide (0 < rowcount)%nat).

(** The conversion of a selected row into a [SearchResult]: an [mtime] that
    [fromisoformat] rejects is dropped. *)
Definition to_search_result (f : FileRecord) : SearchResult :=
  {| sr_tape_name := tape_name f;
     sr_path := path f;
     sr_size := size f;
     sr_mtime := match mtime f with
                 | Some s => if bool_decide (s = []) then None
                             else match fromisoformat s with
                                  | Ok d => Some d
                                  | Raise _ => None
                                  end
                 | None => None
                 end;
     sr_xxhash := xxhash f |}.

(** [find_by_hash(xxhash)]: [SELECT ... FROM files WHERE xxhash = ? ORDER BY
    tape_name, path]. *)
Definition find_by_hash (db : DB) (h : str) : list SearchResult :=
  to_search_result <$>
    merge_sort (fun r1 r2 => Is_true (row_leb r1 r2))
      (filter (fun f => xxhash f = Some h) (files db)).

(** The catalog update that ends a job (phase 5b of [transfer], [recover]
    and [finalize]): [db.add_tape(name=tape_name)] then
    [db.add_files(tape_name, db_files, archived_at=now)].  An exception of
    either call leaves the database as the last commit left it. *)
Definition job_update (db : DB) (t : str) (fs : list FileTuple) (now : datetime)
  : DB * option exn :=
  match add_tape db t None None None with
  | Raise e => (db, Some e)
  | Ok db1 =>
      match add_files db1 t fs (Some now) now with
      | Raise e => (db1, Some e)
      | Ok (db2, _) => (db2, None)
      end
  end.

(** The calls that write to the catalog. *)
Inductive op : Type :=
| AddTape (n : str) (uuid bc : option str) (created : option datetime)
| AddFiles (t : str) (fs : list FileTuple) (archived : option datetime) (now : datetime)
| DeleteTape (t : str)
| JobUpdate (t : str) (fs : list FileTuple) (now : datetime).

(** The database after one call; a call that raises commits nothing. *)
Definition step (db : DB) (o : op) : DB :=
  match o with
  | AddTape n uuid bc created =>
      match add_tape db n uuid bc created with Ok db' => db' | Raise _ => db end
  | AddFiles t fs archived now =>
      match add_files db t fs archived now with Ok (db', _) => db' | Raise _ => db end
  | DeleteTape t =>
      match delete_tape db t with Ok (db', _) => db' | Raise _ => db end
  | JobUpdate t fs now => (job_update db t fs now).1
  end.

Definition run (ops : list op) : DB := foldl step empty_db ops.

End Catalog.

(** The aggregates stored for every volume are those of its file rows. *)
Definition aggregates_ok (db : DB) : Prop :=
  forall t, t ∈ tapes db ->
    file_count t = count_files (files db) (name t) /\
    total_bytes t = sum_sizes (files db) (name t).

(** Every file row belongs to a volume of the [tapes] table. *)
Definition no_orphans (db : DB) : Prop :=
  forall f, f ∈ files db -> exists t, t ∈ tapes db /\ name t = tape_name f.

Definition consistent (db : DB) : Prop := aggregates_ok db /\ no_orphans db.

(** *** The aggregates are recomputed whenever the rows of a volume change *)

Lemma has_tape_spec ts n : has_tape ts n = true <-> exists t, t ∈ ts /\ name t = n.
Proof.
  unfold has_tape. rewrite bool_decide_eq_true, Exists_exists. done.
Qed.

Lemma has_tape_false ts n t : has_tape ts n = false -> t ∈ ts -> name t <> n.
Proof.
  intros Hf Ht Hn. assert (has_tape ts n = true) as E; [|congruence].
  apply has_tape_spec. eauto.
Qed.

(** The rows of volume [t]. *)
Definition rows_of (fs : list FileRecord) (t : str) : list FileRecord :=
  filter (fun f => tape_name f = t) fs.

Lemma rows_of_fmap_other (g : FileRecord -> FileRecord) (P : FileRecord -> Prop)
    `{forall f, Decision (P f)} fs t :
  (forall f, tape_name (g f) = tape_name f) ->
  (forall f, P f -> tape_name f <> t) ->
  rows_of ((fun f => if decide (P f) then g f else f) <$> fs) t = rows_of fs t.
Proof.
  intros Hg HP. unfold rows_of. induction fs as [|f fs IH]; [done|].
  rewrite fmap_cons, !filter_cons, IH.
  destruct (decide (P f)) as [Hp|Hp]; [|done].
  rewrite Hg. specialize (HP f Hp).
  destruct (decide (tape_name f = t)); done.
Qed.

Lemma upsert_file_tapes db r : tapes (upsert_file db r) = tapes db.
Proof. unfold upsert_file. by destruct (has_file _ _ _). Qed.

Lemma upsert_file_rows_other db r t :
  tape_name r <> t -> rows_of (files (upsert_file db r)) t = rows_of (files db) t.
Proof.
  intros Hne. unfold upsert_file. destruct (has_file _ _ _); simpl.
  - apply rows_of_fmap_other; [done|]. intros f [-> _]. done.
  - unfold rows_of. rewrite filter_app, filter_cons, filter_nil. simpl.
    destruct (decide (tape_name r = t)); [done|]. by rewrite app_nil_r.
Qed.

Lemma upsert_file_tape_names db r f :
  f ∈ files (upsert_file db r) ->
  tape_name f = tape_name r \/ exists f0, f0 ∈ files db /\ tape_name f0 = tape_name f.
Proof.
  unfold upsert_file. destruct (has_file _ _ _); simpl.
  - intros (f0 & -> & Hin)%list_elem_of_fmap. right. exists f0. split; [done|].
    by destruct (decide _).
  - intros [Hin | ->%list_elem_of_singleton]%elem_of_app; [right|left]; eauto.
Qed.

Section Preservation.
Variable normalize_path : str -> str.
Variable execute_fault : FileRecord -> option exn.

Lemma add_files_loop_spec fs : forall db t a added total db' added' total',
  add_files_loop normalize_path execute_fault db t a fs added total
    = Ok (db', added', total') ->
  tapes db' = tapes db /\
  (forall t', t <> t' -> rows_of (files db') t' = rows_of (files db) t') /\
  (forall f, f ∈ files db' ->
     tape_name f = t \/ exists f0, f0 ∈ files db /\ tape_name f0 = tape_name f).
Proof.
  induction fs as [|[[[p sz] mt] h] fs IH]; intros db t a added total db' added' total'.
  - simpl. intros [= <- _ _]. split_and!; [done|done|]. intros f Hf. right. eauto.
  - simpl. unfold execute_insert. simpl.
    destruct (negb (int64 sz)); simpl.
    { intros Hl. discriminate. }
    destruct (execute_fault _) as [e|] eqn:Ef; simpl.
    { destruct (is_sqlite_Error e); [apply IH | discriminate]. }
    intros Hl. apply IH in Hl as (Ht & Hr & Hn).
    split_and!.
    + by rewrite Ht, upsert_file_tapes.
    + intros t' Hne. rewrite Hr by done. by apply upsert_file_rows_other.
    + intros f Hf. destruct (Hn f Hf) as [?|(f0 & Hf0 & E)]; [by left|].
      apply upsert_file_tape_names in Hf0 as [E0|(f1 & Hf1 & E1)].
      * left. by rewrite <- E, E0.
      * right. exists f1. split; [done|]. congruence.
Qed.

Lemma count_files_rows fs t : count_files fs t = Z.of_nat (length (rows_of fs t)).
Proof. done. Qed.

Lemma sum_sizes_rows fs t : sum_sizes fs t = foldr Z.add 0 (size <$> rows_of fs t).
Proof. done. Qed.

Lemma elem_of_insert_or_ignore ts n t :
  t ∈ insert_or_ignore_tape ts n ->
  t ∈ ts \/ (name t = n /\ file_count t = 0 /\ total_bytes t = 0 /\ has_tape ts n = false).
Proof.
  unfold insert_or_ignore_tape. destruct (has_tape ts n) eqn:E; [by left|].
  intros [?| ->%list_elem_of_singleton]%elem_of_app; [by left|by right].
Qed.

Lemma insert_or_ignore_has ts n : has_tape (insert_or_ignore_tape ts n) n = true.
Proof.
  unfold insert_or_ignore_tape. destruct (has_tape ts n) eqn:E; [done|].
  apply has_tape_spec. eexists. split; [apply elem_of_app; right; by apply list_elem_of_singleton|done].
Qed.

Lemma insert_or_ignore_mono ts n t : t ∈ ts -> t ∈ insert_or_ignore_tape ts n.
Proof.
  unfold insert_or_ignore_tape. destruct (has_tape ts n); [done|].
  intros. apply elem_of_app. by left.
Qed.

(** A volume without a row in [tapes] has no file rows. *)
Lemma no_orphans_rows_nil db n :
  no_orphans db -> has_tape (tapes db) n = false -> rows_of (files db) n = [].
Proof.
  intros Hno Hn. unfold rows_of.
  destruct (filter _ _) as [|f l] eqn:E; [done|]. exfalso.
  assert (f ∈ filter (fun f => tape_name f = n) (files db)) as [Ef Hf]%list_elem_of_filter.
  { rewrite E. apply list_elem_of_here. }
  destruct (Hno f Hf) as (t & Ht & Et).
  eapply has_tape_false in Hn; [|done]. congruence.
Qed.

Lemma add_files_consistent db t fs archived now db' added :
  consistent db ->
  add_files normalize_path execute_fault db t fs archived now = Ok (db', added) ->
  consistent db'.
Proof.
  intros [Hagg Hno]. unfold add_files.
  destruct fs as [|x fs]; [by intros [= <- _]|].
  set (db1 := {| tapes := insert_or_ignore_tape (tapes db) t |}).
  destruct (add_files_loop _ _ db1 t _ _ 0 0) as [[[db2 a2] t2]|e] eqn:El; [|done].
  simpl. destruct (negb _); [done|]. intros [= <- _].
  apply add_files_loop_spec in El as (Ht & Hr & Hn). simpl in *.
  split.
  - intros r (r0 & -> & Hr0)%list_elem_of_fmap. simpl.
    destruct (decide (name r0 = t)) as [E|E]; simpl.
    + by rewrite E.
    + rewrite !count_files_rows, !sum_sizes_rows, Hr by done.
      rewrite Ht in Hr0. apply elem_of_insert_or_ignore in Hr0 as [Hin|(? & ? & ? & ?)]; [|done].
      apply Hagg. done.
  - intros f Hf. simpl in Hf.
    assert (exists r, r ∈ tapes db2 /\ name r = tape_name f) as (r & Hin & E).
    { rewrite Ht. destruct (Hn f Hf) as [->|(f0 & Hf0 & E0)].
      - apply has_tape_spec, insert_or_ignore_has.
      - destruct (Hno f0 Hf0) as (r & ? & ?). exists r.
        split; [by apply insert_or_ignore_mono | congruence]. }
    eexists. split; [apply list_elem_of_fmap; eexists; split; [reflexivity|exact Hin]|].
    by destruct (decide _).
Qed.

Lemma add_tape_consistent db n uuid bc created db' :
  consistent db -> add_tape db n uuid bc created = Ok db' -> consistent db'.
Proof.
  intros [Hagg Hno] [= <-]. unfold upsert_tape. split.
  - intros r. simpl. destruct (has_tape (tapes db) n) eqn:E.
    + intros (r0 & -> & Hr0)%list_elem_of_fmap.
      destruct (decide _); simpl; by apply Hagg.
    + intros [?| ->%list_elem_of_singleton]%elem_of_app; [by apply Hagg|]. simpl.
      rewrite count_files_rows, sum_sizes_rows, no_orphans_rows_nil by done. done.
  - intros f Hf. destruct (Hno f Hf) as (r & Hr & E). simpl.
    destruct (has_tape (tapes db) n).
    + eexists. split; [apply list_elem_of_fmap; eexists; split; [reflexivity|exact Hr]|].
      by destruct (decide _).
    + exists r. split; [|done]. apply elem_of_app. by left.
Qed.

Lemma rows_of_filter_other fs t t' :
  t' <> t -> rows_of (filter (fun f => tape_name f <> t) fs) t' = rows_of fs t'.
Proof.
  intros Hne. unfold rows_of. induction fs as [|f fs IH]; [done|].
  rewrite !filter_cons. destruct (decide (tape_name f <> t)) as [E|E].
  - rewrite filter_cons, IH. done.
  - rewrite IH. destruct (decide (tape_name f = t')); [|done].
    exfalso. apply E. congruence.
Qed.

Lemma delete_tape_consistent db t db' b :
  consistent db -> delete_tape db t = Ok (db', b) -> consistent db'.
Proof.
  intros [Hagg Hno] [= <- _]. split.
  - intros r [Hne Hr]%list_elem_of_filter. simpl.
    rewrite !count_files_rows, !sum_sizes_rows, rows_of_filter_other by done.
    by apply Hagg.
  - intros f [Hne Hf]%list_elem_of_filter. simpl.
    destruct (Hno f Hf) as (r & Hr & E). exists r. split; [|done].
    apply list_elem_of_filter. split; [congruence|done].
Qed.

Lemma step_consistent db o :
  consistent db -> consistent (step normalize_path execute_fault db o).
Proof.
  intros Hc. destruct o as [n uuid bc created|t fs archived now|t|t fs now]; simpl.
  - eapply add_tape_consistent; done.
  - destruct (add_files _ _ _ _ _ _ _) as [[db' a]|e] eqn:E; [|done].
    eapply add_files_consistent; done.
  - eapply delete_tape_consistent; done.
  - unfold job_update. simpl.
    destruct (add_files _ _ _ _ _ _ _) as [[db' a]|e] eqn:E; simpl.
    + eapply add_files_consistent; [|done].
      by apply (add_tape_consistent db t None None None).
    + by apply (add_tape_consistent db t None None None).
Qed.

Lemma empty_db_consistent : consistent empty_db.
Proof. split; intros x Hx; by apply elem_of_nil in Hx. Qed.

Lemma run_consistent ops : consistent (run normalize_path execute_fault ops).
Proof.
  unfold run. generalize empty_db_consistent. generalize empty_db.
  induction ops as [|o ops IH]; intros db Hc; [done|].
  simpl. apply IH. by apply step_consistent.
Qed.

(** C1.  After any sequence of catalog writes -- the update that ends a
    transfer, recover or finalize job ([JobUpdate]), direct [add_tape] and
    [add_files] calls, and whole-volume deletions -- every row [t] of the
    [tapes] table stores the aggregates of its file rows: [file_count] is
    their number and [total_bytes] the sum of their sizes.  This holds
    whatever [normalize_path] does to paths and whichever statements the
    driver refuses. *)
Theorem aggregates_after_jobs (ops : list op) (t : TapeRecord) :
  t ∈ tapes (run normalize_path execute_fault ops) ->
  file_count t
    = Z.of_nat (length (filter (fun f => tape_name f = name t)
                          (files (run normalize_path execute_fault ops)))) /\
  total_bytes t
    = foldr Z.add 0 (size <$> filter (fun f => tape_name f = name t)
                                (files (run normalize_path execute_fault ops))).
Proof.
  intros Ht. destruct (run_consistent ops) as [Hagg _]. exact (Hagg t Ht).
Qed.

End Preservation.

(** A run on concrete data: two jobs on volume [TAPE01] (the second one
    replaces a file and adds another), a job on [TAPE02] and the deletion
    of [TAPE02]; paths are ASCII, where NFC changes nothing, and the driver
    refuses nothing. *)
Definition demo_now : datetime :=
  {| year := 2025; month := 1; day := 2; hour := 3; minute := 4; second := 5;
     microsecond := 0; tz := UTC |}.

Definition demo_ops : list op :=
  [ JobUpdate (lit "TAPE01")
      [ (lit "a/x.bin", 1024, None, Some (lit "aaaa"));
        (lit "b/u.bin", 2048, None, Some (lit "bbbb")) ] demo_now;
    JobUpdate (lit "TAPE02") [ (lit "c.bin", 7, None, Some (lit "cccc")) ] demo_now;
    JobUpdate (lit "TAPE01")
      [ (lit "a/x.bin", 1000, None, Some (lit "dddd"));
        (lit "d.bin", 10, None, None) ] demo_now;
    DeleteTape (lit "TAPE02") ].

Definition demo_db : DB := run (fun p => p) (fun _ => None) demo_ops.

Definition demo_tape : TapeRecord :=
  {| name := lit "TAPE01"; volume_uuid := None; barcode := None; created_at := None;
     total_bytes := 3058; file_count := 3 |}.

Example demo_db_tapes : tapes demo_db = [demo_tape].
Proof. vm_compute. reflexivity. Qed.

Example demo_db_sizes : size <$> files demo_db = [1000; 2048; 10].
Proof. vm_compute. reflexivity. Qed.

Lemma aggregates_after_jobs_witness :
  demo_tape ∈ tapes (run (fun p => p) (fun _ => None) demo_ops) /\
  (file_count demo_tape
     = Z.of_nat (length (filter (fun f => tape_name f = name demo_tape)
                           (files (run (fun p => p) (fun _ => None) demo_ops)))) /\
   total_bytes demo_tape
     = foldr Z.add 0 (size <$> filter (fun f => tape_name f = name demo_tape)
                                 (files (run (fun p => p) (fun _ => None) demo_ops)))).
Proof.
  assert (demo_tape ∈ tapes (run (fun p => p) (fun _ => None) demo_ops)) as Hin.
  { vm_compute. apply list_elem_of_here. }
  split; [exact Hin|].
  exact (aggregates_after_jobs (fun p => p) (fun _ => None) demo_ops demo_tape Hin).
Defined.

(** A statement refused with a [sqlite3.Error] skips its row only; any other
    exception rolls the whole transaction back. *)
Example add_files_skips_refused_row :
  (fun r => (tapes r.1, size <$> files r.1, r.2)) <$>
    add_files (fun p => p)
      (fun r => if decide (path r = lit "bad") then Some (SqliteError []) else None)
      empty_db (lit "T")
      [ (lit "ok", 5, None, None); (lit "bad", 6, None, None) ] None demo_now
  = Ok ([{| name := lit "T"; volume_uuid := None; barcode := None; created_at := None;
            total_bytes := 5; file_count := 1 |}], [5], 1).
Proof. vm_compute. reflexivity. Qed.

Example add_files_rolls_back :
  add_files (fun p => p) (fun _ => None) empty_db (lit "T")
    [ (lit "ok", 5, None, None); (lit "huge", 2 ^ 63, None, None) ] None demo_now
  = Raise OverflowError.
Proof. vm_compute. reflexivity. Qed.


(** ** catalog_db.py: keys, deletion and the lookup by digest *)

(** The key of a file row: [UNIQUE(tape_name, path)]. *)
Definition file_key (f : FileRecord) : str * str := (tape_name f, path f).

(** The three uniqueness constraints of the schema: [PRIMARY KEY] on
    [tapes.name], [UNIQUE(tape_name, path)] and [PRIMARY KEY] on
    [files.id], the ids being below the [AUTOINCREMENT] counter. *)
Definition keys_unique (db : DB) : Prop :=
  NoDup (name <$> tapes db)
  /\ NoDup (file_key <$> files db)
  /\ NoDup (id <$> files db)
  /\ Forall (fun f => id f < next_id db) (files db).

Lemma has_file_spec fs t p :
  has_file fs t p = true <-> (t, p) ∈ file_key <$> fs.
Proof.
  unfold has_file. rewrite bool_decide_eq_true, Exists_exists, list_elem_of_fmap.
  split.
  - intros (f & Hf & <- & <-). by exists f.
  - intros (f & [= -> ->] & Hf). by exists f.
Qed.

Lemma fmap_update_same {A B} (g : A -> B) (u : A -> A) (P : A -> Prop)
    `{forall x, Decision (P x)} (l : list A) :
  (forall x, g (u x) = g x) ->
  g <$> ((fun x => if decide (P x) then u x else x) <$> l) = g <$> l.
Proof.
  intros Hg. rewrite <- list_fmap_compose. apply list_fmap_ext.
  intros i x _. simpl. by destruct (decide (P x)).
Qed.

Lemma NoDup_snoc_fresh {A} (l : list A) (x : A) : NoDup l -> x ∉ l -> NoDup (l ++ [x]).
Proof.
  intros Hl Hx. apply NoDup_app. split_and!; [done| |apply NoDup_singleton].
  by intros y Hy ->%list_elem_of_singleton.
Qed.

Lemma upsert_file_keys_unique db r : keys_unique db -> keys_unique (upsert_file db r).
Proof.
  intros (Ht & Hk & Hi & Hlt). unfold upsert_file, keys_unique.
  destruct (has_file (files db) (tape_name r) (path r)) eqn:E; cbn [tapes files next_id].
  - rewrite !fmap_update_same by done. split_and!; [done..|].
    apply Forall_fmap. eapply Forall_impl; [exact Hlt|].
    intros f Hf. simpl in Hf. simpl. destruct (decide _); simpl; lia.
  - rewrite !fmap_app. cbn [fmap list_fmap].
    split_and!; [done| | |].
    + apply NoDup_snoc_fresh; [done|]. intros Hin.
      apply (proj2 (has_file_spec (files db) (tape_name r) (path r))) in Hin.
      congruence.
    + apply NoDup_snoc_fresh; [done|].
      intros (f & E' & Hf)%list_elem_of_fmap. cbn [id] in E'.
      rewrite Forall_forall in Hlt. specialize (Hlt f Hf). lia.
    + apply Forall_app. split.
      * eapply Forall_impl; [exact Hlt|]. intros f Hf. simpl in *. lia.
      * apply Forall_singleton. simpl. lia.
Qed.

Lemma upsert_tape_names_unique ts n uuid bc created :
  NoDup (name <$> ts) -> NoDup (name <$> upsert_tape ts n uuid bc created).
Proof.
  intros Hts. unfold upsert_tape. destruct (has_tape ts n) eqn:E.
  - by rewrite fmap_update_same.
  - rewrite fmap_app. apply NoDup_snoc_fresh; [done|].
    intros (t & E' & Ht)%list_elem_of_fmap. simpl in E'.
    eapply has_tape_false in E; [|done]. congruence.
Qed.

Lemma insert_or_ignore_names_unique ts n :
  NoDup (name <$> ts) -> NoDup (name <$> insert_or_ignore_tape ts n).
Proof.
  intros Hts. unfold insert_or_ignore_tape. destruct (has_tape ts n) eqn:E; [done|].
  rewrite fmap_app. apply NoDup_snoc_fresh; [done|].
  intros (t & E' & Ht)%list_elem_of_fmap. simpl in E'.
  eapply has_tape_false in E; [|done]. congruence.
Qed.

Lemma NoDup_fmap_filter_rows {A B} (g : A -> B) (P : A -> Prop)
    `{!forall x, Decision (P x)} (l : list A) :
  NoDup (g <$> l) -> NoDup (g <$> filter P l).
Proof.
  induction l as [|x l IH]; [done|].
  rewrite fmap_cons, NoDup_cons, filter_cons. intros [Hx Hl].
  destruct (decide (P x)); [|auto].
  rewrite fmap_cons, NoDup_cons. split; [|auto].
  intros (y & E & [_ Hy]%list_elem_of_filter)%list_elem_of_fmap.
  apply Hx. rewrite E. by apply list_elem_of_fmap_2.
Qed.

Section Keys.
Variable normalize_path : str -> str.
Variable execute_fault : FileRecord -> option exn.

Lemma add_files_loop_keys_unique fs : forall db t a added total db' added' total',
  keys_unique db ->
  add_files_loop normalize_path execute_fault db t a fs added total
    = Ok (db', added', total') ->
  keys_unique db'.
Proof.
  induction fs as [|[[[p sz] mt] h] fs IH]; intros db t a added total db' added' total' Hk.
  - cbn [add_files_loop]. by intros [= <- _ _].
  - cbn [add_files_loop]. unfold execute_insert. cbn [size].
    destruct (negb (int64 sz)); cbn [is_sqlite_Error]; [done|].
    destruct (execute_fault _) as [e|].
    + destruct (is_sqlite_Error e); [by apply IH|done].
    + apply IH. by apply upsert_file_keys_unique.
Qed.

Lemma step_keys_unique db o :
  keys_unique db -> keys_unique (step normalize_path execute_fault db o).
Proof.
  assert (Hadd_tape : forall db n uuid bc created,
            keys_unique db ->
            keys_unique {| tapes := upsert_tape (tapes db) n uuid bc created;
                           files := files db; next_id := next_id db |}).
  { intros db0 n uuid bc created (Ht & Hr). split; [|done].
    by apply upsert_tape_names_unique. }
  assert (Hadd_files : forall db t fs archived now db' added,
            keys_unique db ->
            add_files normalize_path execute_fault db t fs archived now = Ok (db', added) ->
            keys_unique db').
  { intros db0 t fs archived now db' added Hk. unfold add_files.
    destruct fs as [|x fs]; [by intros [= <- _]|].
    destruct (add_files_loop _ _ _ t _ _ 0 0) as [[[db2 a2] t2]|e] eqn:El; [|done].
    cbn [mbind Result_bind]. destruct (negb _); [done|]. intros [= <- _].
    apply add_files_loop_keys_unique in El as (Ht & Hr).
    - split; [|done]. unfold update_tape_stats. cbn [tapes].
      by rewrite fmap_update_same.
    - destruct Hk as (Ht & Hr). split; [|done].
      by apply insert_or_ignore_names_unique. }
  intros Hk. destruct o as [n uuid bc created|t fs archived now|t|t fs now];
    cbn [step].
  - unfold add_tape. by apply Hadd_tape.
  - destruct (add_files _ _ _ _ _ _ _) as [[db' a]|e] eqn:E; [|done].
    by eapply Hadd_files.
  - unfold delete_tape. cbn [fst]. destruct Hk as (Ht & Hf & Hi & Hlt).
    split_and!; cbn [tapes files next_id].
    + by apply NoDup_fmap_filter_rows.
    + by apply NoDup_fmap_filter_rows.
    + by apply NoDup_fmap_filter_rows.
    + apply Forall_forall. intros f [_ Hin]%list_elem_of_filter.
      rewrite Forall_forall in Hlt. by apply Hlt.
  - unfold job_update, add_tape.
    destruct (add_files _ _ _ _ _ _ _) as [[db' a]|e] eqn:E; cbn [fst].
    + eapply Hadd_files; [|done]. by apply Hadd_tape.
    + by apply Hadd_tape.
Qed.

(** X6.  Whatever sequence of [add_tape], [add_files], [delete_tape] and
    job updates is run on a new database, with statements refused and
    transactions rolled back along the way, the tables never hold two
    tapes of one name, two file rows of one [(tape_name, path)], or two
    file rows of one [id]: a later write to the same tape and path updates
    the row that is there. *)
Theorem catalog_keys_unique (ops : list op) :
  NoDup (name <$> tapes (run normalize_path execute_fault ops))
  /\ NoDup (file_key <$> files (run normalize_path execute_fault ops))
  /\ NoDup (id <$> files (run normalize_path execute_fault ops)).
Proof.
  assert (Hk : keys_unique (run normalize_path execute_fault ops)).
  { unfold run.
    assert (Hg : forall db, keys_unique db ->
                   keys_unique (foldl (step normalize_path execute_fault) db ops)).
    { induction ops as [|o ops IH]; intros db Hdb; [done|].
      cbn [foldl]. by apply IH, step_keys_unique. }
    apply Hg. unfold keys_unique, empty_db. cbn.
    split_and!; constructor. }
  destruct Hk as (? & ? & ? & _). done.
Qed.

End Keys.


(** The order of [ORDER BY tape_name, path] on search results. *)
Definition result_leb (a b : SearchResult) : bool :=
  if decide (sr_tape_name a = sr_tape_name b) then str_leb (sr_path a) (sr_path b)
  else str_leb (sr_tape_name a) (sr_tape_name b).

Lemma str_leb_total a b : str_leb a b = true \/ str_leb b a = true.
Proof.
  revert b. induction a as [|x a IH]; intros [|y b]; cbn [str_leb]; auto.
  destruct (N.compare_spec x y) as [->|Hlt|Hgt].
  - rewrite !N.eqb_refl, !N.ltb_irrefl. cbn [orb andb]. apply IH.
  - left. apply N.ltb_lt in Hlt. by rewrite Hlt.
  - right. apply N.ltb_lt in Hgt. by rewrite Hgt.
Qed.

#[local] Instance row_leb_total : Total (fun r1 r2 => Is_true (row_leb r1 r2)).
Proof.
  intros r1 r2. unfold row_leb.
  destruct (decide (tape_name r1 = tape_name r2)) as [E|Hne].
  - rewrite decide_True by done.
    destruct (str_leb_total (path r1) (path r2)) as [->| ->]; [by left|by right].
  - rewrite decide_False by done.
    destruct (str_leb_total (tape_name r1) (tape_name r2)) as [->| ->]; [by left|by right].
Qed.

Section Lookup.
Variable normalize_path : str -> str.
Variable execute_fault : FileRecord -> option exn.
Variable fromisoformat : str -> Result datetime.

(** X8.  [find_by_hash] returns the file rows that have the digest, each
    once and as its [SearchResult] (the tape name, path, size and digest
    of the row, the modification time that [fromisoformat] reads), and no
    other result: its answer is a rearrangement of the matching rows of the
    table, ordered by tape name and then by path. *)
Theorem find_by_hash_sorted (db : DB) (h : str) :
  find_by_hash fromisoformat db h
    ≡ₚ to_search_result fromisoformat <$> filter (fun f => xxhash f = Some h) (files db)
  /\ Sorted (fun a b => Is_true (result_leb a b)) (find_by_hash fromisoformat db h)
  /\ (forall r, r ∈ find_by_hash fromisoformat db h <->
         exists f, f ∈ files db /\ xxhash f = Some h
                   /\ r = to_search_result fromisoformat f)
  /\ Forall (fun r => sr_xxhash r = Some h) (find_by_hash fromisoformat db h).
Proof.
  unfold find_by_hash. split_and!.
  - by rewrite merge_sort_Permutation.
  - eapply Sorted_fmap; [|apply (Sorted_merge_sort _)].
    by intros r1 r2.
  - intros r. rewrite list_elem_of_fmap. split.
    + intros (f & -> & Hf). rewrite merge_sort_Permutation in Hf.
      apply list_elem_of_filter in Hf as [Hh Hf]. by exists f.
    + intros (f & Hf & Hh & ->). exists f. split; [done|].
      rewrite merge_sort_Permutation. by apply list_elem_of_filter.
  - apply Forall_fmap, Forall_forall. intros f Hf.
    rewrite merge_sort_Permutation in Hf.
    by apply list_elem_of_filter in Hf as [Hf _].
Qed.

(** The file row that [add_files] writes for a tuple. *)
Definition row_for (t : str) (archived_str : str) (x : FileTuple) : FileRecord :=
  {| id := 0; tape_name := t; path := normalize_path x.1.1.1; size := x.1.1.2;
     mtime := isoformat <$> x.1.2; xxhash := x.2; archived_at := Some archived_str |}.

(** A row of the table carries the values of [r] under [r]'s key. *)
Definition holds (db : DB) (r : FileRecord) : Prop :=
  exists f, f ∈ files db /\ file_key f = file_key r /\ size f = size r
            /\ mtime f = mtime r /\ xxhash f = xxhash r /\ archived_at f = archived_at r.

Lemma upsert_file_holds db r : holds (upsert_file db r) r.
Proof.
  unfold upsert_file, holds.
  destruct (has_file (files db) (tape_name r) (path r)) eqn:E; cbn [files].
  - apply has_file_spec in E as (f & Ek & Hf)%list_elem_of_fmap.
    injection Ek as Et Ep.
    eexists. split.
    + apply list_elem_of_fmap. exists f. split; [reflexivity|done].
    + rewrite decide_True by done. unfold file_key. cbn. by rewrite <- Et, <- Ep.
  - eexists. split; [apply elem_of_app; right; apply list_elem_of_here|done].
Qed.

Lemma upsert_file_holds_other db r r' :
  file_key r' <> file_key r -> holds db r -> holds (upsert_file db r') r.
Proof.
  intros Hne (f & Hf & Ek & Hv). unfold upsert_file, holds.
  destruct (has_file (files db) (tape_name r') (path r')); cbn [files].
  - exists f. split; [|done].
    apply list_elem_of_fmap. exists f. split; [|done].
    rewrite decide_False; [done|]. intros [Et Ep]. apply Hne.
    rewrite <- Ek. unfold file_key. by rewrite Et, Ep.
  - exists f. split; [|done]. apply elem_of_app. by left.
Qed.

Lemma add_files_loop_no_fault fs : forall db t a added total db' added' total',
  (forall r, execute_fault r = None) ->
  add_files_loop normalize_path execute_fault db t a fs added total
    = Ok (db', added', total') ->
  added' = added + Z.of_nat (length fs)
  /\ (forall r, holds db r -> Forall (fun x => file_key (row_for t a x) <> file_key r) fs ->
        holds db' r)
  /\ (forall fs1 x fs2, fs = fs1 ++ x :: fs2 ->
        Forall (fun y => file_key (row_for t a y) <> file_key (row_for t a x)) fs2 ->
        holds db' (row_for t a x)).
Proof.
  intros db t a added total db' added' total' Hnf. revert db added total.
  induction fs as [|[[[p sz] mt] h] fs IH]; intros db added total.
  - cbn [add_files_loop]. intros [= <- <- _]. split_and!.
    + simpl. lia.
    + done.
    + intros [|??] ??; discriminate.
  - cbn [add_files_loop]. unfold execute_insert. cbn [size].
    destruct (negb (int64 sz)); cbn [is_sqlite_Error]; [done|].
    rewrite Hnf. intros Hl. apply IH in Hl as (Ha & Hkeep & Hlast).
    split_and!.
    + rewrite Ha. cbn [length]. lia.
    + intros r Hr [Hx Hfs]%Forall_cons. apply Hkeep; [|done].
      by apply upsert_file_holds_other.
    + intros [|y fs1] x fs2 E Hne.
      * injection E as <- <-. apply Hkeep; [|done]. apply upsert_file_holds.
      * injection E as <- E. by eapply Hlast.
Qed.

Lemma add_files_nonempty db t fs archived now :
  fs <> [] ->
  add_files normalize_path execute_fault db t fs archived now
  = ('(db2, added, _) ←
       add_files_loop normalize_path execute_fault
         {| tapes := insert_or_ignore_tape (tapes db) t;
            files := files db; next_id := next_id db |}
         t (isoformat (default now archived)) fs 0 0;
     if negb (sum_fits (files db2) t)
     then Raise (SqliteError (lit "integer overflow"))
     else Ok (update_tape_stats db2 t, added)).
Proof. by destruct fs. Qed.

(** X9.  Let [add_files] run with no statement refused and return.  Then
    it returns the number of tuples it was given, and for every tuple that
    is the last of its normalised path in the list, [find_by_hash] on its
    digest returns a result on this tape at the normalised path with the
    tuple's size. *)
Theorem add_files_then_find db t fs1 p sz mt h fs2 archived now db' n :
  (forall r, execute_fault r = None) ->
  add_files normalize_path execute_fault db t (fs1 ++ (p, sz, mt, Some h) :: fs2)
    archived now = Ok (db', n) ->
  Forall (fun y => normalize_path y.1.1.1 <> normalize_path p) fs2 ->
  n = Z.of_nat (length (fs1 ++ (p, sz, mt, Some h) :: fs2))
  /\ exists r, r ∈ find_by_hash fromisoformat db' h
       /\ sr_tape_name r = t /\ sr_path r = normalize_path p /\ sr_size r = sz.
Proof.
  intros Hnf Hadd Hlast.
  rewrite add_files_nonempty in Hadd by (by destruct fs1).
  destruct (add_files_loop _ _ _ t _ _ 0 0) as [[[db2 a2] t2]|e] eqn:El; [|done].
  cbn [mbind Result_bind] in Hadd. destruct (negb _); [done|].
  injection Hadd as <- <-.
  apply add_files_loop_no_fault in El as (Ha & _ & Hl); [|done].
  split; [exact Ha|].
  destruct (Hl fs1 (p, sz, mt, Some h) fs2 eq_refl) as (f & Hf & Ek & Es & _ & Eh & _).
  { eapply Forall_impl; [exact Hlast|]. intros y Hy. unfold file_key. cbn.
    intros [= E]. done. }
  injection Ek as Et Ep. cbn in Es, Eh.
  exists (to_search_result fromisoformat f). split.
  - unfold find_by_hash. apply list_elem_of_fmap_2.
    rewrite merge_sort_Permutation. apply list_elem_of_filter. done.
  - done.
Qed.

End Lookup.

(** A second batch for the catalog of the examples. *)
Definition demo_batch : list FileTuple :=
  [ (lit "a", 1, None, Some (lit "aa"));
    (lit "b", 2, None, Some (lit "bb"));
    (lit "c", 3, None, None) ].

Definition demo_db_after : DB :=
  match add_files (fun p => p) (fun _ => None) demo_db (lit "TAPE01") demo_batch
          None demo_now with
  | Ok (db', _) => db'
  | Raise _ => demo_db
  end.

Lemma add_files_then_find_witness :
  3 = Z.of_nat (length demo_batch)
  /\ exists r,
       r ∈ find_by_hash (fun _ => Raise ValueError) demo_db_after (lit "bb")
       /\ sr_tape_name r = lit "TAPE01" /\ sr_path r = lit "b" /\ sr_size r = 2.
Proof.
  refine (add_files_then_find (fun p => p) (fun _ => None) (fun _ => Raise ValueError)
            demo_db (lit "TAPE01") [ (lit "a", 1, None, Some (lit "aa")) ]
            (lit "b") 2 None (lit "bb") [ (lit "c", 3, None, None) ]
            None demo_now demo_db_after 3 (fun _ => eq_refl) _ _).
  - by vm_compute.
  - repeat constructor; by vm_compute.
Defined.

(** ** catalog_db.py: running [add_files] again *)

(** What [ON CONFLICT(tape_name, path) DO UPDATE] does to one row. *)
Definition refresh (r f : FileRecord) : FileRecord :=
  if decide (tape_name f = tape_name r /\ path f = path r) then
    {| id := id f; tape_name := tape_name f; path := path f;
       size := size r; mtime := mtime r; xxhash := xxhash r;
       archived_at := archived_at r |}
  else f.

Lemma refresh_key r f : file_key (refresh r f) = file_key f.
Proof. unfold refresh. by destruct (decide _). Qed.

Lemma refresh_id r f : id (refresh r f) = id f.
Proof. unfold refresh. by destruct (decide _). Qed.

Lemma refresh_other r f : file_key f <> file_key r -> refresh r f = f.
Proof.
  intros Hne. unfold refresh. rewrite decide_False; [done|].
  intros [Et Ep]. apply Hne. unfold file_key. by rewrite Et, Ep.
Qed.

(** Refreshing with [r] forgets what the values were before. *)
Lemma refresh_absorbs r f f' :
  file_key f = file_key r -> id f' = id f -> file_key f' = file_key f ->
  refresh r f' = refresh r f.
Proof.
  intros Ek Ei Ek'. unfold refresh.
  injection Ek as Et Ep. injection Ek' as Et' Ep'.
  rewrite !decide_True by (split; congruence). by rewrite Ei, Et', Ep'.
Qed.

Lemma upsert_file_present db r :
  has_file (files db) (tape_name r) (path r) = true ->
  upsert_file db r
  = {| tapes := tapes db; files := refresh r <$> files db; next_id := next_id db + 1 |}.
Proof. intros E. unfold upsert_file. by rewrite E. Qed.

Section Rerun.
Variable normalize_path : str -> str.
Variable execute_fault : FileRecord -> option exn.
Hypothesis no_fault : forall r, execute_fault r = None.

(** The rows of a batch, refreshed one after the other. *)
Definition refresh_all (t a : str) (fs : list FileTuple) (f : FileRecord) : FileRecord :=
  foldl (fun f x => refresh (row_for normalize_path t a x) f) f fs.

Lemma refresh_all_key t a fs f : file_key (refresh_all t a fs f) = file_key f.
Proof.
  revert f. induction fs as [|x fs IH]; intros f; [done|].
  unfold refresh_all in *. cbn [foldl]. by rewrite IH, refresh_key.
Qed.

Lemma refresh_all_id t a fs f : id (refresh_all t a fs f) = id f.
Proof.
  revert f. induction fs as [|x fs IH]; intros f; [done|].
  unfold refresh_all in *. cbn [foldl]. by rewrite IH, refresh_id.
Qed.

Lemma refresh_all_other t a fs f :
  Forall (fun x => file_key f <> file_key (row_for normalize_path t a x)) fs ->
  refresh_all t a fs f = f.
Proof.
  induction 1 as [|x fs Hx _ IH]; [done|].
  unfold refresh_all in *. cbn [foldl]. by rewrite refresh_other.
Qed.

Lemma refresh_all_snoc t a fs x f :
  refresh_all t a (fs ++ [x]) f
  = refresh (row_for normalize_path t a x) (refresh_all t a fs f).
Proof. unfold refresh_all. by rewrite foldl_snoc. Qed.

(** The database after the upserts of a batch. *)
Definition upsert_all (t a : str) (db : DB) (fs : list FileTuple) : DB :=
  foldl (fun db x => upsert_file db (row_for normalize_path t a x)) db fs.

Lemma add_files_loop_upsert_all fs : forall db t a added total db' added' total',
  add_files_loop normalize_path execute_fault db t a fs added total
    = Ok (db', added', total') ->
  db' = upsert_all t a db fs /\ Forall (fun x => int64 x.1.1.2 = true) fs.
Proof.
  induction fs as [|[[[p sz] mt] h] fs IH]; intros db t a added total db' added' total'.
  - cbn [add_files_loop]. by intros [= <- _ _].
  - cbn [add_files_loop]. unfold execute_insert. cbn [size].
    destruct (int64 sz) eqn:Ei; cbn [negb is_sqlite_Error]; [|done].
    rewrite no_fault. intros [-> Hfs]%IH. split; [done|]. by constructor.
Qed.

Lemma upsert_file_key_present db r :
  file_key r ∈ file_key <$> files (upsert_file db r).
Proof.
  destruct (upsert_file_holds db r) as (f & Hf & Ek & _).
  rewrite <- Ek. by apply list_elem_of_fmap_2.
Qed.

Lemma upsert_file_keys_kept db r k :
  k ∈ file_key <$> files db -> k ∈ file_key <$> files (upsert_file db r).
Proof.
  unfold upsert_file. destruct (has_file _ _ _); cbn [files].
  - intros (f & -> & Hf)%list_elem_of_fmap.
    apply list_elem_of_fmap. exists (refresh r f). split; [by rewrite refresh_key|].
    by apply (list_elem_of_fmap_2 (refresh r)).
  - intros Hk. rewrite fmap_app. apply elem_of_app. by left.
Qed.

Lemma upsert_all_snoc t a db fs x :
  upsert_all t a (db) (fs ++ [x])
  = upsert_file (upsert_all t a db fs) (row_for normalize_path t a x).
Proof. unfold upsert_all. by rewrite foldl_snoc. Qed.

Lemma upsert_all_keys_present t a db fs :
  Forall (fun x => file_key (row_for normalize_path t a x)
                     ∈ file_key <$> files (upsert_all t a db fs)) fs.
Proof.
  induction fs as [|x fs IH] using rev_ind; [done|].
  rewrite upsert_all_snoc. apply Forall_app. split.
  - eapply Forall_impl; [exact IH|]. intros y Hy. by apply upsert_file_keys_kept.
  - apply Forall_singleton, upsert_file_key_present.
Qed.

Lemma upsert_all_tapes t a db fs : tapes (upsert_all t a db fs) = tapes db.
Proof.
  induction fs as [|x fs IH] using rev_ind; [done|].
  by rewrite upsert_all_snoc, upsert_file_tapes.
Qed.

(** After the upserts of a batch, refreshing any row with the batch
    changes nothing: each row already has the values of the last tuple of
    its key. *)
Lemma upsert_all_settled t a db fs f :
  f ∈ files (upsert_all t a db fs) -> refresh_all t a fs f = f.
Proof.
  revert f. induction fs as [|x fs IH] using rev_ind; intros f; [done|].
  rewrite upsert_all_snoc, refresh_all_snoc.
  set (r := row_for normalize_path t a x). set (D := upsert_all t a db fs) in *.
  unfold upsert_file.
  destruct (has_file (files D) (tape_name r) (path r)) eqn:E; cbn [files].
  - intros (f0 & -> & Hf0)%list_elem_of_fmap. fold (refresh r f0).
    destruct (decide (file_key f0 = file_key r)) as [Ek|Hne].
    + apply refresh_absorbs; [done| |].
      * by rewrite refresh_all_id, refresh_id.
      * by rewrite refresh_all_key, refresh_key.
    + rewrite (refresh_other r f0) by done. rewrite IH by done.
      by apply refresh_other.
  - intros [Hf| ->%list_elem_of_singleton]%elem_of_app.
    + rewrite IH by done. apply refresh_other. intros Ek.
      assert (has_file (files D) (tape_name r) (path r) = true); [|congruence].
      apply has_file_spec. change (file_key r ∈ file_key <$> files D).
      rewrite <- Ek. by apply list_elem_of_fmap_2.
    + rewrite refresh_all_other.
      * unfold refresh. by rewrite decide_True.
      * eapply Forall_impl; [apply (upsert_all_keys_present t a db fs)|].
        intros y Hy Ek.
        assert (has_file (files D) (tape_name r) (path r) = true); [|congruence].
        apply has_file_spec. change (file_key r ∈ file_key <$> files D).
        assert (file_key r = file_key (row_for normalize_path t a y)) as -> by exact Ek.
        exact Hy.
Qed.

(** On a database that has all the keys of a batch, the upserts refresh
    the rows in place. *)
Lemma upsert_all_present t a fs : forall db,
  Forall (fun x => file_key (row_for normalize_path t a x) ∈ file_key <$> files db) fs ->
  upsert_all t a db fs
  = {| tapes := tapes db; files := refresh_all t a fs <$> files db;
       next_id := next_id db + Z.of_nat (length fs) |}.
Proof.
  induction fs as [|x fs IH]; intros db Hfs.
  - unfold upsert_all, refresh_all. cbn [foldl length]. rewrite list_fmap_id, Z.add_0_r.
    by destruct db.
  - apply Forall_cons in Hfs as [Hx Hfs]. unfold upsert_all in *. cbn [foldl].
    rewrite upsert_file_present by (by apply has_file_spec).
    rewrite IH.
    + cbn [tapes files next_id length]. f_equal.
      * rewrite <- list_fmap_compose. by apply list_fmap_ext.
      * lia.
    + cbn [files]. eapply Forall_impl; [exact Hfs|]. intros y Hy.
      rewrite <- list_fmap_compose.
      rewrite (list_fmap_ext (file_key ∘ refresh (row_for normalize_path t a x)) file_key);
        [done|]. intros i f _. apply refresh_key.
Qed.

Lemma add_files_loop_total fs : forall db t a added total,
  Forall (fun x => int64 x.1.1.2 = true) fs ->
  exists total',
    add_files_loop normalize_path execute_fault db t a fs added total
    = Ok (upsert_all t a db fs, added + Z.of_nat (length fs), total').
Proof.
  induction fs as [|[[[p sz] mt] h] fs IH]; intros db t a added total Hfs.
  - eexists. cbn [add_files_loop length upsert_all foldl]. do 3 f_equal. lia.
  - apply Forall_cons in Hfs as [Hx Hfs]. cbn in Hx.
    cbn [add_files_loop]. unfold execute_insert. cbn [size]. rewrite Hx, no_fault.
    cbn [negb]. destruct (IH (upsert_file db (row_for normalize_path t a (p, sz, mt, h)))
                            t a (added + 1) (total + sz) Hfs) as [total' E].
    exists total'. unfold row_for in E. cbn [fst snd] in E. rewrite E.
    do 3 f_equal. cbn [length]. lia.
Qed.

Lemma update_tape_stats_idemp db t :
  update_tape_stats (update_tape_stats db t) t = update_tape_stats db t.
Proof.
  unfold update_tape_stats. cbn [tapes files next_id]. f_equal.
  rewrite <- list_fmap_compose. apply list_fmap_ext. intros i r _. cbn.
  destruct (decide (name r = t)) as [E|E]; cbn [name].
  - by rewrite decide_True.
  - by rewrite decide_False.
Qed.


End Rerun.

End CatalogDB.


(** ** utils.py and the text of numbers *)

Module PyStr.

(** [str(n)] for an [int]. *)
Definition str_of_int (n : Z) : str :=
  lit (DecimalString.NilZero.string_of_int (Z.to_int n)).

(** The code points of [s] as ASCII characters; [None] above 255. *)
Fixpoint to_string (s : str) : option string :=
  match s with
  | [] => Some EmptyString
  | c :: s' =>
      if (c <? 256)%N then String (ascii_of_N c) <$> to_string s' else None
  end.

(** [int(s)] on a decimal literal, an optional [-] and ASCII digits; other
    text is a [ValueError].  (Python also accepts a [+], surrounding blanks,
    underscores and other Unicode digits; [str_of_int] writes none.) *)
Definition int_of_str (s : str) : Result Z :=
  match to_string s ≫= DecimalString.NilZero.int_of_string with
  | Some d => Ok (Z.of_int d)
  | None => Raise ValueError
  end.

(** [needle in s] *)
Fixpoint contains (needle s : str) : bool :=
  match s with
  | [] => bool_decide (needle = [])
  | _ :: s' => bool_decide (take (length needle) s = needle) || contains needle s'
  end.

(** [s.endswith(suffix)] *)
Definition endswith (s suffix : str) : bool :=
  bool_decide (drop (length s - length suffix) s = suffix).

(** A run between two [/] as a component of a path: [pathlib] drops the
    empty ones and the single dots. *)
Definition component (cur : str) : list str :=
  if bool_decide (cur = []) || bool_decide (cur = [46%N]) then [] else [cur].

(** The components of a relative path ([PurePath.parts]): the runs
    between [/] that are neither empty nor [.], so that [Path(".")] has
    none; a [..] stays. *)
Fixpoint parts_aux (s : str) (cur : str) : list str :=
  match s with
  | [] => component cur
  | c :: s' =>
      if (c =? 47)%N
      then component cur ++ parts_aux s' []
      else parts_aux s' (cur ++ [c])
  end.

(** The characters that [str.rstrip()] removes. *)
Definition is_space (c : N) : bool :=
  (((9 <=? c) && (c <=? 13)) || ((28 <=? c) && (c <=? 32)) || (c =? 133) || (c =? 160)
   || (c =? 5760) || ((8192 <=? c) && (c <=? 8202)) || (c =? 8232) || (c =? 8233)
   || (c =? 8239) || (c =? 8287) || (c =? 12288))%N.

(** [s.rstrip()] *)
Fixpoint rstrip (s : str) : str :=
  match s with
  | [] => []
  | c :: s' =>
      match rstrip s' with
      | [] => if is_space c then [] else [c]
      | t => c :: t
      end
  end.

Definition parts (s : str) : list str := parts_aux s [].

(** A fragment of [unicodedata.normalize("NFC", s)] for the examples: an
    [e] followed by the combining acute accent U+0301 composes to U+00E9;
    other text is left as it is. *)
Fixpoint compose_acute (s : str) : str :=
  match s with
  | [] => []
  | c :: s' =>
      match s' with
      | d :: s'' =>
          if ((c =? 101) && (d =? 769))%N then 233%N :: compose_acute s''
          else c :: compose_acute s'
      | [] => [c]
      end
  end.

Lemma to_string_lit s : to_string (lit s) = Some s.
Proof.
  induction s as [|a s IH]; [done|].
  unfold lit in *. simpl.
  pose proof (N_ascii_bounded a) as Hb.
  destruct (N.ltb_spec (N_of_ascii a) 256) as [_|?]; [|lia].
  rewrite IH. simpl. by rewrite ascii_N_embedding.
Qed.

Lemma int_of_str_of_int n : int_of_str (str_of_int n) = Ok n.
Proof.
  unfold int_of_str, str_of_int. rewrite to_string_lit. simpl.
  rewrite DecimalString.NilZero.isi.
  - by rewrite DecimalZ.of_to.
  - destruct n; simpl; try discriminate.
    intros [= E]. by apply (DecimalPos.Unsigned.to_uint_nonnil p).
  - destruct n; simpl; try discriminate.
    intros [= E]. by apply (DecimalPos.Unsigned.to_uint_nonnil p).
Qed.

(** [str(n)] is made of digits, after a [-] for a negative number. *)
Lemma str_of_int_chars n :
  Forall (fun c => c = 45 \/ 48 <= c <= 57)%N (str_of_int n).
Proof.
  unfold str_of_int.
  assert (forall d, Forall (fun c => c = 45 \/ 48 <= c <= 57)%N
                      (lit (DecimalString.NilEmpty.string_of_uint d))) as Hu.
  { induction d; cbn;
      try (apply Forall_cons; split; [right; cbn; lia|assumption]).
    apply Forall_nil_2. }
  assert (forall d, Forall (fun c => c = 45 \/ 48 <= c <= 57)%N
                      (lit (DecimalString.NilZero.string_of_uint d))) as Hz.
  { intros d. destruct d; try apply Hu.
    apply Forall_cons. split; [right; cbn; lia|apply Forall_nil_2]. }
  destruct (Z.to_int n) as [d|d]; cbn.
  - apply Hz.
  - apply Forall_cons. split; [by left|apply Hz].
Qed.

End PyStr.


(** ** mhl.py *)

Module MHL.
Import Datetime PyStr.

(** [xml.etree.ElementTree.Element]: tag, attributes, text, children. *)
Inductive Element : Type :=
| Elem (tag : str) (attrib : list (str * str)) (text : option str)
       (children : list Element).

Definition tag (e : Element) : str := let 'Elem t _ _ _ := e in t.
Definition attrib (e : Element) : list (str * str) := let 'Elem _ a _ _ := e in a.
Definition text (e : Element) : option str := let 'Elem _ _ x _ := e in x.
Definition children (e : Element) : list Element := let 'Elem _ _ _ c := e in c.

(** [ET.Element(tag)] *)
Definition new_element (t : str) : Element := Elem t [] None [].

(** A new child [ET.SubElement(parent, tag)] with its [text] set. *)
Definition sub_element (parent : Element) (t : str) (x : str) : Element :=
  let 'Elem pt pa px pc := parent in Elem pt pa px (pc ++ [Elem t [] (Some x) []]).

(** [parent.append(child)] *)
Definition append (parent child : Element) : Element :=
  let 'Elem pt pa px pc := parent in Elem pt pa px (pc ++ [child]).

(** [elem.find(tag)]: the first child with that tag. *)
Definition find (e : Element) (t : str) : option Element :=
  List.find (fun c => bool_decide (tag c = t)) (children e).

(** [elem.findall(tag)] *)
Definition findall (e : Element) (t : str) : list Element :=
  filter (fun c => tag c = t) (children e).

(** [elem.findtext(tag)]: [None] without such a child, else its text, the
    empty string when it has none. *)
Definition findtext (e : Element) (t : str) : option str :=
  (fun c => default [] (text c)) <$> find e t.

(** [elem.get(key, default)] *)
Definition get (e : Element) (k : str) (d : str) : str :=
  match List.find (fun kv => bool_decide (kv.1 = k)) (attrib e) with
  | Some kv => kv.2
  | None => d
  end.

(** The character class of [sanitize_xml_string]: code points 0x00-0x08,
    0x0b, 0x0c, 0x0e-0x1f, 0x7f-0x9f, 0xd800-0xdfff, 0xfffe and 0xffff. *)
Definition invalid_xml_char (c : N) : bool :=
  ((c <=? 8) || (c =? 11) || (c =? 12) || ((14 <=? c) && (c <=? 31))
   || ((127 <=? c) && (c <=? 159)) || ((55296 <=? c) && (c <=? 57343))
   || (c =? 65534) || (c =? 65535))%N.

(** [sanitize_xml_string(s)] *)
Definition sanitize_xml_string (s : str) : str :=
  filter (fun c => invalid_xml_char c = false) s.

(** The dataclass [HashEntry]. *)
Record HashEntry := {
  file : str;
  size : Z;
  xxhash64be : str;
  last_modification_date : option datetime;
  hash_date : option datetime
}.

(** The dataclass [CreatorInfo]. *)
Record CreatorInfo := {
  ci_name : str;
  username : str;
  hostname : str;
  tool : str;
  start_date : option datetime;
  finish_date : option datetime
}.

(** The dataclass [TapeInfo]. *)
Record TapeInfo := {
  ti_name : str;
  serial : str;
  vendor : str;
  product : str
}.

(** The dataclass [MHL]. *)
Record MHL := {
  version : str;
  creator_info : CreatorInfo;
  tape_info : option TapeInfo;
  hashes : list HashEntry
}.

(** [mhl.add_hash(entry)] *)
Definition add_hash (m : MHL) (entry : HashEntry) : MHL :=
  {| version := version m; creator_info := creator_info m;
     tape_info := tape_info m; hashes := hashes m ++ [entry] |}.

(** [if value: ET.SubElement(parent, tag).text = value] for a string. *)
Definition sub_if_nonempty (parent : Element) (t : str) (x : str) : Element :=
  if bool_decide (x = []) then parent else sub_element parent t x.

(** The same for an optional date, written in [MHL_FORMAT]. *)
Definition sub_if_date (parent : Element) (t : str) (d : option datetime) : Element :=
  match d with
  | Some d => sub_element parent t (strftime MHL_FORMAT d)
  | None => parent
  end.

(** Reading an optional date back: an absent or empty text and a text that
    [strptime] rejects all give [None]. *)
Definition parse_date (x : option str) : option datetime :=
  match x with
  | None => None
  | Some s =>
      if bool_decide (s = []) then None
      else match strptime s MHL_FORMAT with
           | Ok d => Some (replace_tzinfo_utc d)
           | Raise _ => None
           end
  end.

(** A timestamp of the package is a [datetime] value: its fields passed
    the range checks of the constructor. *)
Definition dated (d : option datetime) : bool :=
  match d with Some d => valid d | None => true end.

(** What [MHL_FORMAT] carries of an optional timestamp: the whole seconds,
    read back as UTC.  A year below 1000 is written with fewer than four
    digits, [strptime] refuses the text, and the date is dropped. *)
Definition carried_date (d : option datetime) : option datetime :=
  match d with
  | Some d => if 1000 <=? year d then Some (to_seconds_utc d) else None
  | None => None
  end.

(** *** What an XML parser makes of text *)

(** End-of-line handling: a carriage return followed by a line feed, and
    a carriage return alone, are read as one line feed. *)
Fixpoint eol (s : str) : str :=
  match s with
  | [] => []
  | c :: s' =>
      if (c =? 13)%N
      then 10%N :: match s' with
                   | d :: s'' => if (d =? 10)%N then eol s'' else eol s'
                   | [] => []
                   end
      else c :: eol s'
  end.

(** An attribute value as it is read back from the pretty-printed text:
    after the end-of-line handling, a tab or a line feed is a space. *)
Definition attr_value (s : str) : str :=
  (fun c => if ((c =? 9) || (c =? 10))%N then 32%N else c) <$> eol s.

(** A tree with its texts and attribute values as a parser reads them. *)
Fixpoint line_ends (e : Element) : Element :=
  let 'Elem t a x cs := e in
  Elem t ((fun kv => (kv.1, attr_value kv.2)) <$> a) (eol <$> x) (map line_ends cs).

Section Manifest.

(** [utils.normalize_path]: Unicode NFC normalisation. *)
Variable normalize_path : str -> str.

(** [HashEntry.to_element] *)
Definition to_element (h : HashEntry) : Element :=
  let e := new_element (lit "hash") in
  let e := sub_element e (lit "file") (sanitize_xml_string (normalize_path (file h))) in
  let e := sub_element e (lit "size") (str_of_int (size h)) in
  let e := sub_if_date e (lit "lastmodificationdate") (last_modification_date h) in
  let e := sub_element e (lit "xxhash64be") (xxhash64be h) in
  sub_if_date e (lit "hashdate") (hash_date h).

(** [HashEntry.from_element]; [int] may raise [ValueError]. *)
Definition from_element (e : Element) : Result HashEntry :=
  let file_path := normalize_path (default [] (findtext e (lit "file"))) in
  sz ← int_of_str (default (lit "0") (findtext e (lit "size")));
  let xxhash := default [] (findtext e (lit "xxhash64be")) in
  Ok {| file := file_path; size := sz; xxhash64be := xxhash;
        last_modification_date := parse_date (findtext e (lit "lastmodificationdate"));
        hash_date := parse_date (findtext e (lit "hashdate")) |}.

(** [CreatorInfo.to_element] *)
Definition creator_to_element (c : CreatorInfo) : Element :=
  let e := new_element (lit "creatorinfo") in
  let e := sub_if_nonempty e (lit "name") (ci_name c) in
  let e := sub_if_nonempty e (lit "username") (username c) in
  let e := sub_if_nonempty e (lit "hostname") (hostname c) in
  let e := sub_if_nonempty e (lit "tool") (tool c) in
  let e := sub_if_date e (lit "startdate") (start_date c) in
  sub_if_date e (lit "finishdate") (finish_date c).

(** [CreatorInfo.from_element] *)
Definition creator_from_element (e : Element) : CreatorInfo :=
  {| ci_name := default [] (findtext e (lit "name"));
     username := default [] (findtext e (lit "username"));
     hostname := default [] (findtext e (lit "hostname"));
     tool := default [] (findtext e (lit "tool"));
     start_date := parse_date (findtext e (lit "startdate"));
     finish_date := parse_date (findtext e (lit "finishdate")) |}.

(** [TapeInfo.to_element] *)
Definition tape_to_element (t : TapeInfo) : Element :=
  let e := new_element (lit "tapeinfo") in
  let e := sub_if_nonempty e (lit "name") (ti_name t) in
  let e := sub_if_nonempty e (lit "serial") (serial t) in
  let e := sub_if_nonempty e (lit "vendor") (vendor t) in
  sub_if_nonempty e (lit "product") (product t).

(** [TapeInfo.from_element] *)
Definition tape_from_element (e : Element) : TapeInfo :=
  {| ti_name := default [] (findtext e (lit "name"));
     serial := default [] (findtext e (lit "serial"));
     vendor := default [] (findtext e (lit "vendor"));
     product := default [] (findtext e (lit "product")) |}.

(** The tree [MHL.to_xml] builds before it is written as text. *)
Definition to_root (m : MHL) : Element :=
  let root := Elem (lit "hashlist") [(lit "version", version m)] None [] in
  let root := append root (creator_to_element (creator_info m)) in
  let root := match tape_info m with
              | Some t => append root (tape_to_element t)
              | None => root
              end in
  foldl (fun r h => append r (to_element h)) root (hashes m).

(** The entries of [MHL.load]: [from_element] of each [hash] child, in
    order; the first [ValueError] ends the load. *)
Fixpoint load_hashes (es : list Element) : Result (list HashEntry) :=
  match es with
  | [] => Ok []
  | e :: es' => h ← from_element e; hs ← load_hashes es'; Ok (h :: hs)
  end.

(** What [MHL.load] builds from the parsed root.  [default_creator] is
    [CreatorInfo.default()], the creator of an [MHL] made without one. *)
Definition from_root (default_creator : CreatorInfo) (root : Element) : Result MHL :=
  let ver := get root (lit "version") (lit "1.1") in
  let creator := match find root (lit "creatorinfo") with
                 | Some e => creator_from_element e
                 | None => default_creator
                 end in
  let tape := tape_from_element <$> find root (lit "tapeinfo") in
  hs ← load_hashes (findall root (lit "hash"));
  Ok {| version := ver; creator_info := creator; tape_info := tape; hashes := hs |}.

(** The XML text layer: [ET.tostring] and [minidom]'s pretty printer on the
    way out, [ET.parse] on the way in.  [Doc] is the content of a file. *)
Variable Doc : Type.
Variable xml_write : Element -> Doc.
Variable xml_read : Doc -> Result Element.

(** [MHL.to_xml(pretty=True)] *)
Definition to_xml (m : MHL) : Doc := xml_write (to_root m).

(** What [Path.write_text] raises for a path and a text, if anything,
    and the content it leaves at the path then, if it made the file:
    [FileNotFoundError] when the directory of the path is not there (a
    path with a [/] too many), [UnicodeEncodeError] for a text with a lone
    surrogate, after the file was opened. *)
Variable write_fault : str -> Doc -> option (exn * option Doc).

(** [MHL.save(filepath)]: [write_text] creates the file or replaces its
    content. *)
Definition save (fs : gmap str Doc) (m : MHL) (filepath : str)
  : gmap str Doc * Result unit :=
  match write_fault filepath (to_xml m) with
  | None => (<[filepath := to_xml m]> fs, Ok tt)
  | Some (e, Some partial) => (<[filepath := partial]> fs, Raise e)
  | Some (e, None) => (fs, Raise e)
  end.

(** [MHL.load(filepath)] *)
Definition load (default_creator : CreatorInfo) (fs : gmap str Doc) (filepath : str)
  : Result MHL :=
  match fs !! filepath with
  | None => Raise (OSError (lit "No such file or directory"))
  | Some doc => root ← xml_read doc; from_root default_creator root
  end.

(** *** Queries on the elements that [to_element] builds *)

Lemma findtext_new_element t tg : findtext (new_element t) tg = None.
Proof. done. Qed.

Lemma find_snoc (P : Element -> bool) cs c :
  List.find P (cs ++ [c]) =
  match List.find P cs with Some r => Some r | None => if P c then Some c else None end.
Proof.
  induction cs as [|c0 cs IH]; simpl; [done|]. by destruct (P c0).
Qed.

Lemma findtext_sub_element e t x tg :
  findtext (sub_element e t x) tg =
  match findtext e tg with
  | Some y => Some y
  | None => if bool_decide (t = tg) then Some x else None
  end.
Proof.
  destruct e as [pt pa px pc]. unfold findtext, find. simpl.
  rewrite find_snoc. destruct (List.find _ pc); [done|]. simpl.
  by destruct (bool_decide (t = tg)).
Qed.

Lemma findtext_sub_if_date e t d tg :
  findtext (sub_if_date e t d) tg =
  match findtext e tg with
  | Some y => Some y
  | None => if bool_decide (t = tg) then strftime MHL_FORMAT <$> d else None
  end.
Proof.
  destruct d as [d|]; simpl.
  - apply findtext_sub_element.
  - destruct (findtext e tg); [done|]. by destruct (bool_decide _).
Qed.

Lemma findtext_sub_if_nonempty e t x tg :
  findtext (sub_if_nonempty e t x) tg =
  match findtext e tg with
  | Some y => Some y
  | None => if bool_decide (t = tg) then (if bool_decide (x = []) then None else Some x)
            else None
  end.
Proof.
  unfold sub_if_nonempty. destruct (bool_decide (x = [])).
  - destruct (findtext e tg); [done|]. by destruct (bool_decide _).
  - apply findtext_sub_element.
Qed.

(** Deciding equalities between tag literals. *)
Ltac decide_tags :=
  repeat match goal with
  | |- context [bool_decide (lit ?a = lit ?b)] =>
      let v := eval vm_compute in (bool_decide (lit a = lit b)) in
      change (bool_decide (lit a = lit b)) with v
  end.

(** *** What the text layer keeps *)

Lemma eol_nil_iff s : eol s = [] <-> s = [].
Proof.
  destruct s as [|c s]; [done|]. simpl. by destruct (c =? 13)%N.
Qed.

Lemma eol_id s : Forall (fun c => c <> 13%N) s -> eol s = s.
Proof.
  induction 1 as [|c s Hc _ IH]; [done|].
  simpl. destruct (N.eqb_spec c 13); [done|]. by rewrite IH.
Qed.

Lemma eol_str_of_int n : eol (str_of_int n) = str_of_int n.
Proof.
  apply eol_id. eapply Forall_impl; [apply str_of_int_chars|].
  intros c Hc. simpl in Hc. lia.
Qed.

Lemma pad_digits k n : Forall (fun c => c <> 13%N) (pad k n).
Proof.
  revert n. induction k as [|k IH]; intros n; [apply Forall_nil_2|].
  simpl. apply Forall_app. split; [apply IH|].
  apply Forall_cons. split; [|apply Forall_nil_2].
  pose proof (Z.mod_pos_bound n 10 ltac:(lia)). lia.
Qed.

Lemma eol_strftime_mhl d : eol (strftime MHL_FORMAT d) = strftime MHL_FORMAT d.
Proof.
  apply eol_id.
  change (strftime MHL_FORMAT d) with (strftime (lit "%Y-%m-%dT%H:%M:%SZ") d).
  rewrite strftime_mhl.
  repeat first [ apply Forall_app; split; [apply pad_digits|]
               | apply Forall_cons; split; [done|]
               | apply Forall_nil_2 ].
Qed.

Lemma strftime_mhl_nonempty d : strftime MHL_FORMAT d <> [].
Proof.
  intros E. apply (f_equal length) in E. revert E.
  change (strftime MHL_FORMAT d) with (strftime (lit "%Y-%m-%dT%H:%M:%SZ") d).
  rewrite strftime_mhl, length_app. simpl. lia.
Qed.

(** A timestamp through [strftime] and [parse_date]. *)
Lemma parse_date_strftime d :
  dated d = true -> parse_date (strftime MHL_FORMAT <$> d) = carried_date d.
Proof.
  destruct d as [d|]; [|done].
  cbn [dated fmap option_fmap option_map parse_date carried_date]. intros Hv.
  rewrite bool_decide_eq_false_2 by apply strftime_mhl_nonempty.
  destruct (Z.leb_spec 1000 (year d)) as [Hy|Hy].
  - pose proof (strptime_strftime_mhl d Hv Hy) as E.
    destruct (strptime (strftime MHL_FORMAT d) MHL_FORMAT) as [d'|]; [|done].
    apply (f_equal (fun r => match r with Ok a => a | Raise _ => d end)) in E.
    change (replace_tzinfo_utc d' = to_seconds_utc d) in E. by rewrite E.
  - by rewrite strptime_strftime_mhl_early.
Qed.

Lemma parse_date_eol_strftime d :
  dated d = true ->
  parse_date (eol <$> (strftime MHL_FORMAT <$> d)) = carried_date d.
Proof.
  intros Hd. rewrite <- parse_date_strftime by done.
  destruct d as [d|]; [|done]. cbn [fmap option_fmap option_map].
  by rewrite eol_strftime_mhl.
Qed.

(** What one entry looks like after [to_element], the text layer and
    [from_element]: the path normalised, sanitised, with its line ends as
    the parser reads them, and normalised again; the size; the digest as
    the parser reads it; the timestamps as [MHL_FORMAT] carries them. *)
Definition wire_entry (h : HashEntry) : HashEntry :=
  {| file := normalize_path (eol (sanitize_xml_string (normalize_path (file h))));
     size := size h;
     xxhash64be := eol (xxhash64be h);
     last_modification_date := carried_date (last_modification_date h);
     hash_date := carried_date (hash_date h) |}.

(** An entry whose timestamps are [datetime] values. *)
Definition entry_dated (h : HashEntry) : bool :=
  dated (last_modification_date h) && dated (hash_date h).

(** An XML document keeps tags, attributes and nesting, and the text of
    the elements that have no children, where an absent text and an empty
    one are written alike.  The text of an element that has children is
    the indentation the pretty printer chose.  [strip] is what is left to
    compare; the tree that is read back is compared with the [line_ends]
    of the tree that was written. *)
Fixpoint strip (e : Element) : Element :=
  let 'Elem t a x cs := e in
  Elem t a (match cs with [] => Some (default [] x) | _ => None end) (map strip cs).

Definition leaf (e : Element) : bool := bool_decide (children e = []).

(** All children are leaves, as in [hash], [creatorinfo] and [tapeinfo]. *)
Definition flat (e : Element) : bool := forallb leaf (children e).

(** All grandchildren are leaves, as in [hashlist]. *)
Definition flat2 (e : Element) : bool := forallb flat (children e).

Lemma tag_strip e : tag (strip e) = tag e.
Proof. by destruct e. Qed.

Lemma attrib_strip e : attrib (strip e) = attrib e.
Proof. by destruct e. Qed.

Lemma children_strip e : children (strip e) = strip <$> children e.
Proof. by destruct e. Qed.

Lemma leaf_strip e : leaf (strip e) = leaf e.
Proof.
  unfold leaf. rewrite children_strip. by destruct (children e).
Qed.

Lemma flat_strip e : flat (strip e) = flat e.
Proof.
  unfold flat. rewrite children_strip.
  induction (children e) as [|c cs IH]; [done|].
  rewrite fmap_cons. cbn [forallb]. by rewrite leaf_strip, IH.
Qed.

Lemma flat2_strip e : flat2 (strip e) = flat2 e.
Proof.
  unfold flat2. rewrite children_strip.
  induction (children e) as [|c cs IH]; [done|].
  rewrite fmap_cons. cbn [forallb]. by rewrite flat_strip, IH.
Qed.

Lemma find_strip e t : find (strip e) t = strip <$> find e t.
Proof.
  unfold find. rewrite children_strip.
  induction (children e) as [|c cs IH]; [done|].
  rewrite fmap_cons. cbn [List.find]. rewrite tag_strip.
  by destruct (bool_decide (tag c = t)).
Qed.

Lemma findall_strip e t : findall (strip e) t = strip <$> findall e t.
Proof.
  unfold findall. rewrite children_strip.
  induction (children e) as [|c cs IH]; [done|].
  rewrite fmap_cons, !filter_cons, tag_strip.
  destruct (decide (tag c = t)); by rewrite ?fmap_cons, IH.
Qed.

Lemma leaf_text_strip c : leaf c = true -> default [] (text (strip c)) = default [] (text c).
Proof.
  destruct c as [t a x cs]. unfold leaf. simpl. intros Hc.
  apply bool_decide_eq_true in Hc. by subst cs.
Qed.

Lemma findtext_strip e t : flat e = true -> findtext (strip e) t = findtext e t.
Proof.
  unfold flat, findtext, find. rewrite children_strip.
  induction (children e) as [|c cs IH]; [done|].
  rewrite fmap_cons. cbn [forallb List.find].
  intros [Hc Hcs]%andb_true_iff. rewrite tag_strip.
  destruct (bool_decide (tag c = t)); [|by apply IH].
  cbn [fmap option_fmap option_map]. by rewrite leaf_text_strip.
Qed.

Lemma from_element_strip e : flat e = true -> from_element (strip e) = from_element e.
Proof. intros He. unfold from_element. by rewrite !findtext_strip. Qed.

Lemma creator_from_element_strip e :
  flat e = true -> creator_from_element (strip e) = creator_from_element e.
Proof. intros He. unfold creator_from_element. by rewrite !findtext_strip. Qed.

Lemma tape_from_element_strip e :
  flat e = true -> tape_from_element (strip e) = tape_from_element e.
Proof. intros He. unfold tape_from_element. by rewrite !findtext_strip. Qed.

Lemma load_hashes_strip es :
  forallb flat es = true -> load_hashes (strip <$> es) = load_hashes es.
Proof.
  induction es as [|e es IH]; [done|].
  rewrite fmap_cons. cbn [forallb load_hashes]. intros [He Hes]%andb_true_iff.
  by rewrite from_element_strip, IH.
Qed.

Lemma forallb_filter {A} (P : A -> Prop) `{!forall x, Decision (P x)} (f : A -> bool) l :
  forallb f l = true -> forallb f (filter P l) = true.
Proof.
  induction l as [|x l IH]; [done|].
  simpl. intros [Hx Hl]%andb_true_iff. rewrite filter_cons.
  destruct (decide (P x)); simpl; rewrite ?Hx; auto.
Qed.

Lemma find_flat e t c : flat2 e = true -> find e t = Some c -> flat c = true.
Proof.
  unfold flat2, find. intros He Hf. apply find_some in Hf as [Hin _].
  by apply (proj1 (forallb_forall _ _) He).
Qed.

Lemma from_root_strip dc root :
  flat2 root = true -> from_root dc (strip root) = from_root dc root.
Proof.
  intros Hr. unfold from_root, get.
  rewrite attrib_strip, !find_strip, findall_strip.
  rewrite load_hashes_strip by (by apply forallb_filter).
  destruct (find root (lit "creatorinfo")) as [c|] eqn:Hc;
    destruct (find root (lit "tapeinfo")) as [t|] eqn:Ht; simpl;
    rewrite ?creator_from_element_strip, ?tape_from_element_strip;
    eauto using find_flat.
Qed.

(** Two trees that the text layer cannot tell apart load alike. *)
Lemma from_root_same_document dc a b :
  flat2 b = true -> strip a = strip b -> from_root dc a = from_root dc b.
Proof.
  intros Hb E.
  assert (Ha : flat2 a = true) by (by rewrite <- flat2_strip, E, flat2_strip).
  by rewrite <- (from_root_strip dc a), E, from_root_strip.
Qed.

(** *** The tree that [to_xml] builds *)

Lemma tag_sub_element e t x : tag (sub_element e t x) = tag e.
Proof. by destruct e. Qed.

Lemma tag_sub_if_date e t d : tag (sub_if_date e t d) = tag e.
Proof. destruct d; [apply tag_sub_element|done]. Qed.

Lemma tag_sub_if_nonempty e t x : tag (sub_if_nonempty e t x) = tag e.
Proof.
  unfold sub_if_nonempty. destruct (bool_decide _); [done|apply tag_sub_element].
Qed.

Lemma flat_sub_element e t x : flat (sub_element e t x) = flat e.
Proof.
  destruct e as [pt pa px pc]. unfold flat. simpl.
  rewrite forallb_app. simpl. by rewrite !andb_true_r.
Qed.

Lemma flat_sub_if_date e t d : flat (sub_if_date e t d) = flat e.
Proof. destruct d; [apply flat_sub_element|done]. Qed.

Lemma flat_sub_if_nonempty e t x : flat (sub_if_nonempty e t x) = flat e.
Proof.
  unfold sub_if_nonempty. destruct (bool_decide _); [done|apply flat_sub_element].
Qed.

Lemma tag_to_element h : tag (to_element h) = lit "hash".
Proof.
  unfold to_element.
  by rewrite !tag_sub_if_date, !tag_sub_element, !tag_sub_if_date, !tag_sub_element.
Qed.

Lemma flat_to_element h : flat (to_element h) = true.
Proof.
  unfold to_element.
  by rewrite !flat_sub_if_date, !flat_sub_element, !flat_sub_if_date, !flat_sub_element.
Qed.

Lemma tag_creator_to_element c : tag (creator_to_element c) = lit "creatorinfo".
Proof.
  unfold creator_to_element. by rewrite !tag_sub_if_date, !tag_sub_if_nonempty.
Qed.

Lemma flat_creator_to_element c : flat (creator_to_element c) = true.
Proof.
  unfold creator_to_element. by rewrite !flat_sub_if_date, !flat_sub_if_nonempty.
Qed.

Lemma tag_tape_to_element t : tag (tape_to_element t) = lit "tapeinfo".
Proof. unfold tape_to_element. by rewrite !tag_sub_if_nonempty. Qed.

Lemma flat_tape_to_element t : flat (tape_to_element t) = true.
Proof. unfold tape_to_element. by rewrite !flat_sub_if_nonempty. Qed.

Lemma children_append r c : children (append r c) = children r ++ [c].
Proof. by destruct r. Qed.

Lemma children_foldl_append r hs :
  children (foldl (fun r h => append r (to_element h)) r hs)
  = children r ++ (to_element <$> hs).
Proof.
  revert r. induction hs as [|h hs IH]; intros r; simpl.
  - by rewrite app_nil_r.
  - by rewrite IH, children_append, <- app_assoc.
Qed.

(** The children of the root: the creator, the tape if any, then one
    [hash] element per entry, in order. *)
Lemma children_to_root m :
  children (to_root m)
  = creator_to_element (creator_info m)
    :: option_list (tape_to_element <$> tape_info m) ++ (to_element <$> hashes m).
Proof.
  unfold to_root. rewrite children_foldl_append.
  by destruct (tape_info m); rewrite ?children_append.
Qed.

Lemma flat2_to_root m : flat2 (to_root m) = true.
Proof.
  unfold flat2. rewrite children_to_root. cbn [forallb].
  rewrite flat_creator_to_element, forallb_app, andb_true_l.
  apply andb_true_iff. split.
  - destruct (tape_info m) as [t|]; [|done].
    change (forallb flat [tape_to_element t] = true). cbn [forallb].
    by rewrite flat_tape_to_element.
  - induction (hashes m) as [|h hs IH]; [done|].
    rewrite fmap_cons. cbn [forallb]. by rewrite flat_to_element.
Qed.

Lemma findall_hash_to_root m :
  findall (to_root m) (lit "hash") = to_element <$> hashes m.
Proof.
  unfold findall. rewrite children_to_root, filter_cons_False.
  2: { rewrite tag_creator_to_element. by vm_compute. }
  rewrite filter_app.
  replace (filter _ (option_list _)) with (@nil Element).
  2: { destruct (tape_info m) as [t|]; [|done].
       change (option_list _) with [tape_to_element t].
       rewrite filter_cons_False; [done|].
       rewrite tag_tape_to_element. by vm_compute. }
  simpl. induction (hashes m) as [|h hs IH]; [done|].
  rewrite fmap_cons, filter_cons_True by apply tag_to_element. by rewrite IH.
Qed.

(** *** The tree that the parser reads *)

Lemma tag_line_ends e : tag (line_ends e) = tag e.
Proof. by destruct e. Qed.

Lemma children_line_ends e : children (line_ends e) = line_ends <$> children e.
Proof. by destruct e. Qed.

Lemma attrib_line_ends e :
  attrib (line_ends e) = (fun kv => (kv.1, attr_value kv.2)) <$> attrib e.
Proof. by destruct e. Qed.

Lemma text_line_ends e : text (line_ends e) = eol <$> text e.
Proof. by destruct e. Qed.

Lemma leaf_line_ends e : leaf (line_ends e) = leaf e.
Proof. unfold leaf. rewrite children_line_ends. by destruct (children e). Qed.

Lemma flat_line_ends e : flat (line_ends e) = flat e.
Proof.
  unfold flat. rewrite children_line_ends.
  induction (children e) as [|c cs IH]; [done|].
  rewrite fmap_cons. cbn [forallb]. by rewrite leaf_line_ends, IH.
Qed.

Lemma flat2_line_ends e : flat2 (line_ends e) = flat2 e.
Proof.
  unfold flat2. rewrite children_line_ends.
  induction (children e) as [|c cs IH]; [done|].
  rewrite fmap_cons. cbn [forallb]. by rewrite flat_line_ends, IH.
Qed.

Lemma find_line_ends e t : find (line_ends e) t = line_ends <$> find e t.
Proof.
  unfold find. rewrite children_line_ends.
  induction (children e) as [|c cs IH]; [done|].
  rewrite fmap_cons. cbn [List.find]. rewrite tag_line_ends.
  by destruct (bool_decide (tag c = t)).
Qed.

Lemma findall_line_ends e t : findall (line_ends e) t = line_ends <$> findall e t.
Proof.
  unfold findall. rewrite children_line_ends.
  induction (children e) as [|c cs IH]; [done|].
  rewrite fmap_cons, !filter_cons, tag_line_ends.
  destruct (decide (tag c = t)); by rewrite ?fmap_cons, IH.
Qed.

Lemma findtext_line_ends e t : findtext (line_ends e) t = eol <$> findtext e t.
Proof.
  unfold findtext. rewrite find_line_ends.
  destruct (find e t) as [c|]; [|done].
  cbn [fmap option_fmap option_map]. rewrite text_line_ends.
  by destruct (text c).
Qed.

(** One entry through [to_element], the parser and [from_element]. *)
Lemma from_element_line_ends h :
  entry_dated h = true ->
  from_element (line_ends (to_element h)) = Ok (wire_entry h).
Proof.
  intros [Hm Hd]%andb_true_iff.
  unfold from_element, wire_entry. rewrite !findtext_line_ends. unfold to_element.
  rewrite !findtext_sub_if_date, !findtext_sub_element, !findtext_sub_if_date,
    !findtext_sub_element, !findtext_new_element.
  decide_tags. cbn [default id fmap option_fmap option_map]. unfold id.
  rewrite eol_str_of_int, int_of_str_of_int. cbn [mbind Result_bind].
  rewrite <- (parse_date_eol_strftime (last_modification_date h)),
    <- (parse_date_eol_strftime (hash_date h)) by done.
  by destruct (last_modification_date h).
Qed.

Lemma load_hashes_line_ends hs :
  forallb entry_dated hs = true ->
  load_hashes (line_ends <$> (to_element <$> hs)) = Ok (wire_entry <$> hs).
Proof.
  induction hs as [|h hs IH]; [done|].
  rewrite !fmap_cons. cbn [load_hashes forallb]. intros [Hh Hhs]%andb_true_iff.
  by rewrite from_element_line_ends, IH.
Qed.

Lemma hashes_from_root_line_ends dc m :
  forallb entry_dated (hashes m) = true ->
  hashes <$> from_root dc (line_ends (to_root m)) = Ok (wire_entry <$> hashes m).
Proof.
  intros Hd. unfold from_root.
  by rewrite findall_line_ends, findall_hash_to_root, load_hashes_line_ends.
Qed.

(** *** Entries that the wire format carries unchanged *)

(** A timestamp that [MHL_FORMAT] carries: a [datetime] value of whole
    seconds, UTC, with a year from 1000. *)
Definition wire_date (d : option datetime) : bool :=
  match d with
  | None => true
  | Some d =>
      valid d && (1000 <=? year d) && (microsecond d =? 0) && bool_decide (tz d = UTC)
  end.

(** An entry whose path is canonical, free of the characters that
    [sanitize_xml_string] removes and of carriage returns, whose digest
    has no carriage return, and whose timestamps are [wire_date]s. *)
Definition wire_clean (h : HashEntry) : bool :=
  bool_decide (normalize_path (file h) = file h)
  && bool_decide (sanitize_xml_string (file h) = file h)
  && forallb (fun c => negb (c =? 13)%N) (file h)
  && forallb (fun c => negb (c =? 13)%N) (xxhash64be h)
  && wire_date (last_modification_date h) && wire_date (hash_date h).

Lemma to_seconds_utc_id d :
  microsecond d = 0 -> tz d = UTC -> to_seconds_utc d = d.
Proof. destruct d. simpl. by intros -> ->. Qed.

Lemma wire_date_dated d : wire_date d = true -> dated d = true.
Proof.
  destruct d as [d|]; [|done]. cbn [wire_date dated].
  by intros [[[Hv _]%andb_true_iff _]%andb_true_iff _]%andb_true_iff.
Qed.

Lemma carried_date_wire d : wire_date d = true -> carried_date d = d.
Proof.
  destruct d as [d|]; [|done]. cbn [wire_date carried_date].
  intros [[[Hv Hy]%andb_true_iff Hus]%andb_true_iff Htz]%andb_true_iff.
  rewrite Hy. apply Z.eqb_eq in Hus. apply bool_decide_eq_true in Htz.
  by rewrite to_seconds_utc_id.
Qed.

Lemma eol_no_cr s : forallb (fun c => negb (c =? 13)%N) s = true -> eol s = s.
Proof.
  intros Hs. apply eol_id, Forall_forall. intros c Hc%list_elem_of_In.
  apply (proj1 (forallb_forall _ _) Hs) in Hc.
  by destruct (N.eqb_spec c 13).
Qed.

Lemma wire_entry_clean h : wire_clean h = true -> wire_entry h = h.
Proof.
  unfold wire_clean, wire_entry.
  intros [[[[[Hn Hs]%andb_true_iff Hc]%andb_true_iff Hx]%andb_true_iff
            Hm]%andb_true_iff Hd]%andb_true_iff.
  apply bool_decide_eq_true in Hn, Hs.
  rewrite Hn, Hs, (eol_no_cr _ Hc), (eol_no_cr _ Hx), Hn, !carried_date_wire by done.
  by destruct h.
Qed.

Lemma wire_entries_clean hs :
  forallb wire_clean hs = true -> wire_entry <$> hs = hs.
Proof.
  induction hs as [|h hs IH]; [done|].
  cbn [forallb]. intros [Hh Hhs]%andb_true_iff.
  by rewrite fmap_cons, wire_entry_clean, IH.
Qed.

(** *** Saving, then loading *)


End Manifest.

#[export] Instance HashEntry_eq_dec : EqDecision HashEntry.
Proof. solve_decision. Defined.

(** *** A manifest as [transfer] builds it *)

(** A text layer for the examples: the document is the tree itself, and
    reading it back gives the tree as a pretty-printed file parses, with
    indentation as the text of every element that has children, no text
    where an empty one was written, and the line ends read. *)
Fixpoint reparsed (e : Element) : Element :=
  let 'Elem t a x cs := e in
  Elem t ((fun kv => (kv.1, attr_value kv.2)) <$> a)
    (match cs with
     | [] => match x with Some [] => None | _ => eol <$> x end
     | _ => Some [10; 32; 32; 32; 32]%N
     end)
    (map reparsed cs).

Definition demo_load := load compose_acute Element (fun e => Ok (reparsed e)).

(** Every write goes through. *)
Definition demo_save (fs : gmap str Element) (m : MHL) (filepath : str)
  : gmap str Element :=
  (save compose_acute Element (fun e => e) (fun _ _ => None) fs m filepath).1.

Definition demo_creator : CreatorInfo :=
  {| ci_name := lit "archivist"; username := lit "archivist"; hostname := lit "vault";
     tool := lit "ltfs-tools 0.1.0"; start_date := None; finish_date := None |}.

(** [hash_date] is [datetime.now(timezone.utc)], here a quarter second
    past 10:30:00. *)
Definition demo_entry : HashEntry :=
  {| file := lit "reel/a001.mov"; size := 1048576; xxhash64be := lit "ef46db3751d8e999";
     last_modification_date :=
       Some {| year := 2024; month := 5; day := 17; hour := 9; minute := 15;
               second := 42; microsecond := 0; tz := UTC |};
     hash_date :=
       Some {| year := 2024; month := 5; day := 17; hour := 10; minute := 30;
               second := 0; microsecond := 250000; tz := UTC |} |}.

(** The same entry with [hash_date] on the whole second. *)
Definition demo_entry_cut : HashEntry :=
  {| file := file demo_entry; size := size demo_entry;
     xxhash64be := xxhash64be demo_entry;
     last_modification_date := last_modification_date demo_entry;
     hash_date :=
       Some {| year := 2024; month := 5; day := 17; hour := 10; minute := 30;
               second := 0; microsecond := 0; tz := UTC |} |}.

Definition demo_mhl (h : HashEntry) : MHL :=
  {| version := lit "1.1"; creator_info := demo_creator;
     tape_info := Some {| ti_name := lit "TAPE01"; serial := []; vendor := []; product := [] |};
     hashes := [h] |}.

Definition demo_path : str := lit "TAPE01_reel_20240517_103000.mhl".


(** A file of the year 999 and a path that ends in a carriage return (the
    [Icon] file of a Mac folder): the date is dropped and the path comes
    back with a line feed. *)
Definition demo_entry_early : HashEntry :=
  {| file := lit "Folder/Icon" ++ [13%N]; size := 0; xxhash64be := lit "ef46db3751d8e999";
     last_modification_date :=
       Some {| year := 999; month := 5; day := 17; hour := 9; minute := 15;
               second := 42; microsecond := 0; tz := UTC |};
     hash_date := None |}.

Example load_save_early_year :
  strftime MHL_FORMAT {| year := 999; month := 5; day := 17; hour := 9; minute := 15;
                         second := 42; microsecond := 0; tz := UTC |}
    = lit "999-05-17T09:15:42Z"
  /\ hashes <$> demo_load demo_creator
                  (demo_save ∅ (demo_mhl demo_entry_early) demo_path) demo_path
     = Ok [ {| file := lit "Folder/Icon" ++ [10%N]; size := 0;
               xxhash64be := lit "ef46db3751d8e999";
               last_modification_date := None; hash_date := None |} ].
Proof. split; by vm_compute. Qed.


(** ** mhl.py: the sanitizer and the blocks around the entries *)

Lemma filter_idemp {A} (P : A -> Prop) `{!forall x, Decision (P x)} (l : list A) :
  filter P (filter P l) = filter P l.
Proof.
  induction l as [|x l IH]; [done|].
  rewrite filter_cons. destruct (decide (P x)); [|done].
  by rewrite filter_cons_True, IH.
Qed.

(** X3.  [sanitize_xml_string] removes the characters of its class and
    nothing else: what it returns has none of them, is a subsequence of
    the argument, and is shorter by exactly the number of characters of
    the class in the argument, so that every other character is kept, in
    its place; it works character by character (the result for [s ++ t]
    is the two results put together), sanitizing again changes nothing,
    and a string without such characters comes back as it is. *)
Theorem sanitize_xml_string_clean (s t : str) :
  Forall (fun c => invalid_xml_char c = false) (sanitize_xml_string s)
  /\ sublist (sanitize_xml_string s) s
  /\ (length (sanitize_xml_string s)
      + length (filter (fun c => invalid_xml_char c = true) s) = length s)%nat
  /\ (forall c, c ∈ s -> invalid_xml_char c = false -> c ∈ sanitize_xml_string s)
  /\ sanitize_xml_string (s ++ t) = sanitize_xml_string s ++ sanitize_xml_string t
  /\ sanitize_xml_string (sanitize_xml_string s) = sanitize_xml_string s
  /\ (Forall (fun c => invalid_xml_char c = false) s -> sanitize_xml_string s = s).
Proof.
  unfold sanitize_xml_string. split_and!.
  - apply Forall_forall. by intros c [Hc _]%list_elem_of_filter.
  - apply sublist_filter.
  - induction s as [|c s IH]; [done|].
    rewrite !filter_cons. destruct (invalid_xml_char c) eqn:Hc.
    + rewrite decide_False, decide_True by done. simpl. lia.
    + rewrite decide_True, decide_False by done. simpl. lia.
  - intros c Hin Hc. by apply list_elem_of_filter.
  - apply filter_app.
  - apply filter_idemp.
  - induction 1 as [|c s' Hc _ IH]; [done|]. by rewrite filter_cons_True, IH.
Qed.

(** Deciding equalities between tag literals. *)
Ltac decide_lits :=
  repeat match goal with
  | |- context [bool_decide (lit ?a = lit ?b)] =>
      let v := eval vm_compute in (bool_decide (lit a = lit b)) in
      change (bool_decide (lit a = lit b)) with v
  end.

Section Blocks.

Variable normalize_path : str -> str.

(** The creator block with its dates as [MHL_FORMAT] carries them. *)
Definition carried_creator (c : CreatorInfo) : CreatorInfo :=
  {| ci_name := ci_name c; username := username c; hostname := hostname c;
     tool := tool c;
     start_date := carried_date (start_date c);
     finish_date := carried_date (finish_date c) |}.

(** What a creator block, a tape block and a manifest look like after
    [to_xml], the parser and [load]: the texts with their line ends read,
    the dates as [MHL_FORMAT] carries them, the version as an attribute
    value is read. *)
Definition wire_creator (c : CreatorInfo) : CreatorInfo :=
  {| ci_name := eol (ci_name c); username := eol (username c);
     hostname := eol (hostname c); tool := eol (tool c);
     start_date := carried_date (start_date c);
     finish_date := carried_date (finish_date c) |}.

Definition wire_tape (t : TapeInfo) : TapeInfo :=
  {| ti_name := eol (ti_name t); serial := eol (serial t);
     vendor := eol (vendor t); product := eol (product t) |}.

Definition wire_manifest (m : MHL) : MHL :=
  {| version := attr_value (version m);
     creator_info := wire_creator (creator_info m);
     tape_info := wire_tape <$> tape_info m;
     hashes := wire_entry normalize_path <$> hashes m |}.

(** A manifest whose timestamps are [datetime] values. *)
Definition manifest_dated (m : MHL) : bool :=
  dated (start_date (creator_info m)) && dated (finish_date (creator_info m))
  && forallb entry_dated (hashes m).

Lemma creator_from_element_to_element c :
  dated (start_date c) = true -> dated (finish_date c) = true ->
  creator_from_element (creator_to_element c) = carried_creator c.
Proof.
  intros Hs Hf.
  unfold creator_from_element, creator_to_element, carried_creator.
  rewrite !findtext_sub_if_date, !findtext_sub_if_nonempty, !findtext_new_element.
  decide_lits. cbv beta iota.
  rewrite <- (parse_date_strftime (start_date c)),
    <- (parse_date_strftime (finish_date c)) by done.
  destruct c as [n u h t s f]; cbn [ci_name username hostname tool start_date finish_date].
  destruct n, u, h, t, s, f; reflexivity.
Qed.

Lemma creator_from_element_line_ends c :
  dated (start_date c) = true -> dated (finish_date c) = true ->
  creator_from_element (line_ends (creator_to_element c)) = wire_creator c.
Proof.
  intros Hs Hf.
  unfold creator_from_element, wire_creator. rewrite !findtext_line_ends.
  unfold creator_to_element.
  rewrite !findtext_sub_if_date, !findtext_sub_if_nonempty, !findtext_new_element.
  decide_lits. cbv beta iota.
  rewrite <- (parse_date_eol_strftime (start_date c)),
    <- (parse_date_eol_strftime (finish_date c)) by done.
  destruct c as [n u h t s f]; cbn [ci_name username hostname tool start_date finish_date].
  destruct n, u, h, t, s, f; reflexivity.
Qed.

Lemma tape_from_element_to_element t :
  tape_from_element (tape_to_element t) = t.
Proof.
  unfold tape_from_element, tape_to_element.
  rewrite !findtext_sub_if_nonempty, !findtext_new_element.
  decide_lits. cbv beta iota.
  destruct t as [n s v p]; cbn [ti_name serial vendor product].
  destruct n, s, v, p; reflexivity.
Qed.

Lemma tape_from_element_line_ends t :
  tape_from_element (line_ends (tape_to_element t)) = wire_tape t.
Proof.
  unfold tape_from_element, wire_tape. rewrite !findtext_line_ends.
  unfold tape_to_element.
  rewrite !findtext_sub_if_nonempty, !findtext_new_element.
  decide_lits. cbv beta iota.
  destruct t as [n s v p]; cbn [ti_name serial vendor product].
  destruct n, s, v, p; reflexivity.
Qed.


Lemma find_not_tag (es : list Element) (t : str) :
  Forall (fun e => tag e <> t) es ->
  List.find (fun c => bool_decide (tag c = t)) es = None.
Proof.
  induction 1 as [|e es He _ IH]; [done|].
  cbn [List.find]. by rewrite bool_decide_eq_false_2.
Qed.

Lemma attrib_to_root m : attrib (to_root normalize_path m) = [(lit "version", version m)].
Proof.
  unfold to_root.
  assert (Hf : forall r hs, attrib (foldl (fun r h => append r (to_element normalize_path h)) r hs)
                     = attrib r).
  { intros r hs. revert r. induction hs as [|h hs IH]; intros r; [done|].
    cbn [foldl]. rewrite IH. by destruct r. }
  rewrite Hf. by destruct (tape_info m).
Qed.

Lemma find_creator_to_root m :
  find (to_root normalize_path m) (lit "creatorinfo")
  = Some (creator_to_element (creator_info m)).
Proof.
  unfold find. rewrite children_to_root. cbn [List.find].
  rewrite tag_creator_to_element. by decide_lits.
Qed.

Lemma find_tape_to_root m :
  find (to_root normalize_path m) (lit "tapeinfo") = tape_to_element <$> tape_info m.
Proof.
  unfold find. rewrite children_to_root. cbn [List.find].
  rewrite tag_creator_to_element. decide_lits.
  assert (Hh : Forall (fun e => tag e <> lit "tapeinfo")
                 (to_element normalize_path <$> hashes m)).
  { apply Forall_fmap, Forall_forall. intros h _. simpl.
    rewrite tag_to_element. by vm_compute. }
  destruct (tape_info m) as [t|].
  - change (option_list (tape_to_element <$> Some t)) with [tape_to_element t].
    cbn [app List.find]. rewrite tag_tape_to_element. by decide_lits.
  - change (option_list (tape_to_element <$> None)) with (@nil Element).
    cbn [app]. by rewrite find_not_tag.
Qed.

Lemma from_root_line_ends dc m :
  manifest_dated m = true ->
  from_root normalize_path dc (line_ends (to_root normalize_path m))
  = Ok (wire_manifest m).
Proof.
  intros [[Hs Hf]%andb_true_iff Hh]%andb_true_iff. unfold from_root.
  rewrite findall_line_ends, findall_hash_to_root, load_hashes_line_ends by done.
  unfold get. rewrite attrib_line_ends, attrib_to_root, !find_line_ends,
    find_creator_to_root, find_tape_to_root.
  cbn [fmap list_fmap option_fmap option_map List.find fst snd].
  decide_lits. cbn [snd mbind Result_bind]. unfold wire_manifest. f_equal.
  rewrite creator_from_element_line_ends by done. f_equal.
  destruct (tape_info m) as [t|]; [|done].
  cbn [fmap option_fmap option_map]. by rewrite tape_from_element_line_ends.
Qed.

Variable Doc : Type.
Variable xml_write : Element -> Doc.
Variable xml_read : Doc -> Result Element.
Variable write_fault : str -> Doc -> option (exn * option Doc).


End Blocks.


End MHL.

(** ** transfer.py: the file trees and phases 1 and 3 *)

Module Transfer.
Import Datetime PyStr.

(** The outcome of a file system call: a value, or [OSError(msg)]. *)
Inductive Try (A : Type) : Type :=
| Got (a : A)
| Err (msg : str).
Arguments Got {A} a.
Arguments Err {A} msg.

(** [os.stat_result], with the two times as the datetimes that
    [datetime.fromtimestamp(t, tz=timezone.utc)] makes of them. *)
Record Stat := {
  st_size : Z;
  st_atime : datetime;
  st_mtime : datetime
}.

(** What a walk finds at a path: whether [is_file()] holds, what [stat()]
    answers and what reading the file gives. *)
Record Node := {
  is_file : bool;
  stat : Try Stat;
  content : Try bytes
}.

(** A directory as [rglob] walks it: the paths relative to the root, in
    scan order, each with what is found there. *)
Abbreviation Tree := (list (str * Node)).

(** A Python [dict] with [str] keys: the items in insertion order. *)
Fixpoint dict_set {V} (k : str) (v : V) (d : list (str * V)) : list (str * V) :=
  match d with
  | [] => [(k, v)]
  | (k', v') :: d' =>
      if decide (k' = k) then (k, v) :: d' else (k', v') :: dict_set k v d'
  end.

Fixpoint dict_get {V} (k : str) (d : list (str * V)) : option V :=
  match d with
  | [] => None
  | (k', v') :: d' => if decide (k' = k) then Some v' else dict_get k d'
  end.

Definition keys {V} (d : list (str * V)) : list str := fst <$> d.

(** The ledger of phase 1: canonical path to [(file_hash, file_size)]. *)
Abbreviation Ledger := (list (str * (str * Z))).

(** The dataclass [TransferResult]; the phase durations are in seconds. *)
Record TransferResult := {
  source : str;
  destination : str;
  tape_name : str;
  start_time : datetime;
  end_time : datetime;
  files_total : Z;
  files_transferred : Z;
  files_verified : Z;
  files_failed : Z;
  bytes_total : Z;
  failed_files : list str;
  mhl_path : option str;
  log_path : option str;
  catalog_path : option str;
  phase1_duration : Q;
  phase2_duration : Q;
  phase3_duration : Q;
  phase4_duration : Q;
  phase5_duration : Q
}.

(** [TransferResult(source, destination, tape_name, start_time, end_time)]:
    the other fields take their defaults. *)
Definition new_result (src dst tape : str) (start : datetime) : TransferResult :=
  {| source := src; destination := dst; tape_name := tape;
     start_time := start; end_time := start;
     files_total := 0; files_transferred := 0; files_verified := 0; files_failed := 0;
     bytes_total := 0; failed_files := [];
     mhl_path := None; log_path := None; catalog_path := None;
     phase1_duration := 0; phase2_duration := 0; phase3_duration := 0;
     phase4_duration := 0; phase5_duration := 0 |}.

(** [result.files_verified += 1] *)
Definition count_verified (r : TransferResult) : TransferResult :=
  {| source := source r; destination := destination r; tape_name := tape_name r;
     start_time := start_time r; end_time := end_time r;
     files_total := files_total r; files_transferred := files_transferred r;
     files_verified := files_verified r + 1; files_failed := files_failed r;
     bytes_total := bytes_total r; failed_files := failed_files r;
     mhl_path := mhl_path r; log_path := log_path r; catalog_path := catalog_path r;
     phase1_duration := phase1_duration r; phase2_duration := phase2_duration r;
     phase3_duration := phase3_duration r; phase4_duration := phase4_duration r;
     phase5_duration := phase5_duration r |}.

(** [result.files_failed += 1; result.failed_files.append(msg)] *)
Definition count_failed (r : TransferResult) (msg : str) : TransferResult :=
  {| source := source r; destination := destination r; tape_name := tape_name r;
     start_time := start_time r; end_time := end_time r;
     files_total := files_total r; files_transferred := files_transferred r;
     files_verified := files_verified r; files_failed := files_failed r + 1;
     bytes_total := bytes_total r; failed_files := failed_files r ++ [msg];
     mhl_path := mhl_path r; log_path := log_path r; catalog_path := catalog_path r;
     phase1_duration := phase1_duration r; phase2_duration := phase2_duration r;
     phase3_duration := phase3_duration r; phase4_duration := phase4_duration r;
     phase5_duration := phase5_duration r |}.

(** [check_source(source)]: the regular files and the sizes of those whose
    [stat] answers. *)
Definition check_source (src : Tree) : Z * Z :=
  foldl (fun '(file_count, total_size) '(_, node) =>
           if is_file node then
             (file_count + 1,
              match stat node with
              | Got st => total_size + st_size st
              | Err _ => total_size
              end)
           else (file_count, total_size))
        (0, 0) src.

(** What phase 1 leaves: the ledger, the excluded paths, the warnings it
    printed and the bytes it counted. *)
Record Hashed := {
  source_hashes : Ledger;
  excluded_files : list str;
  warnings : list str;
  bytes_processed : Z
}.

Section Pipeline.

Context `{Hash.XXH64}.

(** [utils.normalize_path]: Unicode NFC normalisation. *)
Variable normalize_path : str -> str.

(** [fnmatch.fnmatch(name, pattern)] *)
Variable fnmatch : str -> str -> bool.

(** One pattern of [_should_exclude]. *)
Definition exclude_match (path_str : str) (pattern : str) : bool :=
  let path_parts := parts path_str in
  let wild := contains (lit "*") pattern || contains (lit "?") pattern in
  if endswith pattern (lit "/") then
    let dir_pattern := removelast pattern in
    existsb (fun part => bool_decide (part = dir_pattern) || fnmatch part dir_pattern)
            path_parts
  else if wild && contains (lit "/") pattern then fnmatch path_str pattern
  else if wild then existsb (fun part => fnmatch part pattern) path_parts
  else contains pattern path_str.

(** [_should_exclude(path, patterns)] *)
Definition should_exclude (path_str : str) (patterns : list str) : bool :=
  existsb (exclude_match path_str) patterns.

(** [hash_file(path)]: [stat], then the content through the hasher, in
    chunks of [DEFAULT_CHUNK_SIZE]; a read of that size is taken to find
    its memory, so that the last branch is not reached
    ([hash_file_content]). *)
Definition hash_file (node : Node) : Try str :=
  match stat node with
  | Err e => Err e
  | Got st =>
      match content node with
      | Err e => Err e
      | Got data =>
          match Hash.hash_file Hash.roomy (st_size st) data Hash.DEFAULT_CHUNK_SIZE with
          | Ok (file_hash, _) => Got file_hash
          | Raise _ => Err []
          end
      end
  end.

(** The body of the loop of phase 1. *)
Definition phase1_file (excludes : list str) (acc : Hashed) (entry : str * Node)
  : Hashed :=
  let '(rel_path, node) := entry in
  if negb (is_file node) then acc
  else if should_exclude rel_path excludes then
    {| source_hashes := source_hashes acc;
       excluded_files := excluded_files acc ++ [rel_path];
       warnings := warnings acc; bytes_processed := bytes_processed acc |}
  else
    match stat node with
    | Err e =>
        {| source_hashes := source_hashes acc; excluded_files := excluded_files acc;
           warnings := warnings acc ++
             [lit "[yellow]Warning:[/yellow] Could not hash " ++ rel_path ++ lit ": " ++ e];
           bytes_processed := bytes_processed acc |}
    | Got st =>
        let file_size := st_size st in
        match hash_file node with
        | Err e =>
            {| source_hashes := source_hashes acc; excluded_files := excluded_files acc;
               warnings := warnings acc ++
                 [lit "[yellow]Warning:[/yellow] Could not hash " ++ rel_path ++ lit ": " ++ e];
               bytes_processed := bytes_processed acc |}
        | Got file_hash =>
            {| source_hashes :=
                 dict_set (normalize_path rel_path) (file_hash, file_size) (source_hashes acc);
               excluded_files := excluded_files acc;
               warnings := warnings acc;
               bytes_processed := bytes_processed acc + file_size |}
        end
    end.

(** Phase 1: hash the source files. *)
Definition phase1 (excludes : list str) (src : Tree) : Hashed :=
  foldl (phase1_file excludes)
        {| source_hashes := []; excluded_files := []; warnings := []; bytes_processed := 0 |}
        src.

(** The body of the walk of phase 3; [bytes_verified] only feeds the
    progress bar and is left out. *)
Definition phase3_file (ledger : Ledger) (r : TransferResult) (entry : str * Node)
  : TransferResult :=
  let '(p, node) := entry in
  if negb (is_file node) then r
  else
    let rel_path := normalize_path p in
    match dict_get rel_path ledger with
    | None => r
    | Some (source_hash, expected_size) =>
        match hash_file node with
        | Err e => count_failed r (rel_path ++ lit " (read error: " ++ e ++ lit ")")
        | Got dest_hash =>
            match stat node with
            | Err e => count_failed r (rel_path ++ lit " (read error: " ++ e ++ lit ")")
            | Got _ =>
                if decide (source_hash = dest_hash) then count_verified r
                else count_failed r (rel_path ++ lit " (hash mismatch)")
            end
        end
    end.

(** The set [dest_files] of the missing check. *)
Definition dest_files (dst : Tree) : list str :=
  (fun e => normalize_path e.1) <$> filter (fun e => is_file e.2 = true) dst.

(** The missing check over the keys of the ledger. *)
Definition phase3_missing (dest : list str) (r : TransferResult) (rel_path : str)
  : TransferResult :=
  if decide (rel_path ∈ dest) then r
  else count_failed r (rel_path ++ lit " (missing)").

(** Phase 3 up to the missing check. *)
Definition phase3 (ledger : Ledger) (dst : Tree) (r : TransferResult) : TransferResult :=
  foldl (phase3_missing (dest_files dst))
        (foldl (phase3_file ledger) r dst)
        (keys ledger).


(** *** The console while the loops run *)

(** What [console.print(text)] raises, if anything.  [rich] reads the
    square brackets of a text as markup, and a closing tag that closes
    nothing, as the [[/b]] of the path [a[/b].txt], is a [MarkupError]. *)
Variable print_fault : str -> option exn.

(** What drawing the progress row raises for a description, if anything:
    the description is rendered as markup too.  While a loop runs the row
    is drawn by the refresh thread, whose exceptions do not reach the job;
    the job draws it once, with the description then current, when it
    leaves the [with Progress(...)] block. *)
Variable describe_fault : str -> option exn.

Definition console_print (text : str) : Result unit :=
  match print_fault text with Some e => Raise e | None => Ok tt end.

Definition progress_stop (description : str) : Result unit :=
  match describe_fault description with Some e => Raise e | None => Ok tt end.

(** The texts with a path in them (lines 215, 225, 400, 411 and 431). *)
Definition hashing_description (rel_path : str) : str :=
  lit "Hashing: " ++ take 60 rel_path.

Definition could_not_hash (rel_path e : str) : str :=
  lit "[yellow]Warning:[/yellow] Could not hash " ++ rel_path ++ lit ": " ++ e.

Definition verifying_description (rel_path : str) : str :=
  lit "Verifying: " ++ take 60 rel_path.

Definition mismatch_text (rel_path : str) : str := lit "[red]MISMATCH:[/red] " ++ rel_path.

Definition missing_text (rel_path : str) : str := lit "[red]MISSING:[/red] " ++ rel_path.

(** The loop of phase 1 with its console: the description of the progress
    row when the loop ends or stops, and the ledger or the exception of a
    [console.print]. *)
Fixpoint phase1_loop (excludes : list str) (src : Tree) (acc : Hashed)
    (description : str) : str * Result Hashed :=
  match src with
  | [] => (description, Ok acc)
  | (rel_path, node) :: src' =>
      if negb (is_file node) then phase1_loop excludes src' acc description
      else if should_exclude rel_path excludes then
        phase1_loop excludes src'
          {| source_hashes := source_hashes acc;
             excluded_files := excluded_files acc ++ [rel_path];
             warnings := warnings acc; bytes_processed := bytes_processed acc |}
          description
      else
        match stat node with
        | Err e =>
            match console_print (could_not_hash rel_path e) with
            | Raise x => (description, Raise x)
            | Ok _ =>
                phase1_loop excludes src'
                  {| source_hashes := source_hashes acc;
                     excluded_files := excluded_files acc;
                     warnings := warnings acc ++ [could_not_hash rel_path e];
                     bytes_processed := bytes_processed acc |}
                  description
            end
        | Got st =>
            let file_size := st_size st in
            let description := hashing_description rel_path in
            match hash_file node with
            | Err e =>
                match console_print (could_not_hash rel_path e) with
                | Raise x => (description, Raise x)
                | Ok _ =>
                    phase1_loop excludes src'
                      {| source_hashes := source_hashes acc;
                         excluded_files := excluded_files acc;
                         warnings := warnings acc ++ [could_not_hash rel_path e];
                         bytes_processed := bytes_processed acc |}
                      description
                end
            | Got file_hash =>
                phase1_loop excludes src'
                  {| source_hashes :=
                       dict_set (normalize_path rel_path) (file_hash, file_size)
                         (source_hashes acc);
                     excluded_files := excluded_files acc;
                     warnings := warnings acc;
                     bytes_processed := bytes_processed acc + file_size |}
                  description
            end
        end
  end.

(** Phase 1 as the job runs it (lines 188-225): the loop inside the
    [with Progress(...)] block, whose end draws the row a last time, also
    when the loop was left by an exception. *)
Definition phase1_run (excludes : list str) (src : Tree) : Result Hashed :=
  let '(description, outcome) :=
    phase1_loop excludes src
      {| source_hashes := []; excluded_files := []; warnings := []; bytes_processed := 0 |}
      (lit "Hashing") in
  progress_stop description;; outcome.

(** The walk of phase 3 with its console (lines 386-417). *)
Fixpoint phase3_walk_loop (ledger : Ledger) (dst : Tree) (r : TransferResult)
    (description : str) : str * Result TransferResult :=
  match dst with
  | [] => (description, Ok r)
  | (p, node) :: dst' =>
      if negb (is_file node) then phase3_walk_loop ledger dst' r description
      else
        let rel_path := normalize_path p in
        match dict_get rel_path ledger with
        | None => phase3_walk_loop ledger dst' r description
        | Some (source_hash, expected_size) =>
            let description := verifying_description rel_path in
            match hash_file node with
            | Err e =>
                phase3_walk_loop ledger dst'
                  (count_failed r (rel_path ++ lit " (read error: " ++ e ++ lit ")"))
                  description
            | Got dest_hash =>
                match stat node with
                | Err e =>
                    phase3_walk_loop ledger dst'
                      (count_failed r (rel_path ++ lit " (read error: " ++ e ++ lit ")"))
                      description
                | Got _ =>
                    if decide (source_hash = dest_hash)
                    then phase3_walk_loop ledger dst' (count_verified r) description
                    else
                      let r := count_failed r (rel_path ++ lit " (hash mismatch)") in
                      match console_print (mismatch_text rel_path) with
                      | Raise x => (description, Raise x)
                      | Ok _ => phase3_walk_loop ledger dst' r description
                      end
                end
            end
        end
  end.

(** The missing check with its console (lines 426-431). *)
Fixpoint phase3_missing_loop (dest : list str) (ks : list str) (r : TransferResult)
  : Result TransferResult :=
  match ks with
  | [] => Ok r
  | rel_path :: ks' =>
      if decide (rel_path ∈ dest) then phase3_missing_loop dest ks' r
      else
        let r := count_failed r (rel_path ++ lit " (missing)") in
        console_print (missing_text rel_path);;
        phase3_missing_loop dest ks' r
  end.

(** Phase 3 up to the missing check as the job runs it (lines 370-431):
    both loops are inside the [with Progress(...)] block. *)
Definition phase3_run (ledger : Ledger) (dst : Tree) (r : TransferResult)
  : Result TransferResult :=
  let '(description, walked) := phase3_walk_loop ledger dst r (lit "Verifying") in
  progress_stop description;;
  r ← walked;
  phase3_missing_loop (dest_files dst) (keys ledger) r.
(** *** Dictionaries *)

Ltac dict_simpl := cbn [dict_get dict_set keys fmap list_fmap fst snd].

Lemma dict_get_set {V} k (v : V) d : dict_get k (dict_set k v d) = Some v.
Proof.
  induction d as [|[k' v'] d IH]; dict_simpl.
  - by rewrite decide_True.
  - destruct (decide (k' = k)) as [->|Hne]; dict_simpl.
    + by rewrite decide_True.
    + by rewrite decide_False.
Qed.

Lemma dict_get_set_ne {V} k k' (v : V) d :
  k <> k' -> dict_get k' (dict_set k v d) = dict_get k' d.
Proof.
  intros Hne. induction d as [|[k1 v1] d IH]; dict_simpl.
  - by rewrite decide_False.
  - destruct (decide (k1 = k)) as [->|Hne1]; dict_simpl.
    + by rewrite !decide_False.
    + by rewrite IH.
Qed.

Lemma keys_dict_set {V} k (v : V) d :
  keys (dict_set k v d) = if decide (k ∈ keys d) then keys d else keys d ++ [k].
Proof.
  unfold keys. induction d as [|[k1 v1] d IH]; dict_simpl.
  - rewrite decide_False; [done|]. apply not_elem_of_nil.
  - destruct (decide (k1 = k)) as [->|Hne]; dict_simpl.
    + rewrite decide_True; [done|]. apply list_elem_of_here.
    + rewrite IH. destruct (decide (k ∈ fst <$> d)) as [Hin|Hnin].
      * rewrite decide_True; [done|]. by apply list_elem_of_further.
      * rewrite decide_False; [done|].
        intros [?|?]%elem_of_cons; congruence.
Qed.

Lemma NoDup_keys_dict_set {V} k (v : V) d : NoDup (keys d) -> NoDup (keys (dict_set k v d)).
Proof.
  intros Hd. rewrite keys_dict_set. destruct (decide (k ∈ keys d)); [done|].
  apply NoDup_app. split_and!; [done| |apply NoDup_singleton].
  intros x Hx ->%list_elem_of_singleton. done.
Qed.

Lemma dict_get_Some_keys {V} k (d : list (str * V)) :
  is_Some (dict_get k d) <-> k ∈ keys d.
Proof.
  unfold keys. induction d as [|[k1 v1] d IH]; dict_simpl.
  - split; [by intros [? ?]|by intros ?%elem_of_nil].
  - destruct (decide (k1 = k)) as [->|Hne].
    + split; [intros _; apply list_elem_of_here|by eexists].
    + rewrite IH. split; [apply list_elem_of_further|].
      intros [?|?]%elem_of_cons; congruence.
Qed.

Lemma dict_get_elem_of {V} k (v : V) d : dict_get k d = Some v -> (k, v) ∈ d.
Proof.
  induction d as [|[k1 v1] d IH]; dict_simpl; [done|].
  destruct (decide (k1 = k)) as [->|Hne].
  - intros [= ->]. apply list_elem_of_here.
  - intros ?. apply list_elem_of_further. auto.
Qed.

(** What a run of assignments leaves in a dictionary. *)
Definition dict_update {V} (d : list (str * V)) (kvs : list (str * V)) : list (str * V) :=
  foldl (fun d kv => dict_set kv.1 kv.2 d) d kvs.

Lemma dict_update_snoc {V} (d : list (str * V)) kvs k v :
  dict_update d (kvs ++ [(k, v)]) = dict_set k v (dict_update d kvs).
Proof. unfold dict_update. by rewrite foldl_snoc. Qed.

Lemma NoDup_keys_dict_update {V} (d : list (str * V)) kvs :
  NoDup (keys d) -> NoDup (keys (dict_update d kvs)).
Proof.
  induction kvs as [|[k v] kvs IH] using rev_ind; [done|].
  intros Hd. rewrite dict_update_snoc. apply NoDup_keys_dict_set. auto.
Qed.

Lemma keys_app {V} (a b : list (str * V)) : keys (a ++ b) = keys a ++ keys b.
Proof. apply fmap_app. Qed.

Lemma keys_dict_update {V} (d : list (str * V)) kvs k :
  k ∈ keys (dict_update d kvs) <-> k ∈ keys d \/ k ∈ keys kvs.
Proof using Type.
  clear normalize_path fnmatch print_fault describe_fault. revert k. induction kvs as [|[k1 v1] kvs IH] using rev_ind; intros k.
  - change (keys (@nil (str * V))) with (@nil str). rewrite elem_of_nil.
    unfold dict_update. simpl. tauto.
  - rewrite dict_update_snoc, keys_dict_set, keys_app.
    change (keys [(k1, v1)]) with [k1].
    destruct (decide (k1 ∈ keys (dict_update d kvs))) as [Hin|Hnin].
    + rewrite IH, elem_of_app, list_elem_of_singleton. apply IH in Hin.
      split; [tauto|]. intros [?|[?| ->]]; tauto.
    + rewrite !elem_of_app, list_elem_of_singleton, IH. tauto.
Qed.

Lemma dict_get_dict_update {V} (d : list (str * V)) kvs k v :
  dict_get k (dict_update d kvs) = Some v -> dict_get k d = Some v \/ (k, v) ∈ kvs.
Proof.
  induction kvs as [|[k1 v1] kvs IH] using rev_ind; [by left|].
  rewrite dict_update_snoc. destruct (decide (k1 = k)) as [->|Hne].
  - rewrite dict_get_set. intros [= ->]. right.
    apply elem_of_app. right. apply list_elem_of_here.
  - rewrite dict_get_set_ne by done. intros [?|?]%IH; [by left|right].
    apply elem_of_app. by left.
Qed.

Lemma length_dict_update_fresh {V} (kvs : list (str * V)) :
  NoDup (keys kvs) -> dict_update [] kvs = kvs.
Proof.
  induction kvs as [|[k v] kvs IH] using rev_ind; [done|].
  rewrite keys_app. intros (Hk & Hfresh & _)%NoDup_app.
  rewrite dict_update_snoc, IH by done.
  assert (Hnin : k ∉ keys kvs).
  { intros Hin. apply (Hfresh k Hin). apply list_elem_of_here. }
  clear -Hnin. induction kvs as [|[k1 v1] kvs IH]; simpl; [done|].
  unfold keys in Hnin. simpl in Hnin. apply not_elem_of_cons in Hnin as [Hne Hnin].
  rewrite decide_False by done. by rewrite IH.
Qed.

Lemma length_dict_update_le {V} (d : list (str * V)) kvs :
  (length (dict_update d kvs) <= length d + length kvs)%nat.
Proof.
  induction kvs as [|[k v] kvs IH] using rev_ind; [simpl; lia|].
  rewrite dict_update_snoc, length_app. simpl.
  assert (Hs : forall d0 : list (str * V), (length (dict_set k v d0) <= S (length d0))%nat).
  { clear. induction d0 as [|[k1 v1] d0 IH]; simpl; [lia|].
    destruct (decide (k1 = k)); simpl; lia. }
  specialize (Hs (dict_update d kvs)). lia.
Qed.

(** *** Phase 1 *)

(** The assignment to the ledger that one entry of the walk causes, if
    any: the entry is a regular file, not excluded, and [stat] and
    [hash_file] both answer. *)
Definition ledgered (excludes : list str) (entry : str * Node)
  : option (str * (str * Z)) :=
  if is_file entry.2 && negb (should_exclude entry.1 excludes) then
    match stat entry.2, hash_file entry.2 with
    | Got st, Got h => Some (normalize_path entry.1, (h, st_size st))
    | _, _ => None
    end
  else None.

Definition regular_files (t : Tree) : Tree := filter (fun e => is_file e.2 = true) t.

Lemma phase1_snoc excludes src e :
  phase1 excludes (src ++ [e]) = phase1_file excludes (phase1 excludes src) e.
Proof. unfold phase1. by rewrite foldl_snoc. Qed.

Lemma regular_files_snoc t e :
  regular_files (t ++ [e]) = regular_files t ++ (if is_file e.2 then [e] else []).
Proof.
  unfold regular_files. rewrite filter_app. f_equal.
  destruct (is_file e.2) eqn:E.
  - by rewrite filter_cons_True.
  - rewrite filter_cons_False; [done|]. by rewrite E.
Qed.

Lemma phase1_spec excludes src :
  source_hashes (phase1 excludes src) = dict_update [] (omap (ledgered excludes) src)
  /\ (length (excluded_files (phase1 excludes src))
      + length (warnings (phase1 excludes src))
      + length (omap (ledgered excludes) src)
      = length (regular_files src))%nat.
Proof.
  induction src as [|[p node] src [IHl IHc]] using rev_ind; [done|].
  rewrite phase1_snoc, omap_app, regular_files_snoc, !length_app.
  cbn [omap list_omap].
  destruct (ledgered excludes (p, node)) as [[k [h sz]]|] eqn:E;
    unfold ledgered in E; unfold phase1_file; cbn [fst snd] in *;
    destruct (is_file node); cbn [negb andb] in *; try discriminate;
    destruct (should_exclude p excludes); cbn [negb andb] in *; try discriminate;
    try destruct (stat node) as [st|e]; try discriminate;
    try destruct (hash_file node) as [h'|e]; try discriminate;
    try (injection E as <- <- <-);
    cbn [source_hashes excluded_files warnings];
    rewrite ?length_app, ?dict_update_snoc, ?IHl, ?app_nil_r;
    (split; [done|simpl; lia]).
Qed.

Lemma check_source_count src :
  (check_source src).1 = Z.of_nat (length (regular_files src)).
Proof.
  unfold check_source.
  induction src as [|[p node] src IH] using rev_ind; [done|].
  rewrite foldl_snoc, regular_files_snoc, length_app.
  destruct (foldl _ _ src) as [c t]. simpl in *.
  destruct (is_file node); simpl; lia.
Qed.

(** Every entry of the ledger was put there for some source file. *)
Lemma ledger_origin excludes src k h sz :
  dict_get k (source_hashes (phase1 excludes src)) = Some (h, sz) ->
  exists p node, (p, node) ∈ src /\ ledgered excludes (p, node) = Some (k, (h, sz)).
Proof.
  rewrite (proj1 (phase1_spec excludes src)).
  intros [?|Hin]%dict_get_dict_update; [done|].
  apply list_elem_of_omap in Hin as ([p node] & Hin & E). eauto.
Qed.

Lemma ledger_keys excludes src k :
  k ∈ keys (source_hashes (phase1 excludes src)) <->
  exists p node v, (p, node) ∈ src /\ ledgered excludes (p, node) = Some (k, v).
Proof.
  rewrite (proj1 (phase1_spec excludes src)), keys_dict_update.
  change (keys (@nil (str * (str * Z)))) with (@nil str). rewrite elem_of_nil.
  unfold keys. rewrite list_elem_of_fmap. split.
  - intros [[]|([k' v] & -> & Hin)].
    apply list_elem_of_omap in Hin as ([p node] & Hin & E). eauto 6.
  - intros (p & node & v & Hin & E). right. exists (k, v). split; [done|].
    apply list_elem_of_omap. eauto.
Qed.

Lemma NoDup_ledger_keys excludes src :
  NoDup (keys (source_hashes (phase1 excludes src))).
Proof.
  rewrite (proj1 (phase1_spec excludes src)).
  apply NoDup_keys_dict_update. constructor.
Qed.

(** *** Phase 3 *)

Lemma hash_file_content node st data :
  stat node = Got st -> content node = Got data ->
  hash_file node = Got (Hash.hash_bytes data).
Proof.
  intros Hs Hc. unfold hash_file. rewrite Hs, Hc.
  assert (1 <= Hash.DEFAULT_CHUNK_SIZE < 2 ^ 63) as Hn by (by vm_compute).
  destruct (Hash.digest_of_file_content Hash.roomy data Hash.DEFAULT_CHUNK_SIZE Hn eq_refl
              (st_size st)) as [calls ->].
  done.
Qed.

(** Every destination file that the ledger knows hashes to the digest the
    ledger holds for it, and its [stat] answers. *)
Definition reads_back (ledger : Ledger) (dst : Tree) : Prop :=
  forall q m h sz,
    (q, m) ∈ dst -> is_file m = true ->
    dict_get (normalize_path q) ledger = Some (h, sz) ->
    hash_file m = Got h /\ exists st, stat m = Got st.

(** The destination files that the walk compares. *)
Definition compared (ledger : Ledger) (dst : Tree) : Tree :=
  filter (fun e => is_file e.2 = true /\ is_Some (dict_get (normalize_path e.1) ledger)) dst.

(** The keys that the missing check reports. *)
Definition missing (ledger : Ledger) (dst : Tree) : list str :=
  filter (fun k => k ∉ dest_files dst) (keys ledger).

Lemma phase3_walk ledger dst r :
  reads_back ledger dst ->
  foldl (phase3_file ledger) r dst
  = Nat.iter (length (compared ledger dst)) count_verified r.
Proof.
  revert r. induction dst as [|[q m] dst IH]; intros r Hrb; [done|].
  assert (Hrb' : reads_back ledger dst).
  { intros q' m' h sz Hin. apply Hrb. by apply list_elem_of_further. }
  cbn [foldl]. rewrite IH by done. unfold compared. rewrite filter_cons.
  unfold phase3_file. cbn [fst snd].
  destruct (is_file m) eqn:Hf; cbn [negb].
  2: { rewrite decide_False; [done|]. intros [? _]. done. }
  destruct (dict_get (normalize_path q) ledger) as [[h sz]|] eqn:Hg.
  2: { rewrite decide_False; [done|]. intros [_ [? ?]]. done. }
  rewrite decide_True by (split; [done|by eexists]).
  destruct (Hrb q m h sz) as [Hh [st Hst]]; [apply list_elem_of_here|done|done|].
  rewrite Hh, Hst, decide_True by done.
  cbn [length]. by rewrite Nat.iter_succ_r.
Qed.

Lemma phase3_missing_fold dest ks r :
  foldl (phase3_missing dest) r ks
  = foldl count_failed r
      ((fun k => k ++ lit " (missing)") <$> filter (fun k => k ∉ dest) ks).
Proof.
  revert r. induction ks as [|k ks IH]; intros r; [done|].
  cbn [foldl]. rewrite IH, filter_cons. unfold phase3_missing.
  destruct (decide (k ∈ dest)).
  - by rewrite decide_False by auto.
  - by rewrite decide_True by done.
Qed.

Lemma phase3_spec ledger dst r :
  reads_back ledger dst ->
  phase3 ledger dst r
  = foldl count_failed
      (Nat.iter (length (compared ledger dst)) count_verified r)
      ((fun k => k ++ lit " (missing)") <$> missing ledger dst).
Proof.
  intros Hrb. unfold phase3. by rewrite phase3_missing_fold, phase3_walk.
Qed.

Lemma files_verified_iter n r :
  files_verified (Nat.iter n count_verified r) = files_verified r + Z.of_nat n
  /\ files_failed (Nat.iter n count_verified r) = files_failed r
  /\ failed_files (Nat.iter n count_verified r) = failed_files r.
Proof.
  induction n as [|n (IH1 & IH2 & IH3)]; [simpl; split_and!; [lia|done|done]|].
  rewrite Nat.iter_succ. cbn [count_verified files_verified files_failed failed_files].
  split_and!; [lia|done|done].
Qed.

Lemma files_failed_foldl msgs r :
  files_verified (foldl count_failed r msgs) = files_verified r
  /\ files_failed (foldl count_failed r msgs) = files_failed r + Z.of_nat (length msgs)
  /\ failed_files (foldl count_failed r msgs) = failed_files r ++ msgs.
Proof.
  revert r. induction msgs as [|m msgs IH]; intros r.
  - simpl. rewrite app_nil_r. split_and!; [done|lia|done].
  - cbn [foldl]. destruct (IH (count_failed r m)) as (-> & -> & ->).
    cbn [count_failed files_verified files_failed failed_files length].
    rewrite <- app_assoc. split_and!; [done|lia|done].
Qed.

Lemma NoDup_fmap_filter {A B} (f : A -> B) (P : A -> Prop) `{!forall x, Decision (P x)} l :
  NoDup (f <$> l) -> NoDup (f <$> filter P l).
Proof.
  induction l as [|x l IH]; [done|].
  rewrite fmap_cons, NoDup_cons, filter_cons. intros [Hx Hl].
  destruct (decide (P x)); [|auto].
  rewrite fmap_cons, NoDup_cons. split; [|auto].
  intros (y & E & [_ Hy]%list_elem_of_filter)%list_elem_of_fmap.
  apply Hx. rewrite E. by apply list_elem_of_fmap_2.
Qed.

Lemma NoDup_fmap_elem_inj {A B} (f : A -> B) l x y :
  NoDup (f <$> l) -> x ∈ l -> y ∈ l -> f x = f y -> x = y.
Proof.
  induction l as [|z l IH]; [by intros _ ?%elem_of_nil|].
  rewrite fmap_cons, NoDup_cons. intros [Hz Hl] Hx Hy E.
  apply elem_of_cons in Hx as [->|Hx]; apply elem_of_cons in Hy as [->|Hy]; auto.
  - destruct Hz. rewrite E. by apply list_elem_of_fmap_2.
  - destruct Hz. rewrite <- E. by apply list_elem_of_fmap_2.
Qed.

Lemma compared_regular ledger dst :
  compared ledger dst
  = filter (fun e => is_Some (dict_get (normalize_path e.1) ledger)) (regular_files dst).
Proof.
  unfold compared, regular_files. rewrite list_filter_filter.
  induction dst as [|e dst IH]; [done|].
  rewrite !filter_cons, IH.
  destruct (decide (is_file e.2 = true /\ is_Some (dict_get (normalize_path e.1) ledger)))
    as [[? ?]|Hn].
  - by rewrite decide_True.
  - rewrite decide_False; [done|]. intros [? ?]. by apply Hn.
Qed.

(** With one destination file per canonical path, the walk compares as
    many files as the ledger has keys on the destination. *)
Lemma length_compared ledger dst :
  NoDup (keys ledger) -> NoDup (dest_files dst) ->
  length (compared ledger dst)
  = length (filter (fun k => k ∈ dest_files dst) (keys ledger)).
Proof.
  intros Hk Hd.
  rewrite <- (length_fmap (fun e : str * Node => normalize_path e.1)).
  apply Permutation_length, NoDup_Permutation.
  - rewrite compared_regular. by apply NoDup_fmap_filter.
  - by apply NoDup_filter.
  - intros k. rewrite list_elem_of_filter, list_elem_of_fmap, compared_regular.
    split.
    + intros (e & -> & [Hs Hin]%list_elem_of_filter). split.
      * by apply (list_elem_of_fmap_2 (fun e : str * Node => normalize_path e.1)).
      * by apply dict_get_Some_keys.
    + intros [(e & -> & Hin)%list_elem_of_fmap Hkey]. exists e. split; [done|].
      apply list_elem_of_filter. split; [|done]. by apply dict_get_Some_keys.
Qed.

Lemma length_filter_complement {A} (P : A -> Prop) `{!forall x, Decision (P x)} (l : list A) :
  (length (filter P l) + length (filter (fun x => ~ P x) l) = length l)%nat.
Proof.
  rewrite <- length_app. apply Permutation_length, filter_app_complement.
Qed.

(** *** The phases with their console *)

(** The description of the progress row after the loop of phase 1: that
    of the last file that was about to be hashed. *)
Definition phase1_describe (excludes : list str) (description : str)
    (entry : str * Node) : str :=
  if is_file entry.2 && negb (should_exclude entry.1 excludes) then
    match stat entry.2 with
    | Got _ => hashing_description entry.1
    | Err _ => description
    end
  else description.

Definition phase1_description (excludes : list str) (src : Tree) : str :=
  foldl (phase1_describe excludes) (lit "Hashing") src.

(** The description after the walk of phase 3: that of the last file that
    was compared. *)
Definition phase3_describe (ledger : Ledger) (description : str)
    (entry : str * Node) : str :=
  if is_file entry.2 then
    match dict_get (normalize_path entry.1) ledger with
    | Some _ => verifying_description (normalize_path entry.1)
    | None => description
    end
  else description.

Definition phase3_description (ledger : Ledger) (dst : Tree) : str :=
  foldl (phase3_describe ledger) (lit "Verifying") dst.

(** The line that the walk of phase 3 prints for a destination file, if
    any, and the lines that phase 3 prints: a [MISMATCH] for every file
    whose digest differs, then a [MISSING] for every key without a
    file. *)
Definition phase3_print (ledger : Ledger) (entry : str * Node) : option str :=
  if is_file entry.2 then
    match dict_get (normalize_path entry.1) ledger with
    | Some (source_hash, _) =>
        match hash_file entry.2, stat entry.2 with
        | Got dest_hash, Got _ =>
            if decide (source_hash = dest_hash) then None
            else Some (mismatch_text (normalize_path entry.1))
        | _, _ => None
        end
    | None => None
    end
  else None.

Definition phase3_prints (ledger : Ledger) (dst : Tree) : list str :=
  omap (phase3_print ledger) dst ++ (missing_text <$> missing ledger dst).

(** A text that the console prints without an exception. *)
Definition shown (text : str) : Prop := print_fault text = None.

Lemma console_print_shown text : shown text -> console_print text = Ok tt.
Proof. unfold shown, console_print. by intros ->. Qed.

Lemma warnings_phase1_file excludes acc e :
  warnings acc `prefix_of` warnings (phase1_file excludes acc e).
Proof.
  destruct e as [p node]. unfold phase1_file.
  destruct (is_file node); cbn [negb]; [|done].
  destruct (should_exclude p excludes); [done|].
  destruct (stat node); [destruct (hash_file node)|]; cbn [warnings];
    first [done | by apply prefix_app_r].
Qed.

Lemma warnings_foldl excludes src : forall acc,
  warnings acc `prefix_of` warnings (foldl (phase1_file excludes) acc src).
Proof.
  induction src as [|e src IH]; intros acc; [done|].
  cbn [foldl]. etrans; [apply warnings_phase1_file|apply IH].
Qed.

(** When the warnings can be printed, the loop of phase 1 does what
    [phase1_file] says, file after file. *)
Lemma phase1_loop_shown excludes src : forall acc description,
  Forall shown (warnings (foldl (phase1_file excludes) acc src)) ->
  phase1_loop excludes src acc description
  = (foldl (phase1_describe excludes) description src,
     Ok (foldl (phase1_file excludes) acc src)).
Proof.
  induction src as [|[p node] src IH]; intros acc description Hs; [done|].
  cbn [foldl] in *.
  assert (Forall shown (warnings (phase1_file excludes acc (p, node)))) as Hhere.
  { rewrite Forall_forall in *. intros t Ht. apply Hs.
    eapply elem_of_prefix; [exact Ht|apply warnings_foldl]. }
  rewrite <- (IH _ _ Hs). clear IH Hs.
  cbn [phase1_loop]. unfold phase1_file, phase1_describe in *. cbn [fst snd].
  destruct (is_file node); cbn [negb andb]; [|done].
  destruct (should_exclude p excludes); cbn [negb]; [done|].
  destruct (stat node) as [st|e].
  - destruct (hash_file node) as [h|e]; [done|].
    cbn [warnings negb] in Hhere. rewrite Forall_app, Forall_singleton in Hhere.
    destruct Hhere as [_ Hhere].
    by rewrite (console_print_shown (could_not_hash p e)).
  - cbn [warnings negb] in Hhere. rewrite Forall_app, Forall_singleton in Hhere.
    destruct Hhere as [_ Hhere].
    by rewrite (console_print_shown (could_not_hash p e)).
Qed.

(** A loop that ends without an exception leaves what [phase1_file]
    says. *)
Lemma phase1_loop_Ok excludes src : forall acc description description' hashed,
  phase1_loop excludes src acc description = (description', Ok hashed) ->
  hashed = foldl (phase1_file excludes) acc src
  /\ description' = foldl (phase1_describe excludes) description src
  /\ Forall shown (drop (length (warnings acc)) (warnings hashed)).
Proof.
  induction src as [|[p node] src IH]; intros acc description description' hashed.
  { cbn [phase1_loop foldl]. intros [= <- <-]. rewrite drop_all. done. }
  cbn [phase1_loop foldl]. unfold phase1_file, phase1_describe. cbn [fst snd].
  destruct (is_file node); cbn [negb andb]; [|apply IH].
  destruct (should_exclude p excludes); cbn [negb];
    [intros Hl; exact (IH _ _ _ _ Hl)|].
  assert (forall e acc1,
            warnings acc1 = warnings acc ++ [could_not_hash p e] ->
            hashed = foldl (phase1_file excludes) acc1 src ->
            shown (could_not_hash p e) ->
            Forall shown (drop (length (warnings acc1)) (warnings hashed)) ->
            Forall shown (drop (length (warnings acc)) (warnings hashed))) as Hwarn.
  { intros e acc1 Ew -> Hp Hrest.
    destruct (warnings_foldl excludes src acc1) as [more Em]. rewrite Em in *.
    rewrite Ew in *. rewrite <- app_assoc. rewrite drop_app_length.
    rewrite length_app in Hrest. cbn [length] in Hrest.
    rewrite <- app_assoc in Hrest.
    replace (length (warnings acc) + 1)%nat
      with (length (warnings acc ++ [could_not_hash p e])) in Hrest
      by (rewrite length_app; simpl; lia).
    rewrite (app_assoc (warnings acc)), drop_app_length in Hrest.
    apply Forall_app. split; [by apply Forall_singleton|done]. }
  destruct (stat node) as [st|e].
  - destruct (hash_file node) as [h|e]; [intros Hl; exact (IH _ _ _ _ Hl)|].
    unfold console_print. destruct (print_fault (could_not_hash p e)) eqn:Ep; [done|].
    intros (E1 & E2 & E3)%IH. split_and!; [done..|].
    eapply (Hwarn e); [|exact E1|exact Ep|exact E3]. done.
  - unfold console_print. destruct (print_fault (could_not_hash p e)) eqn:Ep; [done|].
    intros (E1 & E2 & E3)%IH. split_and!; [done..|].
    eapply (Hwarn e); [|exact E1|exact Ep|exact E3]. done.
Qed.

(** Phase 1 goes through when its warnings can be printed and the row can
    be drawn at the end, and then returns what [phase1] says. *)
Lemma phase1_run_shown excludes src :
  Forall shown (warnings (phase1 excludes src)) ->
  describe_fault (phase1_description excludes src) = None ->
  phase1_run excludes src = Ok (phase1 excludes src).
Proof.
  intros Hs Hd. unfold phase1_run, phase1 in *.
  rewrite phase1_loop_shown by done.
  unfold progress_stop. fold (phase1_description excludes src). by rewrite Hd.
Qed.

(** A run of phase 1 that returns has returned what [phase1] says, has
    printed its warnings and has drawn the row at the end. *)
Lemma phase1_run_Ok excludes src hashed :
  phase1_run excludes src = Ok hashed ->
  hashed = phase1 excludes src
  /\ Forall shown (warnings hashed)
  /\ describe_fault (phase1_description excludes src) = None.
Proof.
  unfold phase1_run, phase1.
  destruct (phase1_loop _ _ _ _) as [description outcome] eqn:El.
  unfold progress_stop. destruct (describe_fault description) eqn:Ed; [done|].
  cbn [mbind Result_bind]. intros ->.
  apply phase1_loop_Ok in El as (E1 & E2 & E3).
  rewrite drop_0 in E3. split_and!; [done..|].
  unfold phase1_description. by rewrite <- E2.
Qed.

(** The same for the two loops of phase 3. *)
Lemma phase3_walk_loop_shown ledger dst : forall r description,
  Forall shown (omap (phase3_print ledger) dst) ->
  phase3_walk_loop ledger dst r description
  = (foldl (phase3_describe ledger) description dst,
     Ok (foldl (phase3_file ledger) r dst)).
Proof.
  induction dst as [|[p node] dst IH]; intros r description Hs; [done|].
  cbn [foldl phase3_walk_loop omap list_omap] in *.
  unfold phase3_file, phase3_describe, phase3_print in *. cbn [fst snd] in *.
  destruct (is_file node); cbn [negb]; [|by apply IH].
  destruct (dict_get (normalize_path p) ledger) as [[h sz]|]; [|by apply IH].
  destruct (hash_file node) as [dh|e]; [|by apply IH].
  destruct (stat node) as [st|e]; [|by apply IH].
  destruct (decide (h = dh)); [by apply IH|].
  apply Forall_cons in Hs as [Hp Hs].
  rewrite (console_print_shown _ Hp). by apply IH.
Qed.

Lemma phase3_missing_loop_shown dest ks : forall r,
  Forall shown (missing_text <$> filter (fun k => k ∉ dest) ks) ->
  phase3_missing_loop dest ks r = Ok (foldl (phase3_missing dest) r ks).
Proof.
  induction ks as [|k ks IH]; intros r Hs; [done|].
  cbn [foldl phase3_missing_loop]. unfold phase3_missing at 2.
  rewrite filter_cons in Hs. destruct (decide (k ∈ dest)) as [Hin|Hnin].
  - rewrite decide_False in Hs by auto. by apply IH.
  - rewrite decide_True in Hs by done. rewrite fmap_cons in Hs.
    apply Forall_cons in Hs as [Hp Hs].
    rewrite (console_print_shown _ Hp). cbn [mbind Result_bind]. by apply IH.
Qed.

(** Phase 3 goes through when its lines can be printed and the row can be
    drawn at the end, and then returns what [phase3] says. *)
Lemma phase3_run_shown ledger dst r :
  Forall shown (phase3_prints ledger dst) ->
  describe_fault (phase3_description ledger dst) = None ->
  phase3_run ledger dst r = Ok (phase3 ledger dst r).
Proof.
  intros [Hw Hm]%Forall_app Hd. unfold phase3_run, phase3.
  rewrite phase3_walk_loop_shown by done.
  unfold progress_stop. fold (phase3_description ledger dst). rewrite Hd.
  cbn [mbind Result_bind]. by apply phase3_missing_loop_shown.
Qed.

(** A destination that reads back as the ledger says makes the walk print
    nothing. *)
Lemma reads_back_no_print ledger dst :
  reads_back ledger dst -> omap (phase3_print ledger) dst = [].
Proof.
  induction dst as [|[q m] dst IH]; intros Hrb; [done|].
  cbn [omap list_omap]. rewrite IH.
  2: { intros q' m' h sz Hin. apply Hrb. by apply list_elem_of_further. }
  unfold phase3_print. cbn [fst snd].
  destruct (is_file m) eqn:Hf; [|done].
  destruct (dict_get (normalize_path q) ledger) as [[h sz]|] eqn:Hg; [|done].
  destruct (Hrb q m h sz) as [Hh [st Hst]]; [apply list_elem_of_here|done|done|].
  by rewrite Hh, Hst, decide_True.
Qed.

(** *** Source and destination *)

(** The destination holds a readable copy of the source file at [p]: a
    regular file at the same canonical path with the same bytes. *)
Definition has_copy (dst : Tree) (p : str) (node : Node) : Prop :=
  forall data, content node = Got data ->
    exists q m st, (q, m) ∈ dst /\ is_file m = true
      /\ normalize_path q = normalize_path p
      /\ content m = Got data /\ stat m = Got st.

(** Every source file that is not excluded, and whose canonical path is
    not one of [absent], has a copy on the destination. *)
Definition copied_except (absent : str -> Prop) (excludes : list str) (src dst : Tree)
  : Prop :=
  forall p node,
    (p, node) ∈ src -> is_file node = true -> should_exclude p excludes = false ->
    ~ absent (normalize_path p) -> has_copy dst p node.

Lemma ledgered_Some excludes p node k h sz :
  ledgered excludes (p, node) = Some (k, (h, sz)) ->
  is_file node = true /\ should_exclude p excludes = false /\ k = normalize_path p
  /\ exists st data, stat node = Got st /\ content node = Got data
       /\ h = Hash.hash_bytes data /\ sz = st_size st.
Proof.
  unfold ledgered. cbn [fst snd].
  destruct (is_file node); [|done].
  destruct (should_exclude p excludes); [done|]. cbn [negb andb].
  destruct (stat node) as [st|] eqn:Hst; [|done].
  destruct (hash_file node) as [h'|] eqn:Hh; [|done].
  intros [= <- <- <-]. split_and!; [done..|].
  unfold hash_file in Hh. rewrite Hst in Hh.
  destruct (content node) as [data|] eqn:Hc; [|done].
  exists st, data. split_and!; [done..| |done].
  pose proof (hash_file_content node st data Hst Hc) as Hh'.
  unfold hash_file in Hh'. rewrite Hst, Hc in Hh'. congruence.
Qed.

Lemma elem_of_dest_files dst q m :
  (q, m) ∈ dst -> is_file m = true -> normalize_path q ∈ dest_files dst.
Proof.
  intros Hin Hf. unfold dest_files.
  apply (list_elem_of_fmap_2 (fun e : str * Node => normalize_path e.1) _ (q, m)).
  by apply list_elem_of_filter.
Qed.

Lemma copied_reads_back absent excludes src dst :
  copied_except absent excludes src dst ->
  (forall k, absent k -> k ∉ dest_files dst) ->
  NoDup (dest_files dst) ->
  reads_back (source_hashes (phase1 excludes src)) dst.
Proof.
  intros Hcopy Habs Hnd q m h sz Hin Hf Hg.
  apply ledger_origin in Hg as (p & node & Hsrc & Hl).
  apply ledgered_Some in Hl as (Hpf & Hex & Hk & st & data & Hst & Hc & -> & _).
  destruct (Hcopy p node Hsrc Hpf Hex) with (data := data)
    as (q' & m' & st' & Hin' & Hf' & Hq' & Hc' & Hst'); [|done|].
  { intros Ha. apply (Habs _ Ha). rewrite <- Hk. by apply (elem_of_dest_files dst q m). }
  assert (E : (q, m) = (q', m')).
  { apply (NoDup_fmap_elem_inj (fun e : str * Node => normalize_path e.1)
             (regular_files dst)); [done| | |].
    - by apply list_elem_of_filter.
    - by apply list_elem_of_filter.
    - simpl. congruence. }
  injection E as -> ->. split; [|by eexists].
  by apply (hash_file_content m' st').
Qed.

Lemma copied_present absent excludes src dst k :
  copied_except absent excludes src dst ->
  k ∈ keys (source_hashes (phase1 excludes src)) ->
  ~ absent k -> k ∈ dest_files dst.
Proof.
  intros Hcopy (p & node & [h sz] & Hsrc & Hl)%ledger_keys Hk.
  apply ledgered_Some in Hl as (Hpf & Hex & -> & st & data & Hst & Hc & _).
  destruct (Hcopy p node Hsrc Hpf Hex Hk data Hc)
    as (q' & m' & st' & Hin' & Hf' & Hq' & _).
  rewrite <- Hq'. by apply (elem_of_dest_files dst q' m').
Qed.

Lemma all_copied_missing excludes src dst :
  copied_except (fun _ => False) excludes src dst ->
  missing (source_hashes (phase1 excludes src)) dst = [].
Proof.
  intros Hcopy. set (ledger := source_hashes (phase1 excludes src)).
  assert (Hall : forall k, k ∈ keys ledger -> k ∈ dest_files dst).
  { intros k Hk. eapply copied_present; eauto. }
  unfold missing. induction (keys ledger) as [|k ks IH]; [done|].
  rewrite filter_cons_False, IH; [done| |].
  - intros k' Hk'. apply Hall. by apply list_elem_of_further.
  - intros Hk. apply Hk, Hall, list_elem_of_here.
Qed.

Lemma one_missing excludes src dst k :
  k ∈ keys (source_hashes (phase1 excludes src)) ->
  k ∉ dest_files dst ->
  copied_except (fun k' => k' = k) excludes src dst ->
  missing (source_hashes (phase1 excludes src)) dst = [k].
Proof.
  intros Hk Hgone Hcopy. set (ledger := source_hashes (phase1 excludes src)) in *.
  assert (Hkeys : NoDup (keys ledger)) by apply NoDup_ledger_keys.
  unfold missing.
  assert (Hall : forall k', k' ∈ keys ledger -> k' ∉ dest_files dst -> k' = k).
  { intros k' Hk' Hn. destruct (decide (k' = k)) as [|Hne]; [done|].
    destruct Hn. eapply copied_present; eauto. }
  clear -Hk Hgone Hkeys Hall.
  induction (keys ledger) as [|k1 ks IH]; [by apply elem_of_nil in Hk|].
  apply NoDup_cons in Hkeys as [Hk1 Hks]. rewrite filter_cons.
  destruct (decide (k1 = k)) as [->|Hne].
  - rewrite decide_True by done. f_equal.
    clear IH Hk. induction ks as [|k2 ks IH]; [done|].
    apply not_elem_of_cons in Hk1 as [Hne Hk1]. apply NoDup_cons in Hks as [_ Hks].
    rewrite filter_cons_False.
    + apply IH; [done|done|]. intros k' Hk'. apply Hall.
      apply elem_of_cons in Hk' as [->|Hk']; [apply list_elem_of_here|].
      by do 2 apply list_elem_of_further.
    + intros Hn. apply Hne. symmetry. apply Hall; [|done].
      apply list_elem_of_further, list_elem_of_here.
  - rewrite decide_False.
    + apply IH; [|done|].
      * apply elem_of_cons in Hk as [->|Hk]; done.
      * intros k' Hk'. apply Hall. by apply list_elem_of_further.
    + intros Hn. apply Hne, Hall; [apply list_elem_of_here|done].
Qed.

(** What [phase3] counts when every file was copied. *)
Lemma phase3_of_copies excludes src dst r :
  copied_except (fun _ => False) excludes src dst ->
  NoDup (dest_files dst) ->
  files_verified (phase3 (source_hashes (phase1 excludes src)) dst r)
    = files_verified r + Z.of_nat (length (source_hashes (phase1 excludes src)))
  /\ files_failed (phase3 (source_hashes (phase1 excludes src)) dst r) = files_failed r
  /\ failed_files (phase3 (source_hashes (phase1 excludes src)) dst r) = failed_files r.
Proof.
  intros Hcopy Hnd. pose proof (all_copied_missing excludes src dst Hcopy) as Hm.
  set (ledger := source_hashes (phase1 excludes src)) in *.
  rewrite phase3_spec by (eapply copied_reads_back; eauto).
  assert (Hc : length (compared ledger dst) = length ledger).
  { rewrite length_compared by (done || apply NoDup_ledger_keys).
    pose proof (length_filter_complement (fun k => k ∈ dest_files dst) (keys ledger)) as E.
    change (length (filter (fun k => k ∈ dest_files dst) (keys ledger))
            + length (missing ledger dst) = length (keys ledger))%nat in E.
    rewrite Hm in E. unfold keys in E at 2. rewrite length_fmap in E. simpl in E. lia. }
  rewrite Hm, Hc. cbn [fmap list_fmap foldl].
  apply files_verified_iter.
Qed.

(** What [phase3] counts when one file is not there. *)
Lemma phase3_with_one_missing excludes src dst r k :
  k ∈ keys (source_hashes (phase1 excludes src)) ->
  k ∉ dest_files dst ->
  copied_except (fun k' => k' = k) excludes src dst ->
  NoDup (dest_files dst) ->
  files_verified (phase3 (source_hashes (phase1 excludes src)) dst r)
    = files_verified r + (Z.of_nat (length (source_hashes (phase1 excludes src))) - 1)
  /\ files_failed (phase3 (source_hashes (phase1 excludes src)) dst r)
    = files_failed r + 1
  /\ failed_files (phase3 (source_hashes (phase1 excludes src)) dst r)
    = failed_files r ++ [k ++ lit " (missing)"].
Proof.
  intros Hk Hgone Hcopy Hnd.
  pose proof (one_missing excludes src dst k Hk Hgone Hcopy) as Hm.
  set (ledger := source_hashes (phase1 excludes src)) in *.
  rewrite phase3_spec by (eapply copied_reads_back; eauto; by intros ? ->).
  assert (Hkeys : NoDup (keys ledger)) by apply NoDup_ledger_keys.
  assert (Hc : (length (compared ledger dst) + 1 = length ledger)%nat).
  { rewrite length_compared by done.
    pose proof (length_filter_complement (fun k => k ∈ dest_files dst) (keys ledger)) as E.
    change (length (filter (fun k => k ∈ dest_files dst) (keys ledger))
            + length (missing ledger dst) = length (keys ledger))%nat in E.
    rewrite Hm in E. unfold keys in E at 2. rewrite length_fmap in E. simpl in E. done. }
  rewrite Hm. cbn [fmap list_fmap foldl].
  destruct (files_verified_iter (length (compared ledger dst)) r) as (E1 & E2 & E3).
  cbn [count_failed files_verified files_failed failed_files].
  rewrite E1, E2, E3. split_and!; [lia|done|done].
Qed.

(** C2 (amended).  Let phase 1 have gone through and left its ledger, let
    the destination hold a readable, byte-for-byte identical copy of every
    source file that is not excluded, let no two regular files of the
    destination share a canonical path, and let the console draw the
    progress row with the description of the last file compared (the name
    of a file is rendered as markup).  Then phase 3 goes through, counts
    one verified file per entry of the ledger and reports no failure:
    nothing mismatched, nothing unreadable, nothing missing. *)
Theorem verification_sound excludes src dst r hashed :
  phase1_run excludes src = Ok hashed ->
  copied_except (fun _ => False) excludes src dst ->
  NoDup (dest_files dst) ->
  describe_fault (phase3_description (source_hashes hashed) dst) = None ->
  exists r',
    phase3_run (source_hashes hashed) dst r = Ok r'
    /\ files_verified r' = files_verified r + Z.of_nat (length (source_hashes hashed))
    /\ files_failed r' = files_failed r
    /\ failed_files r' = failed_files r.
Proof.
  intros [-> _]%phase1_run_Ok Hcopy Hnd Hd.
  exists (phase3 (source_hashes (phase1 excludes src)) dst r). split.
  - apply phase3_run_shown; [|done]. unfold phase3_prints.
    rewrite reads_back_no_print by (eapply copied_reads_back; eauto).
    by rewrite all_copied_missing.
  - by apply phase3_of_copies.
Qed.

(** C3 (amended).  Let phase 1 have gone through and left its ledger, let
    [k] be a key of the ledger with no regular file of that canonical path
    on the destination, let every other source file that is not excluded
    have a readable, identical copy there, let no two regular files of the
    destination share a canonical path, and let the console print the
    [MISSING] line of [k] and draw the progress row with the description of
    the last file compared.  Then phase 3 goes through and reports exactly
    one failure, [k] as missing, and counts every other entry of the
    ledger as verified. *)
Theorem missing_file_detected excludes src dst r k hashed :
  phase1_run excludes src = Ok hashed ->
  k ∈ keys (source_hashes hashed) ->
  k ∉ dest_files dst ->
  copied_except (fun k' => k' = k) excludes src dst ->
  NoDup (dest_files dst) ->
  print_fault (missing_text k) = None ->
  describe_fault (phase3_description (source_hashes hashed) dst) = None ->
  exists r',
    phase3_run (source_hashes hashed) dst r = Ok r'
    /\ files_verified r'
       = files_verified r + (Z.of_nat (length (source_hashes hashed)) - 1)
    /\ files_failed r' = files_failed r + 1
    /\ failed_files r' = failed_files r ++ [k ++ lit " (missing)"].
Proof.
  intros [-> _]%phase1_run_Ok Hk Hgone Hcopy Hnd Hp Hd.
  exists (phase3 (source_hashes (phase1 excludes src)) dst r). split.
  - apply phase3_run_shown; [|done]. unfold phase3_prints.
    rewrite reads_back_no_print by (eapply copied_reads_back; eauto; by intros ? ->).
    rewrite (one_missing excludes src dst k) by done.
    by apply Forall_singleton.
  - by apply phase3_with_one_missing.
Qed.

(** *** The sizes of the ledger in phase 3 *)

(** The ledger with other sizes. *)
Definition with_sizes (f : str -> Z -> Z) (ledger : Ledger) : Ledger :=
  (fun e => (e.1, (e.2.1, f e.1 e.2.2))) <$> ledger.

Lemma keys_with_sizes f ledger : keys (with_sizes f ledger) = keys ledger.
Proof.
  unfold keys, with_sizes. rewrite <- list_fmap_compose. by apply list_fmap_ext.
Qed.

Lemma dict_get_with_sizes f ledger k :
  dict_get k (with_sizes f ledger)
  = (fun v => (v.1, f k v.2)) <$> dict_get k ledger.
Proof.
  induction ledger as [|[k1 [h sz]] ledger IH]; [done|].
  unfold with_sizes. rewrite fmap_cons. cbn [dict_get fst snd].
  destruct (decide (k1 = k)) as [->|]; [done|]. apply IH.
Qed.

Lemma phase3_file_with_sizes f ledger r e :
  phase3_file (with_sizes f ledger) r e = phase3_file ledger r e.
Proof.
  destruct e as [p node]. unfold phase3_file.
  rewrite dict_get_with_sizes.
  by destruct (dict_get (normalize_path p) ledger) as [[h sz]|].
Qed.

Lemma phase3_with_sizes f ledger dst r :
  phase3 (with_sizes f ledger) dst r = phase3 ledger dst r.
Proof.
  unfold phase3. rewrite keys_with_sizes. f_equal.
  revert r. induction dst as [|e dst IH]; intros r; [done|].
  cbn [foldl]. by rewrite phase3_file_with_sizes, IH.
Qed.

End Pipeline.

(** C5 (amended).  Phase 3 and the catalog lookup go by the digest alone.
    The outcome of phase 3 is the same whatever sizes the ledger holds, so
    the stored size of a file plays no part in its verdict; and
    [find_by_hash] returns every row that has the digest, whatever its
    size. *)
Theorem digest_decides_alone `{Hash.XXH64} (normalize_path : str -> str)
    (fromisoformat : str -> Result datetime) :
  (forall f ledger dst r,
     phase3 normalize_path (with_sizes f ledger) dst r
     = phase3 normalize_path ledger dst r)
  /\ (forall db h row,
        row ∈ CatalogDB.files db -> CatalogDB.xxhash row = Some h ->
        CatalogDB.to_search_result fromisoformat row
          ∈ CatalogDB.find_by_hash fromisoformat db h).
Proof.
  split.
  - intros. apply phase3_with_sizes.
  - intros db h row Hin Hh. unfold CatalogDB.find_by_hash.
    apply list_elem_of_fmap_2. rewrite merge_sort_Permutation.
    by apply list_elem_of_filter.
Qed.

(** *** More on phases 1 and 3 *)

Section Phases.

Context `{Hash.XXH64}.
Variable normalize_path : str -> str.
Variable fnmatch : str -> str -> bool.
Variable print_fault : str -> option exn.
Variable describe_fault : str -> option exn.


(** X12.  Whatever the source tree, the ledger never has more entries
    than files were hashed, so entries, excluded files and warnings
    together never exceed the regular files counted; and every entry holds
    the digest of the content and the [stat] size of a regular source file
    that is not excluded and whose canonical path is the key. *)
Theorem ledger_entries_come_from_files (excludes : list str) (src : Tree) :
  Z.of_nat (length (source_hashes (phase1 normalize_path fnmatch excludes src))
            + length (excluded_files (phase1 normalize_path fnmatch excludes src))
            + length (warnings (phase1 normalize_path fnmatch excludes src)))
    <= (check_source src).1
  /\ forall k h sz,
       dict_get k (source_hashes (phase1 normalize_path fnmatch excludes src)) = Some (h, sz) ->
       exists p node st data,
         (p, node) ∈ src /\ is_file node = true
         /\ should_exclude fnmatch p excludes = false
         /\ normalize_path p = k
         /\ stat node = Got st /\ content node = Got data
         /\ h = Hash.hash_bytes data /\ sz = st_size st.
Proof.
  split.
  - rewrite check_source_count.
    destruct (phase1_spec normalize_path fnmatch excludes src) as [El Ec].
    rewrite El.
    pose proof (length_dict_update_le (V := str * Z) []
                  (omap (ledgered normalize_path fnmatch excludes) src)) as Hle.
    simpl in Hle. lia.
  - intros k h sz Hg.
    apply ledger_origin in Hg as (p & node & Hin & Hl).
    apply ledgered_Some in Hl as (Hf & Hex & -> & st & data & Hst & Hc & -> & ->).
    exists p, node, st, data. done.
Qed.

(** What the walk of phase 3 does with one destination file. *)
Lemma phase3_file_counts ledger r e :
  let r' := phase3_file normalize_path ledger r e in
  (r' = r \/ r' = count_verified r \/ exists msg, r' = count_failed r msg)
  /\ (r' = r <-> ~ (is_file e.2 = true
                    /\ is_Some (dict_get (normalize_path e.1) ledger))).
Proof.
  destruct e as [p node]. unfold phase3_file. cbn [fst snd].
  assert (Hv : forall r0 : TransferResult, count_verified r0 <> r0).
  { intros r0 E. apply (f_equal files_verified) in E. simpl in E. lia. }
  assert (Hf : forall (r0 : TransferResult) msg, count_failed r0 msg <> r0).
  { intros r0 msg E. apply (f_equal files_failed) in E. simpl in E. lia. }
  destruct (is_file node); cbn [negb].
  2: { split; [by left|]. split; [by intros _ [? _]|done]. }
  destruct (dict_get (normalize_path p) ledger) as [[h sz]|].
  2: { split; [by left|]. split; [by intros _ [_ [? ?]]|done]. }
  assert (Hyes : is_file node = is_file node /\ is_Some (Some (h, sz))) by (split; [done|by eexists]).
  destruct (hash_file node) as [dh|e].
  - destruct (stat node) as [st|e].
    + destruct (decide (h = dh)).
      * split; [right; by left|]. split; [by intros ?%Hv|intros Hn; destruct Hn; split; [done|by eexists]].
      * split; [right; right; by eexists|].
        split; [by intros ?%Hf|intros Hn; destruct Hn; split; [done|by eexists]].
    + split; [right; right; by eexists|].
      split; [by intros ?%Hf|intros Hn; destruct Hn; split; [done|by eexists]].
  - split; [right; right; by eexists|].
    split; [by intros ?%Hf|intros Hn; destruct Hn; split; [done|by eexists]].
Qed.

(** The difference between the counters and the list of failures. *)
Definition tally (r : TransferResult) : Z * Z :=
  (files_verified r + files_failed r, Z.of_nat (length (failed_files r)) - files_failed r).

Lemma phase3_walk_tally ledger dst r :
  tally (foldl (phase3_file normalize_path ledger) r dst)
  = ((tally r).1 + Z.of_nat (length (compared normalize_path ledger dst)), (tally r).2).
Proof.
  revert r. induction dst as [|e dst IH]; intros r.
  - cbn [foldl]. unfold compared. rewrite filter_nil. destruct (tally r). simpl.
    f_equal. lia.
  - cbn [foldl]. rewrite IH. unfold compared. rewrite filter_cons.
    destruct (phase3_file_counts ledger r e) as [Hcase Hiff]. cbv zeta in Hcase, Hiff.
    destruct (decide (is_file e.2 = true
                      /\ is_Some (dict_get (normalize_path e.1) ledger))) as [Hy|Hn].
    + destruct Hcase as [E|[E|[msg E]]].
      * apply Hiff in E. done.
      * rewrite E. unfold tally. cbn [count_verified files_verified files_failed
                                      failed_files fst snd length]. f_equal; lia.
      * rewrite E. unfold tally. cbn [count_failed files_verified files_failed
                                      failed_files fst snd]. rewrite length_app.
        cbn [length]. f_equal; lia.
    + apply Hiff in Hn. rewrite Hn. f_equal.
Qed.


End Phases.

Section Corruption.

Context `{Hash.XXH64}.
Variable normalize_path : str -> str.
Variable fnmatch : str -> str -> bool.
Variable print_fault : str -> option exn.
Variable describe_fault : str -> option exn.

Lemma copied_reads_back_at absent excludes src dst q m h sz :
  copied_except normalize_path fnmatch absent excludes src dst ->
  NoDup (dest_files normalize_path dst) ->
  (q, m) ∈ dst -> is_file m = true -> ~ absent (normalize_path q) ->
  dict_get (normalize_path q) (source_hashes (phase1 normalize_path fnmatch excludes src))
    = Some (h, sz) ->
  hash_file m = Got h /\ exists st, stat m = Got st.
Proof.
  intros Hcopy Hnd Hin Hf Hna Hg.
  apply ledger_origin in Hg as (p & node & Hsrc & Hl).
  apply ledgered_Some in Hl as (Hpf & Hex & Hk & st & data & Hst & Hc & -> & _).
  destruct (Hcopy p node Hsrc Hpf Hex) with (data := data)
    as (q' & m' & st' & Hin' & Hf' & Hq' & Hc' & Hst'); [by rewrite <- Hk|done|].
  assert (E : (q, m) = (q', m')).
  { apply (NoDup_fmap_elem_inj (fun e : str * Node => normalize_path e.1)
             (regular_files dst)); [done| | |].
    - by apply list_elem_of_filter.
    - by apply list_elem_of_filter.
    - simpl. congruence. }
  injection E as -> ->. split; [|by eexists].
  by apply (hash_file_content m' st').
Qed.

Lemma dest_files_app d1 d2 :
  dest_files normalize_path (d1 ++ d2)
  = dest_files normalize_path d1 ++ dest_files normalize_path d2.
Proof. unfold dest_files. by rewrite filter_app, fmap_app. Qed.

Lemma compared_app ledger d1 d2 :
  compared normalize_path ledger (d1 ++ d2)
  = compared normalize_path ledger d1 ++ compared normalize_path ledger d2.
Proof. unfold compared. by rewrite filter_app. Qed.

(** The destination around the corrupted file: nothing is missing, the
    walk compares one file per entry, and the files before and after the
    corrupted one read back as the ledger says. *)
Lemma corruption_walk excludes src d1 d2 q m k h sz :
  copied_except normalize_path fnmatch (fun k' => k' = k) excludes src
    (d1 ++ (q, m) :: d2) ->
  NoDup (dest_files normalize_path (d1 ++ (q, m) :: d2)) ->
  is_file m = true -> normalize_path q = k ->
  dict_get k (source_hashes (phase1 normalize_path fnmatch excludes src)) = Some (h, sz) ->
  let ledger := source_hashes (phase1 normalize_path fnmatch excludes src) in
  missing normalize_path ledger (d1 ++ (q, m) :: d2) = []
  /\ (length (compared normalize_path ledger d1)
      + S (length (compared normalize_path ledger d2)) = length ledger)%nat
  /\ reads_back normalize_path ledger d1
  /\ reads_back normalize_path ledger d2.
Proof.
  intros Hcopy Hnd Hf Hq Hg ledger. subst ledger.
  set (ledger := source_hashes (phase1 normalize_path fnmatch excludes src)) in *.
  set (dst := d1 ++ (q, m) :: d2) in *.
  assert (Hin : (q, m) ∈ dst).
  { apply elem_of_app. right. apply list_elem_of_here. }
  assert (Hkeys : NoDup (keys ledger)) by apply NoDup_ledger_keys.
  assert (Hall : forall k', k' ∈ keys ledger -> k' ∈ dest_files normalize_path dst).
  { intros k' Hk'. destruct (decide (k' = k)) as [->|Hnk].
    - rewrite <- Hq. by apply (elem_of_dest_files normalize_path dst q m).
    - eapply copied_present; eauto. }
  assert (Hm : missing normalize_path ledger dst = []).
  { unfold missing. clear Hkeys Hg. induction (keys ledger) as [|k1 ks IH]; [done|].
    rewrite filter_cons_False, IH; [done| |].
    - intros k' Hk'. apply Hall. by apply list_elem_of_further.
    - intros Hk. apply Hk, Hall, list_elem_of_here. }
  assert (Hc : length (compared normalize_path ledger dst) = length ledger).
  { rewrite length_compared by done.
    pose proof (length_filter_complement (fun k => k ∈ dest_files normalize_path dst)
                  (keys ledger)) as E.
    change (length (filter (fun k => k ∈ dest_files normalize_path dst) (keys ledger))
            + length (missing normalize_path ledger dst) = length (keys ledger))%nat in E.
    rewrite Hm in E. unfold keys in E at 2. rewrite length_fmap in E. simpl in E. lia. }
  pose proof Hnd as Hnd'. unfold dst in Hnd.
  rewrite dest_files_app in Hnd. apply NoDup_app in Hnd as (Hn1 & Hn12 & Hn2).
  assert (Hk2 : k ∉ dest_files normalize_path d2).
  { unfold dest_files in Hn2. rewrite filter_cons_True in Hn2 by done.
    rewrite fmap_cons in Hn2. apply NoDup_cons in Hn2 as [Hn2 _].
    cbn [fst] in Hn2. by rewrite Hq in Hn2. }
  assert (Hk1 : k ∉ dest_files normalize_path d1).
  { intros Hk1. apply (Hn12 k Hk1). unfold dest_files.
    rewrite filter_cons_True by done. rewrite fmap_cons. cbn [fst]. rewrite Hq.
    apply list_elem_of_here. }
  assert (Hrb : forall d, (forall e, e ∈ d -> e ∈ dst) ->
                     k ∉ dest_files normalize_path d -> reads_back normalize_path ledger d).
  { intros d Hsub Hkd q1 m1 h1 sz1 Hin1 Hf1 Hg1.
    eapply (copied_reads_back_at (fun k' => k' = k)); eauto.
    intros E. apply Hkd. rewrite <- E.
    by apply (elem_of_dest_files normalize_path d q1 m1). }
  split_and!.
  - done.
  - unfold dst in Hc. rewrite compared_app in Hc. unfold compared at 2 in Hc.
    rewrite filter_cons_True in Hc
      by (cbn [fst snd]; split; [done|rewrite Hq, Hg; by eexists]).
    fold (compared normalize_path ledger d2) in Hc. rewrite length_app in Hc.
    by cbn [length] in Hc.
  - apply Hrb; [intros e He; apply elem_of_app; by left|done].
  - apply Hrb; [intros e He; apply elem_of_app; right; by apply list_elem_of_further|done].
Qed.


End Corruption.

(** *** The exclusion patterns *)

Section Excludes.

Variable fnmatch : str -> str -> bool.

Lemma endswith_slash (d : str) : endswith (d ++ lit "/") (lit "/") = true.
Proof.
  unfold endswith. apply bool_decide_eq_true_2.
  rewrite length_app. change (length (lit "/")) with 1%nat.
  replace (length d + 1 - 1)%nat with (length d) by lia.
  by rewrite drop_app_length.
Qed.

Lemma contains_spec (needle s : str) :
  contains needle s = true <-> exists a b, s = a ++ needle ++ b.
Proof.
  induction s as [|c s IH].
  - simpl. rewrite bool_decide_eq_true. split.
    + intros ->. by exists [], [].
    + intros (a & b & E). symmetry in E.
      apply app_eq_nil in E as [_ E]. by apply app_eq_nil in E as [E _].
  - cbn [contains]. rewrite orb_true_iff, bool_decide_eq_true, IH. split.
    + intros [E|(a & b & ->)].
      * exists [], (drop (length needle) (c :: s)).
        rewrite <- E at 1. by rewrite app_nil_l, take_drop.
      * by exists (c :: a), b.
    + intros ([|x a] & b & E).
      * left. rewrite E, app_nil_l. by rewrite take_app_length.
      * right. injection E as -> ->. by exists a, b.
Qed.

(** X20.  A pattern of the list that ends in a slash excludes every path
    that has the name before the slash among its components, the name of
    the file itself included; and a pattern of the list without wildcard
    and without final slash excludes every path whose text contains it
    anywhere, across components too. *)
Theorem excluded_by_pattern (path_str pattern : str) (patterns : list str) :
  pattern ∈ patterns ->
  (exists d, pattern = d ++ lit "/" /\ d ∈ parts path_str)
  \/ (endswith pattern (lit "/") = false
      /\ contains (lit "*") pattern = false /\ contains (lit "?") pattern = false
      /\ exists a b, path_str = a ++ pattern ++ b) ->
  should_exclude fnmatch path_str patterns = true.
Proof.
  intros Hin Hp. unfold should_exclude. apply existsb_exists.
  exists pattern. split; [by apply list_elem_of_In|].
  unfold exclude_match. destruct Hp as [(d & -> & Hd)|(He & Hs & Hq & Hc)].
  - rewrite endswith_slash.
    change (lit "/") with [47%N]. rewrite removelast_last.
    apply existsb_exists. exists d. split; [by apply list_elem_of_In|].
    by rewrite bool_decide_eq_true_2.
  - rewrite He, Hs, Hq. cbn [orb andb]. by apply contains_spec.
Qed.

End Excludes.

(** ** transfer.py: the job *)

(** The part of [Config] that a job reads. *)
Record Config := {
  mount_point : str;
  mhl_dir : str;
  log_dir : str;
  catalog_dir : str;
  excludes : list str;
  rsync_opts : list str;
  platform_name : str
}.

(** What the mirror tree holds at a path: a directory, or a placeholder
    file with the times [os.utime] gave it, if any. *)
Inductive Kind : Type :=
| Dir
| File (times : option (datetime * datetime)).

#[export] Instance Kind_eq_dec : EqDecision Kind.
Proof. solve_decision. Defined.

(** [a / b] for a [Path] [a] and a relative [b]; nothing is added for an
    empty [b]. *)
Definition joinpath (a b : str) : str :=
  if bool_decide (b = []) then a else a ++ lit "/" ++ b.

(** [path.name]: the last component, the empty string for a path without
    one, as [Path(".")] and [Path("/")]. *)
Definition basename (p : str) : str := List.last (parts p) [].

(** [a or b] for two strings. *)
Definition str_or (a : option str) (b : str) : str :=
  match a with
  | Some s => if bool_decide (s = []) then b else s
  | None => b
  end.

Definition nl : str := [10%N].

(** [tape_file.stat()] for [tape_file = destination / rel_path]. *)
Fixpoint stat_path (t : Tree) (rel_path : str) : Try Stat :=
  match t with
  | [] => Err (lit "[Errno 2] No such file or directory")
  | (p, node) :: t' => if decide (p = rel_path) then stat node else stat_path t' rel_path
  end.

(** [bytes / (1024 * 1024)] *)
Definition megabytes (n : Z) : Q := (inject_Z n / inject_Z (1024 * 1024))%Q.

(** [a / b] on floats. *)
Definition truediv (a b : Q) : Result Q :=
  if Qeq_bool b 0%Q then Raise ZeroDivisionError else Ok (a / b)%Q.

(** [d > 0] on floats. *)
Definition positive (d : Q) : bool := negb (Qle_bool d 0%Q).

(** The body shared by the properties [phase1_throughput],
    [phase2_throughput] and [phase3_throughput]:
    [total_mb / duration if duration > 0 else 0]. *)
Definition guarded_throughput (total : Z) (duration : Q) : Q :=
  let total_mb := megabytes total in
  if positive duration then (total_mb / duration)%Q else 0%Q.

(** [TransferResult.phase1_throughput] and its two siblings, in MB/s. *)
Definition phase1_throughput (r : TransferResult) : Q :=
  guarded_throughput (bytes_total r) (phase1_duration r).
Definition phase2_throughput (r : TransferResult) : Q :=
  guarded_throughput (bytes_total r) (phase2_duration r).
Definition phase3_throughput (r : TransferResult) : Q :=
  guarded_throughput (bytes_total r) (phase3_duration r).

(** [TransferResult.duration_seconds] *)
Definition duration_seconds (r : TransferResult) : Q :=
  total_seconds (end_time r) (start_time r).

(** [TransferResult.success] *)
Definition success (r : TransferResult) : bool := bool_decide (files_failed r = 0).

(** The assignments to the fields of the result. *)
Definition set_counts (r : TransferResult) (total bytes : Z) : TransferResult :=
  {| source := source r; destination := destination r; tape_name := tape_name r;
     start_time := start_time r; end_time := end_time r;
     files_total := total; files_transferred := files_transferred r;
     files_verified := files_verified r; files_failed := files_failed r;
     bytes_total := bytes; failed_files := failed_files r;
     mhl_path := mhl_path r; log_path := log_path r; catalog_path := catalog_path r;
     phase1_duration := phase1_duration r; phase2_duration := phase2_duration r;
     phase3_duration := phase3_duration r; phase4_duration := phase4_duration r;
     phase5_duration := phase5_duration r |}.

Definition set_end_time (r : TransferResult) (t : datetime) : TransferResult :=
  {| source := source r; destination := destination r; tape_name := tape_name r;
     start_time := start_time r; end_time := t;
     files_total := files_total r; files_transferred := files_transferred r;
     files_verified := files_verified r; files_failed := files_failed r;
     bytes_total := bytes_total r; failed_files := failed_files r;
     mhl_path := mhl_path r; log_path := log_path r; catalog_path := catalog_path r;
     phase1_duration := phase1_duration r; phase2_duration := phase2_duration r;
     phase3_duration := phase3_duration r; phase4_duration := phase4_duration r;
     phase5_duration := phase5_duration r |}.

Definition set_transferred (r : TransferResult) : TransferResult :=
  {| source := source r; destination := destination r; tape_name := tape_name r;
     start_time := start_time r; end_time := end_time r;
     files_total := files_total r; files_transferred := files_verified r;
     files_verified := files_verified r; files_failed := files_failed r;
     bytes_total := bytes_total r; failed_files := failed_files r;
     mhl_path := mhl_path r; log_path := log_path r; catalog_path := catalog_path r;
     phase1_duration := phase1_duration r; phase2_duration := phase2_duration r;
     phase3_duration := phase3_duration r; phase4_duration := phase4_duration r;
     phase5_duration := phase5_duration r |}.

Definition set_paths (r : TransferResult) (mhl log cat : option str) : TransferResult :=
  {| source := source r; destination := destination r; tape_name := tape_name r;
     start_time := start_time r; end_time := end_time r;
     files_total := files_total r; files_transferred := files_transferred r;
     files_verified := files_verified r; files_failed := files_failed r;
     bytes_total := bytes_total r; failed_files := failed_files r;
     mhl_path := mhl; log_path := log; catalog_path := cat;
     phase1_duration := phase1_duration r; phase2_duration := phase2_duration r;
     phase3_duration := phase3_duration r; phase4_duration := phase4_duration r;
     phase5_duration := phase5_duration r |}.

Definition set_durations (r : TransferResult) (d1 d2 d3 d4 d5 : Q) : TransferResult :=
  {| source := source r; destination := destination r; tape_name := tape_name r;
     start_time := start_time r; end_time := end_time r;
     files_total := files_total r; files_transferred := files_transferred r;
     files_verified := files_verified r; files_failed := files_failed r;
     bytes_total := bytes_total r; failed_files := failed_files r;
     mhl_path := mhl_path r; log_path := log_path r; catalog_path := catalog_path r;
     phase1_duration := d1; phase2_duration := d2;
     phase3_duration := d3; phase4_duration := d4;
     phase5_duration := d5 |}.

Section Job.

Context `{Hash.XXH64}.

(** [utils.normalize_path] and [fnmatch.fnmatch], as above. *)
Variable normalize_path : str -> str.
Variable fnmatch : str -> str -> bool.

(** [format(x, spec)] for a float, as in [f"{x:.2f}"]. *)
Variable format_float : str -> Q -> str.

(** The XML text layer on the way out ([ET.tostring] and the pretty
    printer); [Doc] is the content of a manifest file. *)
Variable Doc : Type.
Variable xml_write : MHL.Element -> Doc.

(** The copy utility: from its command line, the source tree and the
    destination tree it finds, its output lines, its return code and the
    destination tree it leaves; [None] when [rsync] is not in [PATH]. *)
Variable rsync : list str -> Tree -> Tree -> option (list str * Z * Tree).

(** What opening the catalog database ([CatalogDB(config)]) and running
    one [INSERT] may raise. *)
Variable connect_fault : option exn.
Variable execute_fault : CatalogDB.FileRecord -> option exn.

(** The name, user, host and tool of [CreatorInfo.default()]. *)
Variable host_creator : MHL.CreatorInfo.

(** What the console raises for a text it prints and for a description of
    the progress row, as in the phases. *)
Variable print_fault : str -> option exn.
Variable describe_fault : str -> option exn.

(** What [open(path, mode)] raises for the path of a log, if anything:
    [FileNotFoundError] when the directory of the path is not there (a
    name with a [/] in it), another [OSError] for a name that is too long
    or a directory that may not be written. *)
Variable open_fault : str -> option exn.

(** What [Path.write_text] raises for a path and a text, if anything, and
    the content it leaves at the path then, if it made the file. *)
Variable write_fault : str -> Doc -> option (exn * option Doc).

(** What [path.exists()] raises, if anything: [exists] answers [False]
    for a missing file and lets the other errors of [stat] through (a name
    that is too long, a directory that may not be searched). *)
Variable exists_fault : str -> option exn.

(** What a job reads and writes: the system clock (its successive
    readings and how many were taken), whether a tape is mounted, the
    trees under the source paths and under the directories of the mount
    point, the manifest and log directories, the mirror tree (by path
    components under [catalog_dir]), the catalog database and the
    warnings printed on the console. *)
Record World := {
  clock : nat -> datetime;
  ticks : nat;
  mounted : bool;
  disk : gmap str Tree;
  tape : gmap str Tree;
  mhl_files : gmap str Doc;
  log_files : gmap str (list str);
  mirror : gmap (list str) Kind;
  catalog : CatalogDB.DB;
  console : list str
}.

Definition set_ticks (w : World) (n : nat) : World :=
  {| clock := clock w; ticks := n; mounted := mounted w; disk := disk w; tape := tape w;
     mhl_files := mhl_files w; log_files := log_files w; mirror := mirror w;
     catalog := catalog w; console := console w |}.

Definition set_tape (w : World) (t : gmap str Tree) : World :=
  {| clock := clock w; ticks := ticks w; mounted := mounted w; disk := disk w; tape := t;
     mhl_files := mhl_files w; log_files := log_files w; mirror := mirror w;
     catalog := catalog w; console := console w |}.

Definition set_mhl_files (w : World) (m : gmap str Doc) : World :=
  {| clock := clock w; ticks := ticks w; mounted := mounted w; disk := disk w;
     tape := tape w; mhl_files := m; log_files := log_files w; mirror := mirror w;
     catalog := catalog w; console := console w |}.

Definition set_log_files (w : World) (l : gmap str (list str)) : World :=
  {| clock := clock w; ticks := ticks w; mounted := mounted w; disk := disk w;
     tape := tape w; mhl_files := mhl_files w; log_files := l; mirror := mirror w;
     catalog := catalog w; console := console w |}.

Definition set_mirror (w : World) (m : gmap (list str) Kind) : World :=
  {| clock := clock w; ticks := ticks w; mounted := mounted w; disk := disk w;
     tape := tape w; mhl_files := mhl_files w; log_files := log_files w; mirror := m;
     catalog := catalog w; console := console w |}.

Definition set_catalog (w : World) (db : CatalogDB.DB) : World :=
  {| clock := clock w; ticks := ticks w; mounted := mounted w; disk := disk w;
     tape := tape w; mhl_files := mhl_files w; log_files := log_files w;
     mirror := mirror w; catalog := db; console := console w |}.

Definition set_console (w : World) (c : list str) : World :=
  {| clock := clock w; ticks := ticks w; mounted := mounted w; disk := disk w;
     tape := tape w; mhl_files := mhl_files w; log_files := log_files w;
     mirror := mirror w; catalog := catalog w; console := c |}.

(** A computation of the job: from a world, the world it leaves and its
    value or the exception it raises.  The world is kept when an exception
    is raised: a file that was written stays written. *)
Definition M (A : Type) : Type := World -> World * Result A.

#[export] Instance M_ret : MRet M := fun A a w => (w, Ok a).
#[export] Instance M_bind : MBind M := fun A B k m w =>
  match m w with
  | (w', Ok a) => k a w'
  | (w', Raise e) => (w', Raise e)
  end.

Definition raise {A} (e : exn) : M A := fun w => (w, Raise e).

(** [try: m except <handles> as e: h e] *)
Definition try_except {A} (m : M A) (handles : exn -> bool) (h : exn -> M A) : M A :=
  fun w =>
    match m w with
    | (w', Raise e) => if handles e then h e w' else (w', Raise e)
    | r => r
    end.

Definition gets {A} (f : World -> A) : M A := fun w => (w, Ok (f w)).
Definition modify (f : World -> World) : M unit := fun w => (f w, Ok tt).
Definition lift {A} (r : Result A) : M A := fun w => (w, r).

(** [datetime.now(timezone.utc)] and [datetime.now()]: the next reading of
    the clock, aware or naive. *)
Definition now_utc : M datetime := fun w =>
  (set_ticks w (S (ticks w)), Ok (replace_tzinfo_utc (clock w (ticks w)))).
Definition now_local : M datetime := fun w =>
  (set_ticks w (S (ticks w)), Ok (replace_tzinfo_none (clock w (ticks w)))).

(** A call that raises or does nothing else. *)
Definition check (fault : option exn) : M unit :=
  match fault with Some e => raise e | None => mret tt end.

(** [console.print(s)] for a text that is shown, and for a text with a
    name in it, which the console may refuse. *)
Definition print (s : str) : M unit :=
  modify (fun w => set_console w (console w ++ [s])).

Definition show (s : str) : M unit := check (print_fault s);; print s.

(** [open(path, "w")], [open(path, "a")] and [f.write(s)] on a log file;
    a file that is opened for appending is made when it is not there, and
    a write to an open file is taken to go through. *)
Definition log_create (path : str) : M unit :=
  check (open_fault path);;
  modify (fun w => set_log_files w (<[path := []]> (log_files w))).
Definition log_append (path : str) : M unit :=
  check (open_fault path);;
  modify (fun w =>
    set_log_files w (<[path := default [] (log_files w !! path)]> (log_files w))).
Definition log_write (path : str) (s : str) : M unit :=
  modify (fun w =>
    set_log_files w (<[path := default [] (log_files w !! path) ++ [s]]> (log_files w))).

(** A loop whose body may raise. *)
Fixpoint for_each {A} (l : list A) (body : A -> M unit) : M unit :=
  match l with
  | [] => mret tt
  | x :: l' => body x ≫= fun _ => for_each l' body
  end.

(** [str(e)] *)
Definition str_of_exn (e : exn) : str :=
  match e with
  | OSError msg | FileNotFoundError msg | SqliteError msg | MarkupError msg
  | TransferError msg => msg
  | ZeroDivisionError => lit "float division by zero"
  | ValueError => lit "invalid literal"
  | OverflowError => lit "Python int too large to convert to SQLite INTEGER"
  | KeyboardInterrupt => []
  end.

(** [l.insert(i, x)] *)
Definition list_insert_at {A} (i : nat) (x : A) (l : list A) : list A :=
  take i l ++ x :: drop i l.

(** The command line of phase 2 (lines 253-271). *)
Definition rsync_cmd (config : Config) (src dst : str) : list str :=
  let exclude_args := concat ((fun pattern => [lit "--exclude"; pattern]) <$> excludes config) in
  let cmd := [lit "rsync"] ++ rsync_opts config ++ exclude_args
             ++ [src ++ lit "/"; dst ++ lit "/"] in
  if bool_decide (platform_name config = lit "linux")
  then list_insert_at 3 (lit "--no-i-r") (list_insert_at 2 (lit "--info=progress2") cmd)
  else cmd.

(** The head of the log, written before the copy starts (lines 278-301).
    The throughput of phase 1 is computed when its line is formatted. *)
Definition log_head (log_path : str) (r : TransferResult) (hashed : Hashed)
    (phase1_start phase1_end : datetime) (phase1_duration : Q) (phase2_start : datetime)
  : M unit :=
  log_create log_path;;
  log_write log_path (lit "LTFS Transfer Log" ++ nl);;
  log_write log_path (lit "================" ++ nl);;
  log_write log_path (lit "Source: " ++ source r ++ nl);;
  log_write log_path (lit "Destination: " ++ destination r ++ nl);;
  log_write log_path (lit "Tape: " ++ tape_name r ++ nl);;
  log_write log_path (lit "Started: " ++ isoformat (start_time r) ++ nl);;
  log_write log_path (lit "Files counted: " ++ str_of_int (files_total r) ++ nl);;
  log_write log_path
    (lit "Files to transfer: "
     ++ str_of_int (Z.of_nat (length (source_hashes hashed))) ++ nl);;
  (if bool_decide (excluded_files hashed = []) then mret tt
   else
     log_write log_path
       (lit "Files excluded: "
        ++ str_of_int (Z.of_nat (length (excluded_files hashed))) ++ nl);;
     log_write log_path (nl ++ lit "--- Excluded files ---" ++ nl);;
     for_each (excluded_files hashed)
       (fun excluded => log_write log_path (lit "  " ++ excluded ++ nl)));;
  log_write log_path (nl ++ lit "--- Phase 1 (Hash source) ---" ++ nl);;
  log_write log_path (lit "Started: " ++ isoformat phase1_start ++ nl);;
  log_write log_path (lit "Finished: " ++ isoformat phase1_end ++ nl);;
  log_write log_path (lit "Duration: " ++ format_float (lit ".2f") phase1_duration
                      ++ lit "s" ++ nl);;
  let total_mb := megabytes (bytes_total r) in
  throughput ← lift (truediv total_mb phase1_duration);
  log_write log_path (lit "Throughput: " ++ format_float (lit ".1f") throughput
                      ++ lit " MB/s" ++ nl);;
  log_write log_path (nl ++ lit "--- Phase 2 (Transfer) ---" ++ nl);;
  log_write log_path (lit "Started: " ++ isoformat phase2_start ++ nl);;
  log_write log_path (nl ++ lit "--- rsync output ---" ++ nl).

(** Running the copy and copying its output to the console and to the
    log (lines 305-322); [Popen] raises [FileNotFoundError] when [rsync]
    is not in [PATH], and the lines of the output, which name the files,
    go to the console as markup. *)
Definition run_rsync (config : Config) (log_path : str) (r : TransferResult)
    (src_tree : Tree) (source_name : str) : M unit :=
  dst_tree ← gets (fun w => default [] (tape w !! source_name));
  match rsync (rsync_cmd config (source r) (destination r)) src_tree dst_tree with
  | None => raise (FileNotFoundError (lit "[Errno 2] No such file or directory: 'rsync'"))
  | Some (output, returncode, dst_tree') =>
      modify (fun w => set_tape w (<[source_name := dst_tree']> (tape w)));;
      for_each output (fun line => show (rstrip line);; log_write log_path line);;
      if bool_decide (returncode = 0) then mret tt
      else print (lit "[yellow]Warning:[/yellow] rsync returned " ++ str_of_int returncode)
  end.

(** The [try] of phase 2 (lines 276-327): the head of the log and the copy
    are in it, and a [FileNotFoundError] of either, that of a log that
    cannot be opened as that of a missing [rsync], becomes the
    [TransferError] of line 327. *)
Definition copy_with_log (config : Config) (log_path : str) (r : TransferResult)
    (hashed : Hashed) (phase1_start phase1_end : datetime) (phase1_duration : Q)
    (phase2_start : datetime) (src_tree : Tree) (source_name : str) : M unit :=
  try_except
    (log_head log_path r hashed phase1_start phase1_end phase1_duration phase2_start;;
     run_rsync config log_path r src_tree source_name)
    is_FileNotFoundError
    (fun _ => raise (TransferError (lit "rsync not found in PATH"))).

(** The end of phase 2 in the log (lines 333-338). *)
Definition log_phase2 (log_path : str) (r : TransferResult)
    (phase2_end : datetime) (phase2_duration : Q) : M unit :=
  log_append log_path;;
  log_write log_path (nl ++ lit "--- Phase 2 completed ---" ++ nl);;
  log_write log_path (lit "Finished: " ++ isoformat phase2_end ++ nl);;
  log_write log_path (lit "Duration: " ++ format_float (lit ".2f") phase2_duration
                      ++ lit "s" ++ nl);;
  let total_mb := megabytes (bytes_total r) in
  throughput ← lift (truediv total_mb phase2_duration);
  log_write log_path (lit "Throughput: " ++ format_float (lit ".1f") throughput
                      ++ lit " MB/s" ++ nl).

(** Phase 3 in the log (lines 439-451). *)
Definition log_phase3 (log_path : str) (r : TransferResult)
    (phase3_start phase3_end : datetime) (phase3_duration : Q) : M unit :=
  log_append log_path;;
  log_write log_path (nl ++ lit "--- Phase 3 (Verify) ---" ++ nl);;
  log_write log_path (lit "Started: " ++ isoformat phase3_start ++ nl);;
  log_write log_path (lit "Finished: " ++ isoformat phase3_end ++ nl);;
  log_write log_path (lit "Duration: " ++ format_float (lit ".2f") phase3_duration
                      ++ lit "s" ++ nl);;
  let total_mb := megabytes (bytes_total r) in
  throughput ← lift (truediv total_mb phase3_duration);
  log_write log_path (lit "Throughput: " ++ format_float (lit ".1f") throughput
                      ++ lit " MB/s" ++ nl);;
  log_write log_path (lit "Files verified: " ++ str_of_int (files_verified r) ++ nl);;
  log_write log_path (lit "Files failed: " ++ str_of_int (files_failed r) ++ nl);;
  if bool_decide (failed_files r = []) then mret tt
  else
    log_write log_path (nl ++ lit "--- Failed files ---" ++ nl);;
    for_each (failed_files r) (fun failed => log_write log_path (lit "  " ++ failed ++ nl)).

(** The summary at the end of the log (lines 557-581): the three phase
    throughputs are guarded, the overall one is not. *)
Definition log_summary (log_path : str) (r : TransferResult) (hashed : Hashed)
    (verify : bool) : M unit :=
  let total_mb := megabytes (bytes_total r) in
  let phase1_throughput :=
    if positive (phase1_duration r) then (total_mb / phase1_duration r)%Q else 0%Q in
  let phase2_throughput :=
    if positive (phase2_duration r) then (total_mb / phase2_duration r)%Q else 0%Q in
  let phase3_throughput :=
    if positive (phase3_duration r) then (total_mb / phase3_duration r)%Q else 0%Q in
  log_append log_path;;
  log_write log_path (nl ++ lit "--- Summary ---" ++ nl);;
  log_write log_path (lit "Finished: " ++ isoformat (end_time r) ++ nl);;
  log_write log_path (lit "Duration: " ++ format_float (lit ".1f") (duration_seconds r)
                      ++ lit "s" ++ nl);;
  log_write log_path (lit "Files counted: " ++ str_of_int (files_total r) ++ nl);;
  log_write log_path
    (lit "Files transferred: "
     ++ str_of_int (Z.of_nat (length (source_hashes hashed))) ++ nl);;
  (if bool_decide (excluded_files hashed = []) then mret tt
   else log_write log_path
          (lit "Files excluded: "
           ++ str_of_int (Z.of_nat (length (excluded_files hashed))) ++ nl));;
  log_write log_path (lit "Files verified: " ++ str_of_int (files_verified r) ++ nl);;
  log_write log_path (lit "Files failed: " ++ str_of_int (files_failed r) ++ nl);;
  log_write log_path (nl ++ lit "--- Phase Performance ---" ++ nl);;
  log_write log_path
    (lit "Phase 1 (Hash source):    " ++ format_float (lit "8.2f") (phase1_duration r)
     ++ lit "s  (" ++ format_float (lit "6.1f") phase1_throughput ++ lit " MB/s)" ++ nl);;
  log_write log_path
    (lit "Phase 2 (Transfer):       " ++ format_float (lit "8.2f") (phase2_duration r)
     ++ lit "s  (" ++ format_float (lit "6.1f") phase2_throughput ++ lit " MB/s)" ++ nl);;
  (if verify then
     log_write log_path
       (lit "Phase 3 (Verify):         " ++ format_float (lit "8.2f") (phase3_duration r)
        ++ lit "s  (" ++ format_float (lit "6.1f") phase3_throughput ++ lit " MB/s)" ++ nl)
   else mret tt);;
  log_write log_path
    (lit "Phase 4 (MHL):            " ++ format_float (lit "8.2f") (phase4_duration r)
     ++ lit "s" ++ nl);;
  log_write log_path
    (lit "Phase 5 (Catalog):        " ++ format_float (lit "8.2f") (phase5_duration r)
     ++ lit "s" ++ nl);;
  overall ← lift (truediv total_mb (duration_seconds r));
  log_write log_path
    (lit "Overall throughput:       " ++ format_float (lit "6.1f") overall
     ++ lit " MB/s" ++ nl).

(** *** Phase 4: the manifest *)

(** The loop that builds the entries (lines 466-483): one per item of the
    ledger, in order, with the modification time of the tape file if its
    [stat] answers and the clock reading as [hash_date]. *)
Fixpoint manifest_entries (ledger : Ledger) (dst_tree : Tree) : M (list MHL.HashEntry) :=
  match ledger with
  | [] => mret []
  | (rel_path, (file_hash, file_size)) :: ledger' =>
      let mtime := match stat_path dst_tree rel_path with
                   | Got st => Some (st_mtime st)
                   | Err _ => None
                   end in
      hash_date ← now_utc;
      entries ← manifest_entries ledger' dst_tree;
      mret ({| MHL.file := rel_path; MHL.size := file_size; MHL.xxhash64be := file_hash;
               MHL.last_modification_date := mtime;
               MHL.hash_date := Some hash_date |} :: entries)
  end.

(** [MHL(creator_info=CreatorInfo.default(), tape_info=TapeInfo(name=...))]
    with the two dates of the creator assigned; [CreatorInfo.default()]
    reads the clock for a start date that is then replaced. *)
Definition new_manifest (tape_name : str) (start finish : datetime)
    (entries : list MHL.HashEntry) : MHL.MHL :=
  {| MHL.version := lit "1.1";
     MHL.creator_info :=
       {| MHL.ci_name := MHL.ci_name host_creator;
          MHL.username := MHL.username host_creator;
          MHL.hostname := MHL.hostname host_creator;
          MHL.tool := MHL.tool host_creator;
          MHL.start_date := Some start;
          MHL.finish_date := Some finish |};
     MHL.tape_info := Some {| MHL.ti_name := tape_name; MHL.serial := [];
                              MHL.vendor := []; MHL.product := [] |};
     MHL.hashes := entries |}.

(** [config.mhl_dir / f"{tape_name}_{source_name}_{timestamp}.mhl"] *)
Definition manifest_path (config : Config) (tape_name source_name timestamp : str) : str :=
  joinpath (mhl_dir config)
    (tape_name ++ lit "_" ++ source_name ++ lit "_" ++ timestamp ++ lit ".mhl").

(** [mhl.save(mhl_path)] *)
Definition save_manifest (m : MHL.MHL) (path : str) : M unit := fun w =>
  let '(fs, outcome) :=
    MHL.save normalize_path Doc xml_write write_fault (mhl_files w) m path in
  (set_mhl_files w fs, outcome).

(** Phase 4 of [transfer] (lines 455-490): the path of the manifest and
    the duration of the phase. *)
Definition emit_manifest (config : Config) (tape_name source_name timestamp : str)
    (start_time : datetime) (ledger : Ledger) : M (str * Q) :=
  phase4_start ← now_utc;
  _ ← now_utc;
  finish_date ← now_utc;
  dst_tree ← gets (fun w => default [] (tape w !! source_name));
  entries ← manifest_entries ledger dst_tree;
  let mhl := new_manifest tape_name start_time finish_date entries in
  let mhl_path := manifest_path config tape_name source_name timestamp in
  save_manifest mhl mhl_path;;
  phase4_end ← now_utc;
  mret (mhl_path, total_seconds phase4_end phase4_start).

(** *** Phase 5a: the mirror tree *)

(** [path.mkdir(parents=True, exist_ok=True)] for the directory with
    components [base ++ rest], the directory [base] being there: a
    component that exists as a file stops it with [FileExistsError] (the
    last one) or [NotADirectoryError]. *)
Fixpoint mkdir_from (base rest : list str) (m : gmap (list str) Kind)
  : Result (gmap (list str) Kind) :=
  match rest with
  | [] => Ok m
  | c :: rest' =>
      let p := base ++ [c] in
      match m !! p with
      | Some Dir => mkdir_from p rest' m
      | Some (File _) =>
          Raise (OSError (if bool_decide (rest' = [])
                          then lit "[Errno 17] File exists"
                          else lit "[Errno 20] Not a directory"))
      | None => mkdir_from p rest' (<[p := Dir]> m)
      end
  end.

Definition mkdir_parents (dir : list str) : M unit := fun w =>
  match mkdir_from [] dir (mirror w) with
  | Ok m => (set_mirror w m, Ok tt)
  | Raise e => (w, Raise e)
  end.

(** [path.touch()] where the parent directory is there: a new empty file,
    or new times for an existing one. *)
Definition touch (p : list str) : M unit :=
  modify (fun w =>
    set_mirror w
      match mirror w !! p with
      | Some Dir => mirror w
      | _ => <[p := File None]> (mirror w)
      end).

(** [os.utime(path, (atime, mtime))] *)
Definition utime (p : list str) (atime mtime : datetime) : M unit :=
  modify (fun w =>
    set_mirror w
      match mirror w !! p with
      | Some (File _) => <[p := File (Some (atime, mtime))]> (mirror w)
      | _ => mirror w
      end).

(** Phase 5a of [transfer] (lines 496-517). *)
Definition update_mirror (tape_name source_name : str) (ledger : Ledger) : M unit :=
  let catalog_tape_dir := parts tape_name ++ parts source_name in
  mkdir_parents catalog_tape_dir;;
  dst_tree ← gets (fun w => default [] (tape w !! source_name));
  for_each (keys ledger) (fun rel_path =>
    let catalog_file := catalog_tape_dir ++ parts rel_path in
    mkdir_parents (removelast catalog_file);;
    touch catalog_file;;
    match stat_path dst_tree rel_path with
    | Got st => utime catalog_file (st_atime st) (st_mtime st)
    | Err _ => mret tt
    end).

(** *** Phase 5b: the catalog database *)

(** The list [db_files] of [transfer] (lines 527-536). *)
Definition db_files_of_ledger (ledger : Ledger) (dst_tree : Tree)
  : list CatalogDB.FileTuple :=
  (fun item =>
     let '(rel_path, (file_hash, file_size)) := item in
     let mtime := match stat_path dst_tree rel_path with
                  | Got st => Some (st_mtime st)
                  | Err _ => None
                  end in
     (rel_path, file_size, mtime, Some file_hash)) <$> ledger.

(** The body of the [try] of phase 5b once [db_files] is known: open the
    database, [add_tape], [add_files] with the clock reading as
    [archived_at].  Each of the two calls commits on its own. *)
Definition catalog_calls (tape_name : str) (db_files : list CatalogDB.FileTuple) : M unit :=
  match connect_fault with
  | Some e => raise e
  | None =>
      db ← gets catalog;
      db1 ← lift (CatalogDB.add_tape db tape_name None None None);
      modify (fun w => set_catalog w db1);;
      archived_at ← now_utc;
      '(db2, _) ← lift (CatalogDB.add_files normalize_path execute_fault db1 tape_name
                          db_files (Some archived_at) archived_at);
      modify (fun w => set_catalog w db2)
  end.

(** Phase 5b (lines 519-542): [except Exception] prints a warning. *)
Definition update_catalog_db (tape_name : str) (db_files : list CatalogDB.FileTuple)
  : M unit :=
  try_except (catalog_calls tape_name db_files) is_Exception
    (fun e => print (lit "[yellow]Warning:[/yellow] Could not update catalog database: "
                     ++ str_of_exn e)).

(** Phase 5 of [transfer] (lines 492-545): its duration. *)
Definition update_catalog (tape_name source_name : str) (ledger : Ledger) : M Q :=
  phase5_start ← now_utc;
  update_mirror tape_name source_name ledger;;
  dst_tree ← gets (fun w => default [] (tape w !! source_name));
  update_catalog_db tape_name (db_files_of_ledger ledger dst_tree);;
  phase5_end ← now_utc;
  mret (total_seconds phase5_end phase5_start).

(** *** The job *)

(** Phase 3 of [transfer] with its log (lines 340-453): the result and the
    duration of the phase. *)
Definition verify_destination (log_path source_name : str) (ledger : Ledger)
    (r : TransferResult) : M (TransferResult * Q) :=
  phase3_start ← now_utc;
  dst_tree ← gets (fun w => default [] (tape w !! source_name));
  r ← lift (phase3_run normalize_path print_fault describe_fault ledger dst_tree r);
  let r := set_transferred r in
  phase3_end ← now_utc;
  let phase3_duration := total_seconds phase3_end phase3_start in
  log_phase3 log_path r phase3_start phase3_end phase3_duration;;
  mret (r, phase3_duration).

(** The part of [transfer] after the dry-run exit (lines 180-583). *)
Definition run_phases (config : Config) (verify : bool) (src_tree : Tree)
    (tape_name source_name timestamp : str) (result : TransferResult)
  : M TransferResult :=
  (* Phase 1 *)
  phase1_start ← now_utc;
  hashed ← lift (phase1_run normalize_path fnmatch print_fault describe_fault
                   (excludes config) src_tree);
  for_each (warnings hashed) print;;
  phase1_end ← now_utc;
  let phase1_duration := total_seconds phase1_end phase1_start in
  (* Phase 2 *)
  phase2_start ← now_utc;
  let log_file_path :=
    joinpath (log_dir config)
      (lit "transfer_" ++ tape_name ++ lit "_" ++ source_name ++ lit "_"
       ++ timestamp ++ lit ".log") in
  copy_with_log config log_file_path result hashed phase1_start phase1_end
    phase1_duration phase2_start src_tree source_name;;
  let result := set_paths result (mhl_path result) (Some log_file_path) (catalog_path result) in
  phase2_end ← now_utc;
  let phase2_duration := total_seconds phase2_end phase2_start in
  log_phase2 log_file_path result phase2_end phase2_duration;;
  (* Phase 3 *)
  '(result, phase3_duration) ←
    (if verify
     then verify_destination log_file_path source_name (source_hashes hashed) result
     else mret (result, 0%Q));
  (* Phase 4 *)
  '(mhl_file, phase4_duration) ←
    emit_manifest config tape_name source_name timestamp (start_time result)
      (source_hashes hashed);
  let result := set_paths result (Some mhl_file) (log_path result) (catalog_path result) in
  (* Phase 5 *)
  phase5_duration ← update_catalog tape_name source_name (source_hashes hashed);
  let result :=
    set_paths result (mhl_path result) (log_path result)
      (Some (joinpath (joinpath (catalog_dir config) tape_name) source_name)) in
  (* Finalize *)
  end_time ← now_utc;
  let result := set_end_time result end_time in
  let result := set_durations result phase1_duration phase2_duration
                  phase3_duration phase4_duration phase5_duration in
  log_summary log_file_path result hashed verify;;
  mret result.

(** [transfer(source, tape_name, dry_run, verify, config)].  The
    directories that [config.init_dirs()] makes are taken to be there,
    and a job prints the warnings of phase 1 while it runs the phase: the
    console of the world takes them when the phase has gone through. *)
Definition transfer (src : str) (tape : option str) (dry_run verify : bool)
    (config : Config) : M TransferResult :=
  check (exists_fault src);;
  src_tree ← gets (fun w => disk w !! src);
  match src_tree with
  | None => raise (TransferError (lit "Source not found: " ++ src))
  | Some src_tree =>
      check (exists_fault (mount_point config));;
      is_mounted ← gets mounted;
      if negb is_mounted
      then raise (TransferError (lit "No tape mounted at " ++ mount_point config))
      else
        let tape_name := str_or tape (basename (mount_point config)) in
        let source_name := basename src in
        local_now ← now_local;
        let timestamp := strftime STAMP_FORMAT local_now in
        start_time ← now_utc;
        let result :=
          new_result src (joinpath (mount_point config) source_name) tape_name start_time in
        let result := set_counts result (check_source src_tree).1 (check_source src_tree).2 in
        if dry_run then
          end_time ← now_utc;
          mret (set_end_time result end_time)
        else
          run_phases config verify src_tree tape_name source_name timestamp result
  end.

(** *** Running a job step by step *)

Lemma run_bind_ok {A B} (m : M A) (k : A -> M B) w w' a :
  m w = (w', Ok a) -> (m ≫= k) w = k a w'.
Proof. intros E. unfold mbind, M_bind. by rewrite E. Qed.

Lemma run_bind_raise {A B} (m : M A) (k : A -> M B) w w' e :
  m w = (w', Raise e) -> (m ≫= k) w = (w', Raise e).
Proof. intros E. unfold mbind, M_bind. by rewrite E. Qed.

Lemma run_gets {A B} (f : World -> A) (k : A -> M B) w : (gets f ≫= k) w = k (f w) w.
Proof. reflexivity. Qed.

Lemma run_modify {B} (f : World -> World) (k : unit -> M B) w :
  (modify f ≫= k) w = k tt (f w).
Proof. reflexivity. Qed.

Lemma run_now_utc {B} (k : datetime -> M B) w :
  (now_utc ≫= k) w
  = k (replace_tzinfo_utc (clock w (ticks w))) (set_ticks w (S (ticks w))).
Proof. reflexivity. Qed.

Lemma run_now_local {B} (k : datetime -> M B) w :
  (now_local ≫= k) w
  = k (replace_tzinfo_none (clock w (ticks w))) (set_ticks w (S (ticks w))).
Proof. reflexivity. Qed.

Lemma run_lift {A B} (x : Result A) (k : A -> M B) w :
  (lift x ≫= k) w = match x with Ok a => k a w | Raise e => (w, Raise e) end.
Proof. by destruct x. Qed.

(** [keeps R m]: whatever [m] returns or raises, the world it leaves is
    related by [R] to the world it found. *)
Definition keeps (R : relation World) {A} (m : M A) : Prop :=
  forall w w' r, m w = (w', r) -> R w w'.

(** [safe m]: [m] returns. *)
Definition safe {A} (m : M A) : Prop := forall w, exists w' a, m w = (w', Ok a).

(** [raises e m]: [m] raises [e]. *)
Definition raises {A} (e : exn) (m : M A) : Prop := forall w, (m w).2 = Raise e.

Section Keeps.
Context (R : relation World) `{!PreOrder R}.

Lemma keeps_ret {A} (a : A) : keeps R (mret a).
Proof. intros w w' r. unfold mret, M_ret. intros [= <- _]. reflexivity. Qed.

Lemma keeps_raise {A} e : keeps R (raise (A := A) e).
Proof. intros w w' r. unfold raise. intros [= <- _]. reflexivity. Qed.

Lemma keeps_lift {A} (x : Result A) : keeps R (lift x).
Proof. intros w w' r. unfold lift. intros [= <- _]. reflexivity. Qed.

Lemma keeps_gets {A} (f : World -> A) : keeps R (gets f).
Proof. intros w w' r. unfold gets. intros [= <- _]. reflexivity. Qed.

Lemma keeps_modify (f : World -> World) : (forall w, R w (f w)) -> keeps R (modify f).
Proof. intros Hf w w' r. unfold modify. intros [= <- _]. apply Hf. Qed.

Lemma keeps_now_utc : (forall w n, R w (set_ticks w n)) -> keeps R now_utc.
Proof. intros Hf w w' r. unfold now_utc. intros [= <- _]. apply Hf. Qed.

Lemma keeps_now_local : (forall w n, R w (set_ticks w n)) -> keeps R now_local.
Proof. intros Hf w w' r. unfold now_local. intros [= <- _]. apply Hf. Qed.

Lemma keeps_bind {A B} (m : M A) (k : A -> M B) :
  keeps R m -> (forall a, keeps R (k a)) -> keeps R (m ≫= k).
Proof.
  intros Hm Hk w w' r. unfold mbind, M_bind.
  destruct (m w) as [w1 [a|e]] eqn:E.
  - intros E2. transitivity w1; [by eapply Hm|by eapply Hk].
  - intros [= <- _]. by eapply Hm.
Qed.

Lemma keeps_for_each {A} (l : list A) (body : A -> M unit) :
  (forall x, keeps R (body x)) -> keeps R (for_each l body).
Proof.
  intros Hb. induction l as [|x l IH]; simpl; [apply keeps_ret|].
  apply keeps_bind; [apply Hb|]. intros _. apply IH.
Qed.

Lemma keeps_check fault : keeps R (check fault).
Proof. destruct fault; [apply keeps_raise|apply keeps_ret]. Qed.

Lemma keeps_try_except {A} (m : M A) handles (h : exn -> M A) :
  keeps R m -> (forall e, keeps R (h e)) -> keeps R (try_except m handles h).
Proof.
  intros Hm Hh w w' r. unfold try_except.
  destruct (m w) as [w1 [a|e]] eqn:E.
  - intros [= <- _]. by eapply Hm.
  - destruct (handles e).
    + intros E2. transitivity w1; [by eapply Hm|by eapply Hh].
    + intros [= <- _]. by eapply Hm.
Qed.

End Keeps.

Lemma safe_ret {A} (a : A) : safe (mret a).
Proof. intros w. by exists w, a. Qed.

Lemma safe_modify f : safe (modify f).
Proof. intros w. by exists (f w), tt. Qed.

Lemma safe_bind {A B} (m : M A) (k : A -> M B) :
  safe m -> (forall a, safe (k a)) -> safe (m ≫= k).
Proof.
  intros Hm Hk w. destruct (Hm w) as (w1 & a & E).
  rewrite (run_bind_ok _ _ _ _ _ E). apply Hk.
Qed.

Lemma safe_for_each {A} (l : list A) (body : A -> M unit) :
  (forall x, safe (body x)) -> safe (for_each l body).
Proof.
  intros Hb. induction l as [|x l IH]; simpl; [apply safe_ret|].
  apply safe_bind; [apply Hb|]. intros _. apply IH.
Qed.

Lemma raises_bind_safe {A B} e (m : M A) (k : A -> M B) :
  safe m -> (forall a, raises e (k a)) -> raises e (m ≫= k).
Proof.
  intros Hm Hk w. destruct (Hm w) as (w1 & a & E).
  rewrite (run_bind_ok _ _ _ _ _ E). apply Hk.
Qed.

Lemma raises_lift_bind {A B} e (k : A -> M B) : raises e (lift (Raise e) ≫= k).
Proof. by intros w. Qed.

(** Worlds that differ in the log files and on the console only. *)
Definition logs_only (w w' : World) : Prop :=
  clock w' = clock w /\ ticks w' = ticks w /\ mounted w' = mounted w
  /\ disk w' = disk w /\ tape w' = tape w /\ mhl_files w' = mhl_files w
  /\ mirror w' = mirror w /\ catalog w' = catalog w.

#[local] Instance logs_only_preorder : PreOrder logs_only.
Proof.
  split.
  - intros w. by repeat split.
  - intros a b c (?&?&?&?&?&?&?&?) (?&?&?&?&?&?&?&?). repeat split; congruence.
Qed.

Lemma keeps_logs_print s : keeps logs_only (print s).
Proof. apply keeps_modify. intros w. by repeat split. Qed.

Lemma keeps_logs_create p : keeps logs_only (log_create p).
Proof.
  apply (keeps_bind logs_only); [apply (keeps_check logs_only)|intros _].
  apply keeps_modify. intros w. by repeat split.
Qed.

Lemma safe_check_None : safe (check None).
Proof. apply safe_ret. Qed.

Lemma safe_log_create p : open_fault p = None -> safe (log_create p).
Proof.
  intros E. unfold log_create. rewrite E.
  apply safe_bind; [apply safe_check_None|intros _; apply safe_modify].
Qed.

Lemma keeps_logs_write p s : keeps logs_only (log_write p s).
Proof. apply keeps_modify. intros w. by repeat split. Qed.

Ltac keeps_logs :=
  repeat first
    [ apply keeps_logs_write | apply keeps_logs_create | apply keeps_logs_print
    | apply (keeps_ret logs_only) | apply (keeps_lift logs_only)
    | apply (keeps_for_each logs_only); intros ?
    | apply (keeps_bind logs_only); [|intros ?]
    | match goal with |- keeps _ (if ?b then _ else _) => destruct b end ].

Ltac safe_logs :=
  repeat first
    [ apply safe_modify | apply safe_ret
    | apply safe_for_each; intros ?
    | apply safe_bind; [|intros ?]
    | match goal with |- safe (if ?b then _ else _) => destruct b end ].

(** *** The manifest of phase 4 *)

Lemma manifest_entries_run (ledger : Ledger) (dst : Tree) : forall w,
  exists entries,
    manifest_entries ledger dst w = (set_ticks w (ticks w + length ledger), Ok entries)
    /\ (fun e => (MHL.file e, (MHL.xxhash64be e, MHL.size e))) <$> entries = ledger
    /\ forall e, e ∈ entries ->
         MHL.last_modification_date e
         = match stat_path dst (MHL.file e) with
           | Got st => Some (st_mtime st)
           | Err _ => None
           end.
Proof.
  induction ledger as [|[rel_path [file_hash file_size]] ledger IH]; intros w.
  - exists []. split_and!; [|done|by intros e ?%elem_of_nil].
    unfold manifest_entries, mret, M_ret. f_equal. destruct w. unfold set_ticks. simpl.
    f_equal. lia.
  - cbn [manifest_entries]. rewrite run_now_utc.
    destruct (IH (set_ticks w (S (ticks w)))) as (entries & E & Hl & Hm).
    rewrite (run_bind_ok _ _ _ _ _ E).
    eexists. split_and!.
    + unfold mret, M_ret. f_equal. destruct w. unfold set_ticks. simpl. f_equal.
      simpl. lia.
    + rewrite fmap_cons, Hl. done.
    + intros e [->|He]%elem_of_cons; [done|by apply Hm].
Qed.

(** What saving a manifest leaves. *)
Lemma save_manifest_run (m : MHL.MHL) (path : str) (w : World) :
  exists w',
    (tape w' = tape w /\ log_files w' = log_files w /\ mirror w' = mirror w
     /\ catalog w' = catalog w /\ ticks w' = ticks w
     /\ forall p, p <> path -> mhl_files w' !! p = mhl_files w !! p)
    /\ match write_fault path (MHL.to_xml normalize_path Doc xml_write m) with
       | None =>
           save_manifest m path w = (w', Ok tt)
           /\ mhl_files w' !! path = Some (MHL.to_xml normalize_path Doc xml_write m)
       | Some (e, _) => save_manifest m path w = (w', Raise e)
       end.
Proof.
  unfold save_manifest, MHL.save.
  destruct (write_fault path _) as [[e [partial|]]|]; eexists;
    (split; [|first [reflexivity | split; [reflexivity|]]]);
    cbn [tape log_files mirror catalog ticks mhl_files set_mhl_files];
    rewrite ?lookup_insert_eq; try done;
    (split_and!; [done..|]); intros p Hp; by rewrite ?lookup_insert_ne.
Qed.


(** *** Phase 5b never stops the job *)

Lemma add_files_loop_raises fs : forall db t a added total e,
  (forall r e, execute_fault r = Some e -> is_Exception e = true) ->
  CatalogDB.add_files_loop normalize_path execute_fault db t a fs added total = Raise e ->
  is_Exception e = true.
Proof.
  induction fs as [|[[[p sz] mt] h] fs IH]; intros db t a added total e Hx; [done|].
  simpl. unfold CatalogDB.execute_insert. simpl.
  destruct (negb (CatalogDB.int64 sz)); simpl.
  { by intros [= <-]. }
  destruct (execute_fault _) as [e'|] eqn:Ef; simpl.
  - destruct (is_sqlite_Error e') eqn:Es; [by apply IH|].
    intros [= <-]. by eapply Hx.
  - by apply IH.
Qed.

Lemma add_files_raises db t fs archived now e :
  (forall r e, execute_fault r = Some e -> is_Exception e = true) ->
  CatalogDB.add_files normalize_path execute_fault db t fs archived now = Raise e ->
  is_Exception e = true.
Proof.
  intros Hx. unfold CatalogDB.add_files. destruct fs as [|x fs]; [done|].
  destruct (CatalogDB.add_files_loop _ _ _ _ _ _ _ _) as [[[db2 a2] t2]|e'] eqn:El.
  - simpl. destruct (negb _); [by intros [= <-]|done].
  - simpl. intros [= <-]. by eapply add_files_loop_raises.
Qed.

(** X16.  When opening the database and running an [INSERT] raise
    ordinary exceptions only, phase 5b never raises, whatever goes wrong:
    it returns, the manifests, the logs, the mirror tree and the tape are
    as they were, and a catalog whose aggregates were right and that had no
    orphan row is still so, whether the update went through, stopped after
    [add_tape], or did not start. *)
Theorem catalog_failure_is_not_fatal (tape_name : str)
    (db_files : list CatalogDB.FileTuple) (w : World) :
  (forall e, connect_fault = Some e -> is_Exception e = true) ->
  (forall r e, execute_fault r = Some e -> is_Exception e = true) ->
  CatalogDB.consistent (catalog w) ->
  exists w',
    update_catalog_db tape_name db_files w = (w', Ok tt)
    /\ mhl_files w' = mhl_files w /\ log_files w' = log_files w
    /\ mirror w' = mirror w /\ tape w' = tape w
    /\ CatalogDB.consistent (catalog w').
Proof.
  intros Hc Hx Hcons. unfold update_catalog_db, try_except, catalog_calls.
  destruct connect_fault as [e|] eqn:Ec.
  { unfold raise. rewrite (Hc e) by done. eexists. split; [reflexivity|]. done. }
  rewrite run_gets.
  assert (CatalogDB.consistent
            {| CatalogDB.tapes := CatalogDB.upsert_tape (CatalogDB.tapes (catalog w))
                                    tape_name None None None;
               CatalogDB.files := CatalogDB.files (catalog w);
               CatalogDB.next_id := CatalogDB.next_id (catalog w) |}) as Hcons1.
  { by eapply (CatalogDB.add_tape_consistent (catalog w) tape_name None None None). }
  unfold CatalogDB.add_tape. rewrite run_lift. cbv beta iota.
  rewrite run_modify, run_now_utc, run_lift.
  destruct (CatalogDB.add_files _ _ _ _ _ _ _) as [[db2 n]|e] eqn:Ea.
  - eexists. split; [reflexivity|]. split_and!; try done.
    simpl. by eapply CatalogDB.add_files_consistent.
  - rewrite (add_files_raises _ _ _ _ _ _ Hx Ea).
    eexists. split; [reflexivity|]. split_and!; done.
Qed.

(** *** Phase 5a stops on a file that is in the way *)

Lemma mkdir_from_keeps rest : forall base m m' q k,
  mkdir_from base rest m = Ok m' -> m !! q = Some k -> m' !! q = Some k.
Proof.
  induction rest as [|c rest IH]; intros base m m' q k; simpl.
  - by intros [= <-].
  - destruct (m !! (base ++ [c])) as [[|t]|] eqn:E; [apply IH|done|].
    intros Hm Hq. eapply IH; [done|].
    rewrite lookup_insert_ne; [done|]. intros <-. congruence.
Qed.

Lemma mkdir_from_conflict rest : forall base m n t,
  (0 < n <= length rest)%nat ->
  m !! (base ++ take n rest) = Some (File t) ->
  exists msg, mkdir_from base rest m = Raise (OSError msg).
Proof.
  induction rest as [|c rest IH]; intros base m n t [Hn Hle] Hm; simpl in *; [lia|].
  destruct n as [|n]; [lia|]. simpl in Hm.
  destruct (decide (n = 0%nat)) as [->|Hn0].
  { rewrite take_0 in Hm. rewrite Hm. by eexists. }
  replace (base ++ c :: take n rest) with ((base ++ [c]) ++ take n rest) in Hm
    by by rewrite <- app_assoc.
  assert (base ++ [c] <> (base ++ [c]) ++ take n rest) as Hne.
  { intros E. apply (f_equal length) in E.
    rewrite !length_app, length_take in E. simpl in E. lia. }
  destruct (m !! (base ++ [c])) as [[|t']|] eqn:E.
  - apply (IH _ _ n t); [lia|done].
  - by eexists.
  - apply (IH _ _ n t); [lia|]. by rewrite lookup_insert_ne.
Qed.

(** The file that is in the way stays a file through the steps of the
    loop. *)
Definition is_placeholder (m : gmap (list str) Kind) (p : list str) : Prop :=
  exists t, m !! p = Some (File t).

Lemma mkdir_parents_run dir p w w' r :
  mkdir_parents dir w = (w', r) ->
  is_placeholder (mirror w) p ->
  is_placeholder (mirror w') p
  /\ mhl_files w' = mhl_files w /\ log_files w' = log_files w
  /\ catalog w' = catalog w /\ tape w' = tape w
  /\ (r = Ok tt \/ exists msg, r = Raise (OSError msg))
  /\ ((exists n, (0 < n <= length dir)%nat /\ p = take n dir) ->
      exists msg, r = Raise (OSError msg)).
Proof.
  unfold mkdir_parents. intros E [t Hp].
  destruct (mkdir_from [] dir (mirror w)) as [m'|e] eqn:Em.
  - injection E as <- <-. split_and!; try done.
    + exists t. by eapply mkdir_from_keeps.
    + by left.
    + intros (n & Hn & ->).
      destruct (mkdir_from_conflict dir [] (mirror w) n t Hn Hp) as [msg Hmsg].
      congruence.
  - injection E as <- <-.
    assert (exists msg, e = OSError msg) as [msg ->].
    { clear Hp. revert Em. generalize (@nil str) as base. generalize (mirror w) as m.
      induction dir as [|c dir IH]; intros m base; simpl; [done|].
      destruct (m !! (base ++ [c])) as [[|t']|]; [apply IH| |apply IH].
      intros [= <-]. by eexists. }
    split_and!; try done; [by exists t|right; by eexists|intros _; by eexists].
Qed.

Lemma touch_run q p w :
  is_placeholder (mirror w) p -> is_placeholder (mirror (touch q w).1) p.
Proof.
  intros [t Hp]. unfold touch, modify. simpl.
  destruct (mirror w !! q) as [[|t']|] eqn:E; [by exists t| |].
  - destruct (decide (q = p)) as [->|Hne].
    + exists None. by rewrite lookup_insert_eq.
    + exists t. by rewrite lookup_insert_ne.
  - destruct (decide (q = p)) as [->|Hne]; [congruence|].
    exists t. by rewrite lookup_insert_ne.
Qed.

Lemma utime_run q a b p w :
  is_placeholder (mirror w) p -> is_placeholder (mirror (utime q a b w).1) p.
Proof.
  intros [t Hp]. unfold utime, modify. simpl.
  destruct (mirror w !! q) as [[|t']|] eqn:E; [by exists t| |by exists t].
  destruct (decide (q = p)) as [->|Hne].
  - eexists. by rewrite lookup_insert_eq.
  - exists t. by rewrite lookup_insert_ne.
Qed.

(** One turn of the loop of phase 5a. *)
Definition mirror_file (dir : list str) (dst_tree : Tree) (rel_path : str) : M unit :=
  let catalog_file := dir ++ parts rel_path in
  mkdir_parents (removelast catalog_file);;
  touch catalog_file;;
  match stat_path dst_tree rel_path with
  | Got st => utime catalog_file (st_atime st) (st_mtime st)
  | Err _ => mret tt
  end.

Lemma mirror_file_run dir dst_tree rel_path p w w' r :
  mirror_file dir dst_tree rel_path w = (w', r) ->
  is_placeholder (mirror w) p ->
  is_placeholder (mirror w') p
  /\ mhl_files w' = mhl_files w /\ log_files w' = log_files w
  /\ catalog w' = catalog w /\ tape w' = tape w
  /\ (r = Ok tt \/ exists msg, r = Raise (OSError msg))
  /\ ((exists n, (0 < n <= length (removelast (dir ++ parts rel_path)))%nat
                 /\ p = take n (removelast (dir ++ parts rel_path))) ->
      exists msg, r = Raise (OSError msg)).
Proof.
  unfold mirror_file. cbv zeta. intros E Hp.
  destruct (mkdir_parents (removelast (dir ++ parts rel_path)) w) as [w1 r1] eqn:E1.
  destruct (mkdir_parents_run _ p _ _ _ E1 Hp) as (Hp1 & Hm & Hl & Hc & Ht & Hr & Hx).
  destruct Hr as [->|[msg ->]].
  - rewrite (run_bind_ok _ _ _ _ _ E1) in E.
    pose proof (touch_run (dir ++ parts rel_path) p w1 Hp1) as Hp2.
    destruct (stat_path dst_tree rel_path) as [st|msg].
    + pose proof (utime_run (dir ++ parts rel_path) (st_atime st) (st_mtime st) p _ Hp2)
        as Hp3.
      unfold touch, utime in E. rewrite run_modify in E. unfold modify in E.
      injection E as <- <-.
      split_and!; [exact Hp3|exact Hm|exact Hl|exact Hc|exact Ht|by left|].
      intros Hn. destruct (Hx Hn) as [? ?]. done.
    + unfold touch in E. rewrite run_modify in E. unfold mret, M_ret in E.
      injection E as <- <-.
      split_and!; [exact Hp2|exact Hm|exact Hl|exact Hc|exact Ht|by left|].
      intros Hn. destruct (Hx Hn) as [? ?]. done.
  - rewrite (run_bind_raise _ _ _ _ _ E1) in E. injection E as <- <-.
    split_and!; [done..|right; by eexists|intros _; by eexists].
Qed.

Lemma mirror_loop_run dir dst_tree p (l : list str) : forall w w' r,
  for_each l (mirror_file dir dst_tree) w = (w', r) ->
  is_placeholder (mirror w) p ->
  mhl_files w' = mhl_files w /\ log_files w' = log_files w
  /\ catalog w' = catalog w /\ tape w' = tape w
  /\ (r = Ok tt \/ exists msg, r = Raise (OSError msg))
  /\ ((exists rel_path n,
         rel_path ∈ l
         /\ (0 < n <= length (removelast (dir ++ parts rel_path)))%nat
         /\ p = take n (removelast (dir ++ parts rel_path))) ->
      exists msg, r = Raise (OSError msg)).
Proof.
  induction l as [|x l IH]; intros w w' r; simpl.
  - unfold mret, M_ret. intros [= <- <-] Hp. split_and!; try done; [by left|].
    intros (rel_path & n & []%elem_of_nil & _).
  - intros E Hp.
    destruct (mirror_file dir dst_tree x w) as [w1 r1] eqn:E1.
    destruct (mirror_file_run _ _ _ p _ _ _ E1 Hp) as (Hp1 & Hm & Hl & Hc & Ht & Hr & Hx).
    destruct Hr as [->|[msg ->]].
    + rewrite (run_bind_ok _ _ _ _ _ E1) in E.
      destruct (IH _ _ _ E Hp1) as (Hm' & Hl' & Hc' & Ht' & Hr' & Hx').
      split_and!; [congruence|congruence|congruence|congruence|done|].
      intros (rel_path & n & [->|Hin]%elem_of_cons & Hn & Hpn).
      * destruct Hx as [? ?]; [by exists n|done].
      * apply Hx'. by exists rel_path, n.
    + rewrite (run_bind_raise _ _ _ _ _ E1) in E. injection E as <- <-.
      split_and!; [done..|right; by eexists|intros _; by eexists].
Qed.

(** X17.  When the mirror tree holds a regular file where phase 5a needs
    a directory (at the directory of the job, at one of its parents, or at
    a parent directory of one of the files of the ledger), phase 5 raises
    [OSError]: the catalog database is not updated, and the manifests, the
    logs and the tape are as phase 4 left them. *)
Theorem mirror_conflict_is_fatal (tape_name source_name : str) (ledger : Ledger)
    (w : World) (target : list str) (n : nat) (t : option (datetime * datetime)) :
  target = parts tape_name ++ parts source_name
  \/ (exists rel_path, rel_path ∈ keys ledger
        /\ target = removelast ((parts tape_name ++ parts source_name) ++ parts rel_path)) ->
  (0 < n <= length target)%nat ->
  mirror w !! take n target = Some (File t) ->
  exists w' msg,
    update_catalog tape_name source_name ledger w = (w', Raise (OSError msg))
    /\ catalog w' = catalog w /\ mhl_files w' = mhl_files w
    /\ log_files w' = log_files w /\ tape w' = tape w.
Proof.
  intros Htarget Hn Hm. unfold update_catalog. rewrite run_now_utc.
  set (w1 := set_ticks w (S (ticks w))).
  assert (is_placeholder (mirror w1) (take n target)) as Hp by by exists t.
  assert (catalog w1 = catalog w /\ mhl_files w1 = mhl_files w
          /\ log_files w1 = log_files w /\ tape w1 = tape w) as (Hc1 & Hm1 & Hl1 & Ht1)
    by done.
  clearbody w1.
  assert (exists w' msg,
            update_mirror tape_name source_name ledger w1 = (w', Raise (OSError msg))
            /\ catalog w' = catalog w /\ mhl_files w' = mhl_files w
            /\ log_files w' = log_files w /\ tape w' = tape w) as (w' & msg & E & Hrest).
  { unfold update_mirror. cbv zeta.
    destruct (mkdir_parents (parts tape_name ++ parts source_name) w1) as [w2 r2] eqn:E2.
    destruct (mkdir_parents_run _ _ _ _ _ E2 Hp) as (Hp2 & Hm2 & Hl2 & Hc2 & Ht2 & Hr2 & Hx2).
    destruct Hr2 as [->|[msg ->]].
    - rewrite (run_bind_ok _ _ _ _ _ E2), run_gets.
      destruct Htarget as [->|(rel_path & Hin & ->)].
      { destruct Hx2 as [? ?]; [by exists n|done]. }
      match goal with |- context [for_each ?l ?f ?w] =>
        change (for_each l f w)
          with (for_each l (mirror_file (parts tape_name ++ parts source_name)
                              (default [] (tape w2 !! source_name))) w);
        destruct (for_each l (mirror_file (parts tape_name ++ parts source_name)
                                (default [] (tape w2 !! source_name))) w)
          as [w3 r3] eqn:E3
      end.
      destruct (mirror_loop_run _ _ _ _ _ _ _ E3 Hp2) as (Hm3 & Hl3 & Hc3 & Ht3 & Hr3 & Hx3).
      destruct Hx3 as [msg ->]; [by exists rel_path, n|].
      exists w3, msg. split; [done|]. split_and!; congruence.
    - rewrite (run_bind_raise _ _ _ _ _ E2).
      exists w2, msg. split; [done|]. split_and!; congruence. }
  rewrite (run_bind_raise _ _ _ _ _ E). by exists w', msg.
Qed.

(** *** A phase that takes no time *)

Lemma total_seconds_zero e s :
  to_microseconds e = to_microseconds s -> Qeq_bool (total_seconds e s) 0 = true.
Proof.
  intros E. apply Qeq_bool_iff. unfold total_seconds, Qeq. simpl. lia.
Qed.

Lemma log_head_raises lp r hashed s e d p2 :
  open_fault lp = None ->
  Qeq_bool d 0 = true -> raises ZeroDivisionError (log_head lp r hashed s e d p2).
Proof.
  intros Ho Hd. unfold log_head.
  apply raises_bind_safe; [by apply safe_log_create|intros ?].
  repeat (apply raises_bind_safe; [by safe_logs|intros ?]).
  cbv zeta. unfold truediv. rewrite Hd. apply raises_lift_bind.
Qed.

Lemma log_head_refused lp r hashed s e d p2 x w :
  open_fault lp = Some x -> log_head lp r hashed s e d p2 w = (w, Raise x).
Proof. intros Ho. unfold log_head, log_create. by rewrite Ho. Qed.

Lemma log_head_keeps lp r hashed s e d p2 :
  keeps logs_only (log_head lp r hashed s e d p2).
Proof. unfold log_head. cbv zeta. keeps_logs. Qed.

Lemma print_loop_run (l : list str) w :
  exists w', for_each l print w = (w', Ok tt) /\ logs_only w w'.
Proof.
  assert (safe (for_each l print)) as Hs by (apply safe_for_each; intros ?; apply safe_modify).
  destruct (Hs w) as (w' & [] & E). exists w'. split; [done|].
  eapply (keeps_for_each logs_only); [|done]. intros ?. apply keeps_logs_print.
Qed.

(** The path of the log of a job (line 273). *)
Definition job_log_path (config : Config) (tape_name source_name timestamp : str) : str :=
  joinpath (log_dir config)
    (lit "transfer_" ++ tape_name ++ lit "_" ++ source_name ++ lit "_"
     ++ timestamp ++ lit ".log").


(** *** What a job leaves alone *)

(** Two worlds that differ at most in what belongs to the job of a tape
    name, a source name and a time stamp: the number of clock readings,
    the console, the tape directory of the source, the manifest and the
    log of the job, the mirror tree along and under its directory, and
    the rows of its volume in the catalog database. *)
Definition own_files (config : Config) (tape_name source_name timestamp : str)
    (w w' : World) : Prop :=
  clock w' = clock w /\ mounted w' = mounted w /\ disk w' = disk w
  /\ (forall s, s <> source_name -> tape w' !! s = tape w !! s)
  /\ (forall p, p <> manifest_path config tape_name source_name timestamp ->
        mhl_files w' !! p = mhl_files w !! p)
  /\ (forall p, p <> job_log_path config tape_name source_name timestamp ->
        log_files w' !! p = log_files w !! p)
  /\ (forall p, ~ p `prefix_of` (parts tape_name ++ parts source_name) ->
        ~ (parts tape_name ++ parts source_name) `prefix_of` p ->
        mirror w' !! p = mirror w !! p)
  /\ (forall t, t <> tape_name ->
        CatalogDB.rows_of (CatalogDB.files (catalog w')) t
        = CatalogDB.rows_of (CatalogDB.files (catalog w)) t)
  /\ (forall r, CatalogDB.name r <> tape_name ->
        r ∈ CatalogDB.tapes (catalog w') <-> r ∈ CatalogDB.tapes (catalog w)).

Section Own.
Variable config : Config.
Variables tape_name source_name timestamp : str.

Abbreviation own := (own_files config tape_name source_name timestamp).

#[local] Instance own_files_preorder : PreOrder own.
Proof.
  split.
  - intros w. unfold own_files. split_and!; done.
  - intros a b c (?&?&?&Ht1&Hm1&Hl1&Hi1&Hr1&Hn1) (?&?&?&Ht2&Hm2&Hl2&Hi2&Hr2&Hn2).
    unfold own_files. split_and!; try congruence.
    + intros s Hs. by rewrite Ht2, Ht1.
    + intros p Hp. by rewrite Hm2, Hm1.
    + intros p Hp. by rewrite Hl2, Hl1.
    + intros p Hp Hq. by rewrite Hi2, Hi1.
    + intros t Hne. by rewrite Hr2, Hr1.
    + intros r Hne. by rewrite Hn2, Hn1.
Qed.

Lemma own_ticks w n : own w (set_ticks w n).
Proof. unfold own_files. split_and!; done. Qed.

Lemma own_now_utc : keeps own now_utc.
Proof. apply keeps_now_utc. apply own_ticks. Qed.

Lemma own_print s : keeps own (print s).
Proof. apply keeps_modify. intros w. unfold own_files. split_and!; done. Qed.

Lemma own_check fault : keeps own (check fault).
Proof. apply (keeps_check own). Qed.

Lemma own_show s : keeps own (show s).
Proof. apply (keeps_bind own); [apply own_check|intros _; apply own_print]. Qed.

Lemma own_log_create :
  keeps own (log_create (job_log_path config tape_name source_name timestamp)).
Proof.
  apply (keeps_bind own); [apply own_check|intros _].
  apply keeps_modify. intros w. unfold own_files. split_and!; try done.
  intros p Hp. simpl. by rewrite lookup_insert_ne.
Qed.

Lemma own_log_append :
  keeps own (log_append (job_log_path config tape_name source_name timestamp)).
Proof.
  apply (keeps_bind own); [apply own_check|intros _].
  apply keeps_modify. intros w. unfold own_files. split_and!; try done.
  intros p Hp. simpl. by rewrite lookup_insert_ne.
Qed.

Lemma own_log_write s :
  keeps own (log_write (job_log_path config tape_name source_name timestamp) s).
Proof.
  apply keeps_modify. intros w. unfold own_files. split_and!; try done.
  intros p Hp. simpl. by rewrite lookup_insert_ne.
Qed.

Lemma own_set_tape t :
  keeps own (modify (fun w => set_tape w (<[source_name := t]> (tape w)))).
Proof.
  apply keeps_modify. intros w. unfold own_files. split_and!; try done.
  intros p Hp. simpl. by rewrite lookup_insert_ne.
Qed.

Lemma own_save_manifest m :
  keeps own (save_manifest m (manifest_path config tape_name source_name timestamp)).
Proof.
  intros w w' r. unfold save_manifest, MHL.save.
  destruct (write_fault _ _) as [[e [partial|]]|]; intros [= <- _];
    unfold own_files; split_and!; try done;
    intros p Hp; simpl; by rewrite lookup_insert_ne.
Qed.

(** [mkdir] makes prefixes of its target only. *)
Lemma mkdir_from_frame rest : forall base m m' p,
  mkdir_from base rest m = Ok m' -> ~ p `prefix_of` (base ++ rest) -> m' !! p = m !! p.
Proof.
  induction rest as [|c rest IH]; intros base m m' p; simpl.
  - by intros [= <-].
  - intros Hm Hp.
    assert (~ p `prefix_of` ((base ++ [c]) ++ rest)) as Hp' by by rewrite <- app_assoc.
    assert (p <> base ++ [c]) as Hne.
    { intros ->. apply Hp'. by apply prefix_app_r. }
    destruct (m !! (base ++ [c])) as [[|t]|] eqn:E; [by eapply IH|done|].
    erewrite IH; [|done..]. by rewrite lookup_insert_ne.
Qed.

Lemma own_mkdir_parents target :
  (forall p, p `prefix_of` target ->
     p `prefix_of` (parts tape_name ++ parts source_name)
     \/ (parts tape_name ++ parts source_name) `prefix_of` p) ->
  keeps own (mkdir_parents target).
Proof.
  intros Ht w w' r. unfold mkdir_parents.
  destruct (mkdir_from [] target (mirror w)) as [m'|e] eqn:E; intros [= <- _];
    [|reflexivity].
  unfold own_files. split_and!; try done.
  intros p Hp Hq. simpl. eapply mkdir_from_frame; [done|].
  simpl. intros Hpre. by destruct (Ht p Hpre).
Qed.

Lemma prefix_removelast {A} (l : list A) : removelast l `prefix_of` l.
Proof.
  induction l as [|x [|y l] IH]; [done|apply prefix_nil|].
  change (removelast (x :: y :: l)) with (x :: removelast (y :: l)).
  by apply prefix_cons.
Qed.

Lemma own_touch q :
  (parts tape_name ++ parts source_name) `prefix_of` q -> keeps own (touch q).
Proof.
  intros Hq. apply keeps_modify. intros w. unfold own_files. split_and!; try done.
  intros p Hp Hp'. simpl.
  destruct (mirror w !! q) as [[|t]|]; [done| |]; rewrite lookup_insert_ne; congruence.
Qed.

Lemma own_utime q a b :
  (parts tape_name ++ parts source_name) `prefix_of` q -> keeps own (utime q a b).
Proof.
  intros Hq. apply keeps_modify. intros w. unfold own_files. split_and!; try done.
  intros p Hp Hp'. simpl.
  destruct (mirror w !! q) as [[|t]|]; [done| |done]; rewrite lookup_insert_ne; congruence.
Qed.

Lemma own_update_mirror ledger : keeps own (update_mirror tape_name source_name ledger).
Proof.
  unfold update_mirror. cbv zeta.
  apply (keeps_bind own); [apply own_mkdir_parents; by left|intros _].
  apply (keeps_bind own); [apply keeps_gets; apply _|intros dst_tree].
  apply (keeps_for_each own). intros rel_path.
  apply (keeps_bind own); [|intros _; apply (keeps_bind own); [|intros _]].
  - apply own_mkdir_parents. intros p Hp.
    eapply prefix_weak_total; [|by apply prefix_app_r].
    etransitivity; [done|apply prefix_removelast].
  - apply own_touch. by apply prefix_app_r.
  - destruct (stat_path dst_tree rel_path);
      [apply own_utime; by apply prefix_app_r|apply keeps_ret; apply _].
Qed.

(** The rows of the other volumes in the two tables. *)
Lemma elem_of_fmap_other (g : CatalogDB.TapeRecord -> CatalogDB.TapeRecord)
    (ts : list CatalogDB.TapeRecord) t r :
  (forall x, CatalogDB.name (g x) = CatalogDB.name x) ->
  CatalogDB.name r <> t ->
  r ∈ (fun x => if decide (CatalogDB.name x = t) then g x else x) <$> ts <-> r ∈ ts.
Proof.
  intros Hg Hne. rewrite list_elem_of_fmap. split.
  - intros (x & -> & Hx). destruct (decide _) as [E|E]; [|done].
    destruct Hne. by rewrite Hg.
  - intros Hr. exists r. split; [|done]. by destruct (decide _).
Qed.

Lemma upsert_tape_other ts n u b c r :
  CatalogDB.name r <> n -> r ∈ CatalogDB.upsert_tape ts n u b c <-> r ∈ ts.
Proof.
  intros Hne. unfold CatalogDB.upsert_tape. destruct (CatalogDB.has_tape ts n).
  - by apply elem_of_fmap_other.
  - rewrite elem_of_app, list_elem_of_singleton. split; [|by left].
    intros [?| ->]; [done|]. by destruct Hne.
Qed.

Lemma insert_or_ignore_other ts n r :
  CatalogDB.name r <> n -> r ∈ CatalogDB.insert_or_ignore_tape ts n <-> r ∈ ts.
Proof.
  intros Hne. unfold CatalogDB.insert_or_ignore_tape. destruct (CatalogDB.has_tape ts n).
  - done.
  - rewrite elem_of_app, list_elem_of_singleton. split; [|by left].
    intros [?| ->]; [done|]. by destruct Hne.
Qed.

Lemma add_files_other db t fs archived now db' added :
  CatalogDB.add_files normalize_path execute_fault db t fs archived now = Ok (db', added) ->
  (forall t', t' <> t ->
     CatalogDB.rows_of (CatalogDB.files db') t' = CatalogDB.rows_of (CatalogDB.files db) t')
  /\ (forall r, CatalogDB.name r <> t ->
        r ∈ CatalogDB.tapes db' <-> r ∈ CatalogDB.tapes db).
Proof.
  unfold CatalogDB.add_files. destruct fs as [|x fs]; [by intros [= <- _]|].
  destruct (CatalogDB.add_files_loop _ _ _ _ _ _ _ _) as [[[db2 a2] t2]|e] eqn:El; [|done].
  simpl. destruct (negb _); [done|]. intros [= <- _].
  apply CatalogDB.add_files_loop_spec in El as (Ht & Hr & _). simpl in *. split.
  - intros t' Hne. apply Hr. congruence.
  - intros r Hne. rewrite elem_of_fmap_other by done. rewrite Ht.
    by apply insert_or_ignore_other.
Qed.

Lemma own_catalog_calls db_files : keeps own (catalog_calls tape_name db_files).
Proof.
  intros w w' r. unfold catalog_calls.
  destruct connect_fault as [e|]; [intros [= <- _]; reflexivity|].
  rewrite run_gets. unfold CatalogDB.add_tape. rewrite run_lift. cbv beta iota.
  rewrite run_modify, run_now_utc, run_lift.
  destruct (CatalogDB.add_files _ _ _ _ _ _ _) as [[db2 n]|e] eqn:Ea.
  - unfold modify. intros [= <- _].
    apply add_files_other in Ea as [Hr Hn]. simpl in Hr, Hn.
    unfold own_files. split_and!; try done.
    intros r0 Hne. simpl. rewrite Hn by done. by apply upsert_tape_other.
  - intros [= <- _]. unfold own_files. split_and!; try done.
    intros r0 Hne. simpl. by apply upsert_tape_other.
Qed.

Ltac keeps_own :=
  repeat match goal with
  | |- keeps _ (_ ≫= _) => apply (keeps_bind own); [|intros ?]
  | |- keeps _ (mret _) => apply (keeps_ret own)
  | |- keeps _ (lift _) => apply (keeps_lift own)
  | |- keeps _ (gets _) => apply (keeps_gets own)
  | |- keeps _ (raise _) => apply (keeps_raise own)
  | |- keeps _ (check _) => apply own_check
  | |- keeps _ (show _) => apply own_show
  | |- keeps _ (print _) => apply own_print
  | |- keeps _ now_utc => apply own_now_utc
  | |- keeps _ (log_write _ _) => apply own_log_write
  | |- keeps _ (log_create _) => apply own_log_create
  | |- keeps _ (log_append _) => apply own_log_append
  | |- keeps _ (modify _) => apply own_set_tape
  | |- keeps _ (save_manifest _ _) => apply own_save_manifest
  | |- keeps _ (update_mirror _ _ _) => apply own_update_mirror
  | |- keeps _ (catalog_calls _ _) => apply own_catalog_calls
  | |- keeps _ (for_each _ _) => apply (keeps_for_each own); intros ?
  | |- keeps _ (try_except _ _ _) => apply (keeps_try_except own); [|intros ?]
  | |- keeps _ (match ?x with _ => _ end) => destruct x
  end.

Lemma own_manifest_entries ledger dst : keeps own (manifest_entries ledger dst).
Proof.
  induction ledger as [|[rel_path [file_hash file_size]] ledger IH]; simpl; [keeps_own|].
  apply (keeps_bind own); [apply own_now_utc|intros ?].
  apply (keeps_bind own); [apply IH|intros ?]. keeps_own.
Qed.

Lemma own_run_phases verify src_tree result :
  keeps own (run_phases config verify src_tree tape_name source_name timestamp result).
Proof.
  unfold run_phases, copy_with_log, log_head, run_rsync, log_phase2, verify_destination,
    log_phase3, emit_manifest, update_catalog, update_catalog_db, log_summary.
  cbv zeta.
  change (joinpath (log_dir config)
            (lit "transfer_" ++ tape_name ++ lit "_" ++ source_name ++ lit "_"
             ++ timestamp ++ lit ".log"))
    with (job_log_path config tape_name source_name timestamp).
  repeat first [ apply own_manifest_entries | progress keeps_own ].
Qed.

End Own.


End Job.

(** *** Example trees *)

(** The part of [fnmatch] without bracket expressions: [*] matches any
    run of characters and [?] any one character. *)
Fixpoint glob (name : str) (pattern : str) {struct pattern} : bool :=
  match pattern with
  | [] => bool_decide (name = [])
  | c :: pattern' =>
      if (c =? 42)%N then
        (fix star (n : str) : bool :=
           glob n pattern' || match n with [] => false | _ :: n' => star n' end) name
      else
        match name with
        | [] => false
        | x :: name' => ((c =? 63)%N || (c =? x)%N) && glob name' pattern'
        end
  end.

(** The default [excludes] of [Config]. *)
Definition default_excludes : list str :=
  [lit ".DS_Store"; lit "._*"; lit ".Spotlight-*"; lit ".fseventsd"; lit ".Trashes";
   lit ".Trash/"; lit "*/Library/Caches/*"; lit "*.tmp"; lit ".TemporaryItems";
   lit "Thumbs.db"].

Definition demo_time : datetime :=
  {| year := 2024; month := 5; day := 17; hour := 9; minute := 15; second := 42;
     microsecond := 0; tz := UTC |}.

(** A readable regular file with the given content. *)
Definition regular (data : bytes) : Node :=
  {| is_file := true;
     stat := Got {| st_size := Z.of_nat (length data);
                    st_atime := demo_time; st_mtime := demo_time |};
     content := Got data |}.

(** A regular file that cannot be opened. *)
Definition unreadable : Node :=
  {| is_file := true;
     stat := Got {| st_size := 3; st_atime := demo_time; st_mtime := demo_time |};
     content := Err (lit "[Errno 13] Permission denied") |}.

Definition directory : Node :=
  {| is_file := false;
     stat := Got {| st_size := 4096; st_atime := demo_time; st_mtime := demo_time |};
     content := Err (lit "[Errno 21] Is a directory") |}.

(** One visible name in two encodings: [e] with a combining acute accent,
    and the composed letter U+00E9. *)
Definition cafe_nfd : str := lit "cafe" ++ [769%N] ++ lit ".txt".
Definition cafe_nfc : str := lit "caf" ++ [233%N] ++ lit ".txt".

(** A tree that holds both, as a file system without normalisation
    allows, with different contents. *)
Definition twins : Tree :=
  [(cafe_nfd, regular [Byte.x41]); (cafe_nfc, regular [Byte.x42])].

Definition demo_result : TransferResult :=
  new_result (lit "/data/reel") (lit "/mnt/ltfs/reel") (lit "TAPE01") demo_time.

Definition demo_phase1 : Tree -> Hashed :=
  phase1 (H := Hash.list_hasher) compose_acute glob default_excludes.

Definition demo_phase3 : Ledger -> Tree -> TransferResult -> TransferResult :=
  phase3 (H := Hash.list_hasher) compose_acute.

(** *** A console for the examples *)

(** The tags of [rich] markup, as far as the examples need them.  A tag
    opens with a [[] that has no odd run of backslashes before it,
    followed by one of [a-z], [#], [/] and [@], and runs to the next []],
    with no [[] before it.  A closing tag [[/name]] needs an open tag
    [[name]], and [[/]] any open tag; without one [rich] refuses the text
    with a [MarkupError].  The names are compared as they are written. *)
Definition tag_start (c : N) : bool :=
  (((97 <=? c) && (c <=? 122)) || (c =? 35) || (c =? 47) || (c =? 64))%N.

Fixpoint tag_body (s acc : str) : option (str * str) :=
  match s with
  | [] => None
  | c :: s' =>
      if (c =? 93)%N then Some (acc, s')
      else if (c =? 91)%N then None
      else tag_body s' (acc ++ [c])
  end.

Fixpoint tag_name (body : str) : str :=
  match body with
  | [] => []
  | c :: body' => if (c =? 61)%N then [] else c :: tag_name body'
  end.

Fixpoint close_tag (name : str) (open : list str) : option (list str) :=
  match open with
  | [] => None
  | t :: open' =>
      if bool_decide (t = name) then Some open'
      else cons t <$> close_tag name open'
  end.

Fixpoint closes_nothing (fuel : nat) (s : str) (open : list str) (escaped : bool) : bool :=
  match fuel, s with
  | S fuel', c :: s' =>
      if (c =? 92)%N then closes_nothing fuel' s' open (negb escaped)
      else if (c =? 91)%N && negb escaped
                && match s' with d :: _ => tag_start d | [] => false end then
        match tag_body s' [] with
        | Some (47%N :: name, rest) =>
            match (if bool_decide (name = []) then tail <$> head open ≫= (fun _ => Some open)
                   else close_tag name open) with
            | Some open' => closes_nothing fuel' rest open' false
            | None => true
            end
        | Some (body, rest) => closes_nothing fuel' rest (tag_name body :: open) false
        | None => closes_nothing fuel' s' open false
        end
      else closes_nothing fuel' s' open false
  | _, _ => false
  end.

Definition demo_print_fault (text : str) : option exn :=
  if closes_nothing (length text) text [] false
  then Some (MarkupError (lit "closing tag does not match any open tag"))
  else None.

(** The description of the progress row is shown by the column
    [[progress.description]{task.description}]. *)
Definition demo_describe_fault (description : str) : option exn :=
  demo_print_fault (lit "[progress.description]" ++ description).

Definition demo_phase1_run : Tree -> Result Hashed :=
  phase1_run (H := Hash.list_hasher) compose_acute glob demo_print_fault
    demo_describe_fault default_excludes.

Definition demo_phase3_run : Ledger -> Tree -> TransferResult -> Result TransferResult :=
  phase3_run (H := Hash.list_hasher) compose_acute demo_print_fault demo_describe_fault.

(** What a run of phase 3 reports: verified, failed, and the lines. *)
Definition report (r : TransferResult) : Z * Z * list str :=
  (files_verified r, files_failed r, failed_files r).

(** The warning of phase 1 is shown, a file name with a closing tag is
    not: the job ends there with a [MarkupError]. *)
Example bracket_in_a_name :
  demo_print_fault (could_not_hash (lit "locked.bin") (lit "[Errno 13] Permission denied"))
  = None
  /\ demo_print_fault (mismatch_text (lit "a[/b].txt"))
     = Some (MarkupError (lit "closing tag does not match any open tag"))
  /\ demo_phase1_run [(lit "a[/b].txt", regular [Byte.x41])]
     = Raise (MarkupError (lit "closing tag does not match any open tag")).
Proof. split_and!; by vm_compute. Qed.

Lemma elem_of_twins p node :
  (p, node) ∈ twins ->
  (p, node) = (cafe_nfd, regular [Byte.x41]) \/ (p, node) = (cafe_nfc, regular [Byte.x42]).
Proof.
  unfold twins. rewrite !elem_of_cons, elem_of_nil. tauto.
Qed.

(** The destination is the source, file for file, and one file is
    reported as mismatched: the two paths share one entry of the ledger. *)
Lemma twins_fail_verification :
  copied_except compose_acute glob (fun _ => False) default_excludes twins twins
  /\ demo_phase1_run twins = Ok (demo_phase1 twins)
  /\ keys (source_hashes (demo_phase1 twins)) = [cafe_nfc]
  /\ report <$> demo_phase3_run (source_hashes (demo_phase1 twins)) twins demo_result
     = Ok (1, 1, [cafe_nfc ++ lit " (hash mismatch)"]).
Proof.
  split; [|by vm_compute].
  intros p node Hin _ _ _ data Hdata.
  exists p, node. apply elem_of_twins in Hin as [[= -> ->]|[= -> ->]].
  - eexists. split_and!; [by apply list_elem_of_here|done..].
  - eexists. split_and!; [by apply list_elem_of_further, list_elem_of_here|done..].
Qed.

(** The same destination for a source with one more file: that file is
    missing, every other file of the ledger is there and identical, and two
    failures are reported. *)
Definition twins_and_more : Tree := twins ++ [(lit "notes.txt", regular [Byte.x43])].

Lemma twins_fail_missing_detection :
  demo_phase1_run twins_and_more = Ok (demo_phase1 twins_and_more)
  /\ keys (source_hashes (demo_phase1 twins_and_more)) = [cafe_nfc; lit "notes.txt"]
  /\ dest_files compose_acute twins = [cafe_nfc; cafe_nfc]
  /\ dict_get cafe_nfc (source_hashes (demo_phase1 twins_and_more))
     = Some (Hash.hash_bytes (H := Hash.list_hasher) [Byte.x42], 1)
  /\ report <$> demo_phase3_run (source_hashes (demo_phase1 twins_and_more)) twins
                  demo_result
     = Ok (1, 2, [cafe_nfc ++ lit " (hash mismatch)"; lit "notes.txt (missing)"]).
Proof. by vm_compute. Qed.

(** A job as the design has it: the source on a file system that stores
    names decomposed, the tape with names composed, one excluded file. *)
Definition demo_source : Tree :=
  [(lit "a", directory);
   (lit "a/x.bin", regular [Byte.x00; Byte.x00; Byte.x00; Byte.x00]);
   (lit "a/.DS_Store", regular [Byte.x01]);
   (cafe_nfd, regular [Byte.x41; Byte.x42])].

Definition demo_tape : Tree :=
  [(lit "a", directory);
   (lit "a/x.bin", regular [Byte.x00; Byte.x00; Byte.x00; Byte.x00]);
   (cafe_nfc, regular [Byte.x41; Byte.x42])].

Lemma elem_of_demo_source p node :
  (p, node) ∈ demo_source -> is_file node = true ->
  should_exclude glob p default_excludes = false ->
  (p, node) = (lit "a/x.bin", regular [Byte.x00; Byte.x00; Byte.x00; Byte.x00])
  \/ (p, node) = (cafe_nfd, regular [Byte.x41; Byte.x42]).
Proof.
  unfold demo_source. rewrite !elem_of_cons, elem_of_nil.
  intros [[= -> ->]|[[= -> ->]|[[= -> ->]|[[= -> ->]|[]]]]] Hf Hex;
    try discriminate; auto.
Qed.

Lemma verification_sound_witness :
  exists r',
    demo_phase3_run (source_hashes (demo_phase1 demo_source)) demo_tape demo_result = Ok r'
    /\ files_verified r' = 0 + Z.of_nat (length (source_hashes (demo_phase1 demo_source)))
    /\ files_failed r' = 0
    /\ failed_files r' = [].
Proof.
  apply (verification_sound (H := Hash.list_hasher) compose_acute glob demo_print_fault
           demo_describe_fault default_excludes demo_source demo_tape demo_result
           (demo_phase1 demo_source)).
  - by vm_compute.
  - intros p node Hin Hf Hex _ data Hdata.
    destruct (elem_of_demo_source p node Hin Hf Hex) as [[= -> ->]|[= -> ->]].
    + exists (lit "a/x.bin"), (regular [Byte.x00; Byte.x00; Byte.x00; Byte.x00]).
      eexists. split_and!; [|done..].
      apply list_elem_of_further, list_elem_of_here.
    + exists cafe_nfc, (regular [Byte.x41; Byte.x42]).
      eexists. split_and!; [|done..].
      do 2 apply list_elem_of_further. apply list_elem_of_here.
  - refine (bool_decide_unpack _ _). by vm_compute.
  - by vm_compute.
Defined.

(** The tape without [a/x.bin]. *)
Definition demo_tape_short : Tree :=
  [(lit "a", directory); (cafe_nfc, regular [Byte.x41; Byte.x42])].

Lemma missing_file_detected_witness :
  exists r',
    demo_phase3_run (source_hashes (demo_phase1 demo_source)) demo_tape_short demo_result
    = Ok r'
    /\ files_verified r'
       = 0 + (Z.of_nat (length (source_hashes (demo_phase1 demo_source))) - 1)
    /\ files_failed r' = 0 + 1
    /\ failed_files r' = [] ++ [lit "a/x.bin" ++ lit " (missing)"].
Proof.
  apply (missing_file_detected (H := Hash.list_hasher) compose_acute glob demo_print_fault
           demo_describe_fault default_excludes demo_source demo_tape_short demo_result
           (lit "a/x.bin") (demo_phase1 demo_source)).
  - by vm_compute.
  - refine (bool_decide_unpack _ _). by vm_compute.
  - refine (bool_decide_unpack _ _). by vm_compute.
  - intros p node Hin Hf Hex Hk data Hdata.
    destruct (elem_of_demo_source p node Hin Hf Hex) as [[= -> ->]|[= -> ->]].
    + by destruct Hk.
    + exists cafe_nfc, (regular [Byte.x41; Byte.x42]).
      eexists. split_and!; [|done..].
      apply list_elem_of_further, list_elem_of_here.
  - refine (bool_decide_unpack _ _). by vm_compute.
  - by vm_compute.
  - by vm_compute.
Defined.

(** A ledger entry of 999 bytes is verified by a file of three bytes that
    has its digest; and two catalog rows of 10 and 20 bytes are returned
    together for the digest they share. *)
Lemma size_is_not_compared :
  files_verified
    (demo_phase3
       [(lit "a.bin", (Hash.hash_bytes (H := Hash.list_hasher) [Byte.x01; Byte.x02; Byte.x03],
                       999))]
       [(lit "a.bin", regular [Byte.x01; Byte.x02; Byte.x03])] demo_result) = 1
  /\ CatalogDB.sr_size <$>
       CatalogDB.find_by_hash (fun _ => Raise ValueError)
         {| CatalogDB.tapes := [];
            CatalogDB.files :=
              [ {| CatalogDB.id := 1; CatalogDB.tape_name := lit "T"; CatalogDB.path := lit "a";
                   CatalogDB.size := 10; CatalogDB.mtime := None;
                   CatalogDB.xxhash := Some (lit "ef46db3751d8e999");
                   CatalogDB.archived_at := None |};
                {| CatalogDB.id := 2; CatalogDB.tape_name := lit "T"; CatalogDB.path := lit "b";
                   CatalogDB.size := 20; CatalogDB.mtime := None;
                   CatalogDB.xxhash := Some (lit "ef46db3751d8e999");
                   CatalogDB.archived_at := None |} ];
            CatalogDB.next_id := 3 |}
         (lit "ef46db3751d8e999")
     = [10; 20].
Proof. split; by vm_compute. Qed.

(** *** More example trees and an example archive *)

(** The source of the job with a file that cannot be opened. *)
Definition demo_source_locked : Tree := demo_source ++ [(lit "locked.bin", unreadable)].



(** The tape with one byte of [a/x.bin] changed. *)
Definition demo_tape_bad : Tree :=
  [(lit "a", directory);
   (lit "a/x.bin", regular [Byte.x00; Byte.x00; Byte.x00; Byte.x01]);
   (cafe_nfc, regular [Byte.x41; Byte.x42])].


Lemma excluded_by_pattern_witness :
  should_exclude glob (lit "a/.Trash/x.bin") default_excludes = true.
Proof.
  apply (excluded_by_pattern glob (lit "a/.Trash/x.bin") (lit ".Trash/") default_excludes).
  - refine (bool_decide_unpack _ _). by vm_compute.
  - left. exists (lit ".Trash"). split; [by vm_compute|].
    refine (bool_decide_unpack _ _). by vm_compute.
Defined.

(** An archive: the source directory of the job on disk, a mounted tape,
    a clock that stands still, and a mirror tree where a file has the name
    of the tape. *)
Definition demo_config : Config :=
  {| mount_point := lit "/mnt/ltfs"; mhl_dir := lit "/archive/mhl";
     log_dir := lit "/archive/logs"; catalog_dir := lit "/archive/catalog";
     excludes := default_excludes; rsync_opts := [lit "-a"];
     platform_name := lit "linux" |}.

Definition demo_world : World MHL.Element :=
  {| clock := fun _ => demo_time; ticks := 0; mounted := true;
     disk := <[lit "/data/proj" := demo_source]> ∅;
     tape := ∅; mhl_files := ∅; log_files := ∅;
     mirror := <[[lit "T1"] := File None]> ∅;
     catalog := CatalogDB.empty_db; console := [] |}.

Definition demo_files : list CatalogDB.FileTuple :=
  [(lit "a/x.bin", 4, None, Some (lit "0"))].

Lemma catalog_failure_is_not_fatal_witness :
  exists w',
    update_catalog_db compose_acute MHL.Element
      (Some (SqliteError (lit "unable to open database file"))) (fun _ => None)
      (lit "T1") demo_files demo_world
    = (w', Ok tt)
    /\ mhl_files _ w' = mhl_files _ demo_world
    /\ log_files _ w' = log_files _ demo_world
    /\ mirror _ w' = mirror _ demo_world
    /\ tape _ w' = tape _ demo_world
    /\ CatalogDB.consistent (catalog _ w').
Proof.
  apply (catalog_failure_is_not_fatal compose_acute MHL.Element
           (Some (SqliteError (lit "unable to open database file"))) (fun _ => None)
           (lit "T1") demo_files demo_world).
  - by intros e [= <-].
  - intros r e. discriminate.
  - apply CatalogDB.empty_db_consistent.
Defined.

Lemma mirror_conflict_is_fatal_witness :
  exists w' msg,
    update_catalog compose_acute MHL.Element None (fun _ => None)
      (lit "T1") (lit "proj") [] demo_world
    = (w', Raise (OSError msg))
    /\ catalog _ w' = catalog _ demo_world
    /\ mhl_files _ w' = mhl_files _ demo_world
    /\ log_files _ w' = log_files _ demo_world
    /\ tape _ w' = tape _ demo_world.
Proof.
  apply (mirror_conflict_is_fatal compose_acute MHL.Element None (fun _ => None)
           (lit "T1") (lit "proj") [] demo_world [lit "T1"; lit "proj"] 1 None).
  - left. by vm_compute.
  - simpl. lia.
  - exact (lookup_insert_eq _ _ _).
Defined.

(** The copy utility of the examples copies the source tree. *)
Definition demo_rsync (cmd : list str) (src dst : Tree) : option (list str * Z * Tree) :=
  Some ([lit "sent 6 bytes"], 0, src).

Definition demo_format (spec : str) (x : Q) : str :=
  str_of_int (Qnum x / Z.pos (Qden x)).

(** The logs of the examples are in a directory that is there: a path
    with one component more is not. *)
Definition demo_open_fault (path : str) : option exn :=
  if (3 <? length (parts path))%nat
  then Some (FileNotFoundError (lit "[Errno 2] No such file or directory"))
  else None.

Definition demo_transfer :=
  transfer (H := Hash.list_hasher) compose_acute glob demo_format MHL.Element
    (fun e => e) demo_rsync None (fun _ => None) MHL.demo_creator
    demo_print_fault demo_describe_fault demo_open_fault (fun _ _ => None) (fun _ => None).


(** A tape name with a slash: the log cannot be opened, and the job says
    that [rsync] was not found. *)
Example slash_in_the_tape_name :
  (demo_transfer (lit "/data/proj") (Some (lit "A/B")) false true demo_config
     demo_world).2
  = Raise (TransferError (lit "rsync not found in PATH")).
Proof. by vm_compute. Qed.

(** The source [.] has no name, and the job copies into the mount point
    itself. *)
Example source_without_a_name :
  basename (lit ".") = [] /\ basename (lit "/data/proj/") = lit "proj"
  /\ joinpath (mount_point demo_config) (basename (lit ".")) = lit "/mnt/ltfs".
Proof. by vm_compute. Qed.

End Transfer.

(** ** verify.py *)

Module Verify.
Import PyStr.

(** [VerifyResult] *)
Record VerifyResult := {
  mhl_path : str;
  base_path : str;
  total_files : Z;
  verified : Z;
  failed : Z;
  missing : Z;
  failed_files : list str;
  missing_files : list str
}.

(** [VerifyResult.success] *)
Definition success (r : VerifyResult) : bool := (failed r =? 0) && (missing r =? 0).

(** The dictionary that [compare_mhl_files] returns. *)
Record Comparison := {
  common : list str;
  different : list str;
  only_in_first : list str;
  only_in_second : list str
}.

(** [sorted(l)] for strings. *)
Definition sorted (l : list str) : list str :=
  merge_sort (fun a b => Is_true (CatalogDB.str_leb a b)) l.

Section Verify.

Context `{Hash.XXH64}.

(** [str.lower] *)
Variable lower : str -> str.

(** What is found at [base_path / file], [None] when [exists()] is
    false. *)
Variable at_path : str -> option Transfer.Node.

(** What [file_path.exists()] raises for the file of an entry, if
    anything.  [exists()] is false for a path that is not there, and lets
    through the [OSError] of any other failure, as that of a directory
    that may not be searched; the call is outside the [try] of the loop
    (line 110). *)
Variable exists_fault : str -> option exn.

(** What [console.print(text)] raises, if anything: the console reads the
    square brackets of a text as markup. *)
Variable print_fault : str -> option exn.

Definition console_print (text : str) : Result unit :=
  match print_fault text with Some e => Raise e | None => Ok tt end.

(** The body of the loop of [verify] (lines 101-119). *)
Definition verify_entry (result : VerifyResult) (entry : MHL.HashEntry) : VerifyResult :=
  match at_path (MHL.file entry) with
  | None =>
      {| mhl_path := mhl_path result; base_path := base_path result;
         total_files := total_files result; verified := verified result;
         failed := failed result; missing := missing result + 1;
         failed_files := failed_files result;
         missing_files := missing_files result ++ [MHL.file entry] |}
  | Some node =>
      match Transfer.hash_file node with
      | Transfer.Got actual_hash =>
          if decide (lower actual_hash = lower (MHL.xxhash64be entry)) then
            {| mhl_path := mhl_path result; base_path := base_path result;
               total_files := total_files result; verified := verified result + 1;
               failed := failed result; missing := missing result;
               failed_files := failed_files result;
               missing_files := missing_files result |}
          else
            {| mhl_path := mhl_path result; base_path := base_path result;
               total_files := total_files result; verified := verified result;
               failed := failed result + 1; missing := missing result;
               failed_files :=
                 failed_files result
                 ++ [MHL.file entry ++ lit " (expected: " ++ MHL.xxhash64be entry
                     ++ lit ", got: " ++ actual_hash ++ lit ")"];
               missing_files := missing_files result |}
      | Transfer.Err e =>
          {| mhl_path := mhl_path result; base_path := base_path result;
             total_files := total_files result; verified := verified result;
             failed := failed result + 1; missing := missing result;
             failed_files :=
               failed_files result
               ++ [MHL.file entry ++ lit " (read error: " ++ e ++ lit ")"];
             missing_files := missing_files result |}
      end
  end.

(** [verify(mhl_path, base_path)] from the point where the manifest is
    loaded (lines 86-121). *)
Definition verify_loaded (mhl_path base_path : str) (mhl : MHL.MHL) : VerifyResult :=
  foldl verify_entry
    {| mhl_path := mhl_path; base_path := base_path;
       total_files := Z.of_nat (length (MHL.hashes mhl));
       verified := 0; failed := 0; missing := 0;
       failed_files := []; missing_files := [] |}
    (MHL.hashes mhl).

(** The loop of [verify] with the exceptions of [exists()] (lines
    106-121). *)
Fixpoint verify_loop (entries : list MHL.HashEntry) (result : VerifyResult)
  : Result VerifyResult :=
  match entries with
  | [] => Ok result
  | entry :: entries' =>
      match exists_fault (MHL.file entry) with
      | Some e => Raise e
      | None => verify_loop entries' (verify_entry result entry)
      end
  end.

(** [verify(mhl_path, base_path)] from the point where the manifest is
    loaded, with its console and the exceptions of [exists()] (lines
    86-123).  The first line that is printed has no path in it. *)
Definition verify_run (mhl_path base_path : str) (mhl : MHL.MHL) : Result VerifyResult :=
  let result :=
    {| mhl_path := mhl_path; base_path := base_path;
       total_files := Z.of_nat (length (MHL.hashes mhl));
       verified := 0; failed := 0; missing := 0;
       failed_files := []; missing_files := [] |} in
  console_print (lit "MHL: " ++ mhl_path);;
  console_print (lit "Base path: " ++ base_path);;
  verify_loop (MHL.hashes mhl) result.

(** [verify_file(file_path, expected_hash)]; a file that cannot be read
    raises. *)
Definition verify_file (file_path expected_hash : str) : Result bool :=
  match at_path file_path with
  | None => Ok false
  | Some node =>
      match Transfer.hash_file node with
      | Transfer.Got actual_hash =>
          Ok (bool_decide (lower actual_hash = lower expected_hash))
      | Transfer.Err e => Raise (OSError e)
      end
  end.

(** [{entry.file: entry.xxhash64be for entry in mhl}] *)
Definition hashes_of (mhl : MHL.MHL) : list (str * str) :=
  Transfer.dict_update [] ((fun e => (MHL.file e, MHL.xxhash64be e)) <$> MHL.hashes mhl).

(** [compare_mhl_files] from the point where the two manifests are loaded
    (lines 167-197).  The sets are kept as lists without duplicates; the
    order in which Python walks them does not show in the sorted lists. *)
Definition compare_loaded (mhl1 mhl2 : MHL.MHL) : Comparison :=
  let hashes1 := hashes_of mhl1 in
  let hashes2 := hashes_of mhl2 in
  let files1 := Transfer.keys hashes1 in
  let files2 := Transfer.keys hashes2 in
  let common_files := filter (fun f => f ∈ files2) files1 in
  let only_in_first := filter (fun f => f ∉ files2) files1 in
  let only_in_second := filter (fun f => f ∉ files1) files2 in
  let same f := lower <$> Transfer.dict_get f hashes1 = lower <$> Transfer.dict_get f hashes2 in
  let matching := filter same common_files in
  let different := filter (fun f => ~ same f) common_files in
  {| common := sorted matching; different := sorted different;
     only_in_first := sorted only_in_first; only_in_second := sorted only_in_second |}.

(** *** Every entry is counted once *)

(** The file of an entry is there and has the digest of the entry. *)
Definition intact (entry : MHL.HashEntry) : Prop :=
  exists node actual_hash,
    at_path (MHL.file entry) = Some node
    /\ Transfer.hash_file node = Transfer.Got actual_hash
    /\ lower actual_hash = lower (MHL.xxhash64be entry).

Lemma verify_entry_step r e :
  let r' := verify_entry r e in
  total_files r' = total_files r
  /\ verified r' + failed r' + missing r' = verified r + failed r + missing r + 1
  /\ Z.of_nat (length (failed_files r')) - failed r'
     = Z.of_nat (length (failed_files r)) - failed r
  /\ Z.of_nat (length (missing_files r')) - missing r'
     = Z.of_nat (length (missing_files r)) - missing r
  /\ missing_files r'
     = missing_files r ++ filter (fun f => at_path f = None) [MHL.file e]
  /\ failed r <= failed r' /\ missing r <= missing r'
  /\ (failed r' = failed r /\ missing r' = missing r <-> intact e).
Proof.
  unfold verify_entry, intact. rewrite filter_cons, filter_nil.
  destruct (at_path (MHL.file e)) as [node|] eqn:Ea.
  - rewrite decide_False by done.
    destruct (Transfer.hash_file node) as [actual|msg] eqn:Eh.
    + destruct (decide (lower actual = lower (MHL.xxhash64be e))) as [El|El]; simpl.
      * rewrite app_nil_r. split_and!; try lia; try done.
        split; [|done]. intros _. by exists node, actual.
      * rewrite app_nil_r, length_app. simpl. split_and!; try lia; try done.
        split; [lia|]. intros (node' & actual' & [= <-] & Hh & Hl).
        rewrite Eh in Hh. injection Hh as <-. done.
    + simpl. rewrite app_nil_r, length_app. simpl. split_and!; try lia; try done.
      split; [lia|]. intros (node' & actual' & [= <-] & Hh & Hl). congruence.
  - rewrite decide_True by done. simpl. rewrite length_app. simpl.
    split_and!; try lia; try done.
    split; [lia|]. intros (node' & actual' & Hn & _). done.
Qed.

Lemma verify_fold (l : list MHL.HashEntry) : forall r,
  let r' := foldl verify_entry r l in
  total_files r' = total_files r
  /\ verified r' + failed r' + missing r'
     = verified r + failed r + missing r + Z.of_nat (length l)
  /\ Z.of_nat (length (failed_files r')) - failed r'
     = Z.of_nat (length (failed_files r)) - failed r
  /\ Z.of_nat (length (missing_files r')) - missing r'
     = Z.of_nat (length (missing_files r)) - missing r
  /\ missing_files r'
     = missing_files r ++ filter (fun f => at_path f = None) (MHL.file <$> l)
  /\ failed r <= failed r' /\ missing r <= missing r'
  /\ (failed r' = failed r /\ missing r' = missing r <-> Forall intact l).
Proof.
  induction l as [|e l IH]; intros r.
  - simpl. rewrite app_nil_r. split_and!; try lia; try done.
  - cbn [foldl].
    destruct (IH (verify_entry r e)) as (Ht & Hs & Hf & Hn & Hm & Hlf & Hlm & Hi).
    destruct (verify_entry_step r e) as (Ht1 & Hs1 & Hf1 & Hn1 & Hm1 & Hlf1 & Hlm1 & Hi1).
    cbv zeta in *. split_and!.
    + congruence.
    + rewrite Hs, Hs1. rewrite length_cons. lia.
    + lia.
    + lia.
    + rewrite Hm, Hm1, fmap_cons, <- app_assoc. f_equal.
      symmetry. apply (filter_app _ [MHL.file e] (MHL.file <$> l)).
    + lia.
    + lia.
    + rewrite Forall_cons, <- Hi, <- Hi1. split; [|lia].
      intros [? ?]. lia.
Qed.

(** When [exists()] answers for every entry, the loop is the fold of its
    body. *)
Lemma verify_loop_Ok (entries : list MHL.HashEntry) : forall result,
  Forall (fun entry => exists_fault (MHL.file entry) = None) entries ->
  verify_loop entries result = Ok (foldl verify_entry result entries).
Proof.
  induction entries as [|entry entries IH]; intros result Hall; [done|].
  apply Forall_cons in Hall as [Hentry Hall]. cbn [verify_loop foldl].
  rewrite Hentry. by apply IH.
Qed.

(** The loop stops at the first entry for which [exists()] raises. *)
Lemma verify_loop_Raise (before after : list MHL.HashEntry) entry e result :
  Forall (fun entry => exists_fault (MHL.file entry) = None) before ->
  exists_fault (MHL.file entry) = Some e ->
  verify_loop (before ++ entry :: after) result = Raise e.
Proof.
  revert result. induction before as [|b before IH]; intros result Hall Hentry.
  - simpl. by rewrite Hentry.
  - apply Forall_cons in Hall as [Hb Hall]. simpl. rewrite Hb. by apply IH.
Qed.

Lemma verify_run_Ok (mhl_path base_path : str) (mhl : MHL.MHL) :
  print_fault (lit "MHL: " ++ mhl_path) = None ->
  print_fault (lit "Base path: " ++ base_path) = None ->
  Forall (fun entry => exists_fault (MHL.file entry) = None) (MHL.hashes mhl) ->
  verify_run mhl_path base_path mhl = Ok (verify_loaded mhl_path base_path mhl).
Proof.
  intros Hm Hb Hall. unfold verify_run, console_print. rewrite Hm, Hb.
  exact (verify_loop_Ok _ _ Hall).
Qed.



(** *** Comparing two manifests *)

Lemma NoDup_hashes_of mhl : NoDup (Transfer.keys (hashes_of mhl)).
Proof. apply Transfer.NoDup_keys_dict_update. apply NoDup_nil_2. Qed.

Lemma elem_of_hashes_of mhl f :
  f ∈ Transfer.keys (hashes_of mhl) <-> f ∈ MHL.file <$> MHL.hashes mhl.
Proof.
  unfold hashes_of. rewrite Transfer.keys_dict_update.
  unfold Transfer.keys.
  rewrite <- list_fmap_compose.
  split; [intros [Hn|Hf]; [by apply elem_of_nil in Hn|exact Hf]|intros Hf; right; exact Hf].
Qed.

#[local] Instance str_leb_is_total : Total (fun a b => Is_true (CatalogDB.str_leb a b)).
Proof.
  intros a b. destruct (CatalogDB.str_leb_total a b) as [->| ->]; [by left|by right].
Qed.

Lemma elem_of_sorted l f : f ∈ sorted l <-> f ∈ l.
Proof. unfold sorted. by rewrite merge_sort_Permutation. Qed.

Lemma NoDup_sorted l : NoDup (sorted l) <-> NoDup l.
Proof. unfold sorted. by rewrite merge_sort_Permutation. Qed.

(** X23.  [compare_mhl_files] sorts every file of the two manifests into
    exactly one of its four lists, each in ascending order: a file of both
    manifests is in [common] when the digests that the two give it are
    equal without regard to case and in [different] otherwise, and a
    file of one manifest only is in the list of that manifest. *)
Theorem compare_sorts_every_file (mhl1 mhl2 : MHL.MHL) :
  let c := compare_loaded mhl1 mhl2 in
  let in1 f := f ∈ MHL.file <$> MHL.hashes mhl1 in
  let in2 f := f ∈ MHL.file <$> MHL.hashes mhl2 in
  let same f :=
    lower <$> Transfer.dict_get f (hashes_of mhl1)
    = lower <$> Transfer.dict_get f (hashes_of mhl2) in
  (forall f, f ∈ common c <-> in1 f /\ in2 f /\ same f)
  /\ (forall f, f ∈ different c <-> in1 f /\ in2 f /\ ~ same f)
  /\ (forall f, f ∈ only_in_first c <-> in1 f /\ ~ in2 f)
  /\ (forall f, f ∈ only_in_second c <-> in2 f /\ ~ in1 f)
  /\ NoDup (common c ++ different c ++ only_in_first c ++ only_in_second c)
  /\ Forall (fun l => Sorted (fun a b => Is_true (CatalogDB.str_leb a b)) l)
       [common c; different c; only_in_first c; only_in_second c].
Proof.
  intros c in1 in2 same. subst c in1 in2 same. unfold compare_loaded. cbv zeta.
  cbn [common different only_in_first only_in_second].
  pose proof (NoDup_hashes_of mhl1) as Hn1. pose proof (NoDup_hashes_of mhl2) as Hn2.
  assert (forall f, f ∈ Transfer.keys (hashes_of mhl1) <-> f ∈ MHL.file <$> MHL.hashes mhl1)
    as H1 by (intros; apply elem_of_hashes_of).
  assert (forall f, f ∈ Transfer.keys (hashes_of mhl2) <-> f ∈ MHL.file <$> MHL.hashes mhl2)
    as H2 by (intros; apply elem_of_hashes_of).
  split_and!.
  - intros f. rewrite elem_of_sorted, !list_elem_of_filter, H1, H2. tauto.
  - intros f. rewrite elem_of_sorted, !list_elem_of_filter, H1, H2. tauto.
  - intros f. rewrite elem_of_sorted, !list_elem_of_filter, H1, H2. tauto.
  - intros f. rewrite elem_of_sorted, !list_elem_of_filter, H1, H2. tauto.
  - rewrite !NoDup_app, !NoDup_sorted.
    split_and!; try (by repeat apply NoDup_filter);
      intros x; rewrite ?elem_of_app, ?elem_of_sorted, ?list_elem_of_filter; tauto.
  - repeat constructor; apply Sorted_merge_sort; apply _.
Qed.

End Verify.

(** *** A manifest checked against the tape of the examples *)

(** [str.lower] for the letters of a digest. *)
Definition demo_lower (s : str) : str :=
  (fun c => if (65 <=? c)%N && (c <=? 90)%N then (c + 32)%N else c) <$> s.

Definition demo_at_path (file : str) : option Transfer.Node :=
  Transfer.dict_get file Transfer.demo_tape.

Definition demo_digest (file : str) : str :=
  match Transfer.hash_file (H := Hash.list_hasher) <$> demo_at_path file with
  | Some (Transfer.Got file_hash) => file_hash
  | _ => []
  end.

Definition demo_entry (file xxhash64be : str) : MHL.HashEntry :=
  {| MHL.file := file; MHL.size := 0; MHL.xxhash64be := xxhash64be;
     MHL.last_modification_date := None; MHL.hash_date := None |}.

(** A file as it is on the tape, a file with another digest, and a file
    that is not on the tape. *)
Definition demo_manifest : MHL.MHL :=
  {| MHL.version := lit "1.1"; MHL.creator_info := MHL.demo_creator;
     MHL.tape_info := None;
     MHL.hashes :=
       [demo_entry (lit "a/x.bin") (demo_digest (lit "a/x.bin"));
        demo_entry Transfer.cafe_nfc (lit "0000000000000000");
        demo_entry (lit "b/y.bin") (lit "ef46db3751d8e999")] |}.

(** A directory [b] that may not be searched. *)
Definition demo_exists_fault (file : str) : option exn :=
  if bool_decide (take 2 file = lit "b/")
  then Some (OSError (lit "[Errno 13] Permission denied")) else None.

Definition demo_verify_run (exists_fault : str -> option exn) :=
  verify_run (H := Hash.list_hasher) demo_lower demo_at_path exists_fault
    Transfer.demo_print_fault.


(** The run of the example: one file verified, one failed, one missing. *)
Example verify_the_tape :
  (fun r => (verified r, failed r, missing r, missing_files r))
    <$> demo_verify_run (fun _ => None) (lit "/logs/reel.mhl") (lit "/mnt/ltfs") demo_manifest
  = Ok (1, 1, 1, [lit "b/y.bin"]).
Proof. by vm_compute. Qed.

(** With the directory [b] closed, [exists()] raises for the third entry
    and [verify] returns no result; so does a base path whose name closes
    a tag that is not open. *)
Example verify_stops :
  demo_verify_run demo_exists_fault (lit "/logs/reel.mhl") (lit "/mnt/ltfs") demo_manifest
    = Raise (OSError (lit "[Errno 13] Permission denied"))
  /\ demo_verify_run (fun _ => None) (lit "/logs/reel.mhl") (lit "/mnt/a[/b]") demo_manifest
     = Raise (MarkupError (lit "closing tag does not match any open tag")).
Proof. split; by vm_compute. Qed.

End Verify.
